(** * pyemap.graph_mining.frequent_subgraph: the SubgraphPattern class

    A shallow embedding of [src/pyemap/graph_mining/frequent_subgraph.py].
    Python objects are translated as follows.

    - [networkx.Graph] is a record with the graph-level attribute
      dictionary, the node dictionary in insertion order and the undirected
      edges in insertion order; attribute dictionaries with the fixed keys
      the package writes are records. The similarity graphs, whose nodes
      are integers without attributes, have a record of their own.
    - Python dictionaries whose iteration order is observed ([support],
      node mappings, the atoms of a residue) are association lists;
      dictionaries that are only looked up or compared are [gmap]s.
    - A Python set (a connected component) is the list of its members in
      the order of discovery; statements about groups are about membership
      and size.
    - Python floats (edge weights, RMSD values) are rationals, with a
      separate value for [float("inf")]; integers are unbounded. No float
      arithmetic is modelled: the values that libraries compute on floats
      (the weighted size of a graph, the RMSD) are parameters.
    - Objects are values. The one comparison of object identity, the
      [==] of two graphs in [__eq__], is on the addresses of the graph
      objects.
    - Exceptions are values of [exn]; a method of the class is a function
      from the object's state to an outcome and the state it leaves behind.
    - The collaborators that are not part of this module (the graph matcher,
      the canonical SMILES writer, the SVD superimposer, the weighted size
      of networkx) are parameters of the methods. *)

From Stdlib Require Import Ascii String ZArith QArith Lia OrderedTypeEx Sorted.
From stdpp Require Import base option list gmap strings pretty relations.

Local Open Scope Z_scope.
Local Open Scope nat_scope.

(** ** Exceptions *)

Inductive exn :=
  | KeyError
  | IndexError
  | TypeError
  | ValueError
  | AttributeError
  | Exception (msg : string).

Inductive result (A : Type) :=
  | Ok (a : A)
  | Raise (e : exn).
Arguments Ok {A} a.
Arguments Raise {A} e.

Global Instance result_ret : MRet result := λ A a, Ok a.
Global Instance result_bind : MBind result := λ A B f m,
  match m with Ok a => f a | Raise e => Raise e end.

(** [d[k]] on a lookup that may miss. *)
Definition getitem {A} (o : option A) : result A :=
  match o with Some a => Ok a | None => Raise KeyError end.

(** ** Insertion-ordered dictionaries *)

Module OD.
Section odict.
Context {K V : Type} `{EqDecision K}.

Fixpoint get (d : list (K * V)) (k : K) : option V :=
  match d with
  | [] => None
  | (k', v) :: d' => if decide (k' = k) then Some v else get d' k
  end.

(** [d[k] = v]: an existing key keeps its position. *)
Fixpoint set (d : list (K * V)) (k : K) (v : V) : list (K * V) :=
  match d with
  | [] => [(k, v)]
  | (k', v') :: d' =>
      if decide (k' = k) then (k, v) :: d' else (k', v') :: set d' k v
  end.

Definition keys (d : list (K * V)) : list K := d.*1.

Definition mem (d : list (K * V)) (k : K) : bool :=
  bool_decide (k ∈ keys d).

(** [dict(pairs)] *)
Definition of_pairs (l : list (K * V)) : list (K * V) :=
  foldl (λ d kv, set d kv.1 kv.2) [] l.
End odict.
End OD.

(** ** networkx.Graph *)

Definition node := string.

Record Graph (GA NA EA : Type) := mkGraph {
  graph_attr : GA;
  node_list : list (node * NA);
  edge_list : list (node * node * EA);
}.
Arguments mkGraph {GA NA EA}.
Arguments graph_attr {GA NA EA}.
Arguments node_list {GA NA EA}.
Arguments edge_list {GA NA EA}.

Section graph_ops.
Context {GA NA EA : Type}.
Implicit Types (g : Graph GA NA EA) (u v : node).

(** [list(G.nodes)] *)
Definition nodes g : list node := (node_list g).*1.

(** [G.nodes[u]] *)
Definition node_attr g u : option NA := OD.get (node_list g) u.

(** The edge [(a, b)] joins [u] and [v], in either direction. *)
Definition joins (u v a b : node) : bool :=
  bool_decide (a = u ∧ b = v) || bool_decide (a = v ∧ b = u).

Definition has_edge g u v : bool :=
  existsb (λ e, joins u v e.1.1 e.1.2) (edge_list g).

(** [G.edges[(u, v)]] *)
Definition edge_attr g u v : option EA :=
  (λ ie, ie.2.2) <$> list_find (λ e, joins u v e.1.1 e.1.2 = true) (edge_list g).

(** [G.add_node(u)] followed by writing the attributes [a]: a node that
    is already present keeps its position and takes the new attributes. *)
Definition add_node g u (a : NA) : Graph GA NA EA :=
  mkGraph (graph_attr g) (OD.set (node_list g) u a) (edge_list g).

(** [G.add_edge(u, v)] followed by writing the attributes [a], for
    endpoints that are nodes of [g]. *)
Definition add_edge g u v (a : EA) : Graph GA NA EA :=
  if has_edge g u v then
    mkGraph (graph_attr g) (node_list g)
      (map (λ e, if joins u v e.1.1 e.1.2 then (e.1, a) else e) (edge_list g))
  else
    mkGraph (graph_attr g) (node_list g) (edge_list g ++ [(u, v, a)]).

(** [G.degree[u]]: a self loop counts twice. *)
Definition degree g u : nat :=
  sum_list (map (λ e, (if bool_decide (e.1.1 = u) then 1 else 0) +
                      (if bool_decide (e.1.2 = u) then 1 else 0))
                (edge_list g)).

(** [dict(G.degree)] *)
Definition degree_dict g : gmap node nat :=
  list_to_map (map (λ u, (u, degree g u)) (nodes g)).

(** [len(G.nodes)] *)
Definition number_of_nodes g : nat := length (node_list g).
End graph_ops.

(** [nx.relabel_nodes(G, mapping)] with [copy=True]: a new graph whose nodes
    are the images [mapping.get(n, n)], in the order of [G], and whose edges
    are the images of the edges of [G]. *)
Definition relabel_nodes {GA NA EA} (g : Graph GA NA EA)
    (mapping : list (node * node)) : Graph GA NA EA :=
  let f n := default n (OD.get mapping n) in
  let h := foldl (λ h na, add_node h (f na.1) na.2)
                 (mkGraph (graph_attr g) [] []) (node_list g) in
  foldl (λ h e, add_edge h (f e.1.1) (f e.1.2) e.2) h (edge_list g).

(** ** Sorting

    [sorted] and [list.sort] are stable; [insert_by] puts an element in
    front of the first element that does not come strictly before it. *)
Section sorting.
Context {A : Type} (before : A → A → bool).

(** [before x y]: [x] must come strictly before [y]. *)
Fixpoint insert_by (x : A) (l : list A) : list A :=
  match l with
  | [] => [x]
  | y :: l' => if before y x then y :: insert_by x l' else x :: y :: l'
  end.

Definition stable_sort (l : list A) : list A := foldr insert_by [] l.
End sorting.

(** [foldl] in the exception monad: a [for] loop whose body may raise. *)
Fixpoint foldlM {A B} (f : A → B → result A) (a : A) (l : list B) : result A :=
  match l with
  | [] => Ok a
  | x :: l' => a' ← f a x; foldlM f a' l'
  end.

(** ** The data model *)

(** Pattern graph: nodes carry a residue label and its numeric code, edges
    the numeric class of their distance. *)
Record PatNode := mkPatNode { pn_label : string; pn_num_label : Z }.
Record PatEdge := mkPatEdge { pe_num_label : Z }.
Definition PatternGraph := Graph unit PatNode PatEdge.

(** The graph of one structure, [emap.init_graph]; its graph attribute is
    the [pdb_id]. *)
Record HostNode := mkHostNode {
  hn_shape : string; hn_label : string; hn_num_label : Z }.
Record HostEdge := mkHostEdge {
  he_weight : Q; he_distance : Q; he_num_label : Z }.
Definition HostGraph := Graph string HostNode HostEdge.

(** A protein subgraph. ["X"] as aligned residue number is [None]. *)
Record OccNode := mkOccNode {
  on_shape : string;
  on_label : string;
  on_num_label : Z;
  on_aligned_resnum : option Z;
  on_resnum : Z }.
Record OccInfo := mkOccInfo {
  oi_pdb_id : option string;
  oi_id : option string }.
Definition Occurrence := Graph OccInfo OccNode HostEdge.

Abbreviation coord := (Q * Q * Q)%type.

Global Instance Q_eq_dec : EqDecision Q.
Proof. solve_decision. Defined.

(** A residue: its atoms in order, [full_id[3][1]] and the aligned residue
    number. *)
Record Residue := mkResidue {
  res_atoms : list (string * coord);
  res_seq : Z;
  aligned_residue_number : option Z }.

Record emap := mkEmap {
  init_graph : HostGraph;
  residues : gmap node Residue }.

(** [G.size(weight="num_label")]: the sum of the attribute over the edges,
    an integer. *)
Definition size_num_label (g : PatternGraph) : Z :=
  foldr Z.add 0%Z (map (λ e, pe_num_label e.2) (edge_list g)).

(** The sum of the weights of the edges. [G.size(weight="weight")] is this
    sum computed on floats, with their rounding: the methods take the float
    that it returns as a parameter, and the examples, whose weights are
    small integers that floats add without rounding, use the sum. *)
Definition sum_of_weights (g : Occurrence) : Q :=
  foldr Qplus 0%Q (map (λ e, he_weight e.2) (edge_list g)).

Global Instance PatNode_eq_dec : EqDecision PatNode.
Proof. solve_decision. Defined.
Global Instance PatEdge_eq_dec : EqDecision PatEdge.
Proof. solve_decision. Defined.
Global Instance Graph_eq_dec {GA NA EA}
  `{EqDecision GA, EqDecision NA, EqDecision EA} : EqDecision (Graph GA NA EA).
Proof. solve_decision. Defined.

(** ** Building one protein subgraph *)

Definition _generate_protein_subgraph (mapping : list (node * node))
    (protein_graph : HostGraph) (G : PatternGraph) (emap_obj : emap)
    : result Occurrence :=
  let mapping := OD.of_pairs (map (λ kv, (kv.2, kv.1)) mapping) in
  let protein_subgraph := relabel_nodes G mapping in
  keyed ← mapM (λ n, r ← getitem (residues emap_obj !! n); mret (res_seq r, n))
               (nodes protein_subgraph);
  let order := (stable_sort (λ x y : Z * node, (x.1 <? y.1)%Z) keyed).*2 in
  sorted_graph ← foldlM (λ (sg : Occurrence) n,
      h ← getitem (node_attr protein_graph n);
      r ← getitem (residues emap_obj !! n);
      let a := {| on_shape := hn_shape h;
                  on_label := n;
                  on_num_label := hn_num_label h;
                  on_aligned_resnum := aligned_residue_number r;
                  on_resnum := res_seq r |} in
      let sg := add_node sg n a in
      mret (mkGraph (mkOccInfo (Some (graph_attr protein_graph))
                               (oi_id (graph_attr sg)))
                    (node_list sg) (edge_list sg)))
    (mkGraph (mkOccInfo None None) [] []) order;
  foldlM (λ (sg : Occurrence) e,
      a ← getitem (edge_attr protein_graph e.1.1 e.1.2);
      mret (add_edge sg e.1.1 e.1.2 a))
    sorted_graph (edge_list protein_subgraph).

(** ** Similarity graphs

    [G_seq] and [G_struct] are [nx.Graph()] objects whose nodes are the
    indices [0 .. n-1] of the pooled list and whose edges carry no
    attribute. *)
Record IndexGraph := mkIndexGraph {
  ig_nodes : list nat;
  ig_edges : list (nat * nat) }.

(** [G.add_edge(i, j)] for two nodes of the graph. *)
Definition ig_add_edge (g : IndexGraph) (i j : nat) : IndexGraph :=
  mkIndexGraph (ig_nodes g) (ig_edges g ++ [(i, j)]).

Definition ig_has_edge (g : IndexGraph) (i j : nat) : bool :=
  bool_decide ((i, j) ∈ ig_edges g) || bool_decide ((j, i) ∈ ig_edges g).

(** [G.adj[v]] *)
Definition ig_neighbors (g : IndexGraph) (v : nat) : list nat :=
  flat_map (λ e : nat * nat,
              if decide (e.1 = v) then [e.2]
              else if decide (e.2 = v) then [e.1] else [])
           (ig_edges g).

(** One level of networkx's [_plain_bfs]: every neighbour of the current
    level that was not seen yet is marked and put in the next level. *)
Definition bfs_visit (g : IndexGraph) (st : list nat * list nat) (v : nat)
    : list nat * list nat :=
  foldl (λ (st : list nat * list nat) w,
           if bool_decide (w ∈ st.1) then st else (st.1 ++ [w], st.2 ++ [w]))
        st (ig_neighbors g v).

Fixpoint bfs_levels (fuel : nat) (g : IndexGraph) (seen level : list nat)
    : list nat :=
  match fuel with
  | 0 => seen
  | S fuel' =>
      match level with
      | [] => seen
      | _ =>
          let st := foldl (bfs_visit g) (seen, []) level in
          bfs_levels fuel' g st.1 st.2
      end
  end.

(** The set returned by [_plain_bfs(G, source)], in order of discovery. No
    walk has more levels than the graph has nodes. *)
Definition _plain_bfs (g : IndexGraph) (source : nat) : list nat :=
  bfs_levels (S (length (ig_nodes g))) g [source] [source].

(** [nx.connected_components(G)]: the components in the order of their first
    node. Each component is a Python set; the model lists its members in
    the order of discovery. *)
Definition cc_step (g : IndexGraph) (st : list nat * list (list nat)) (v : nat)
    : list nat * list (list nat) :=
  if bool_decide (v ∈ st.1) then st
  else let c := _plain_bfs g v in (st.1 ++ c, st.2 ++ [c]).

Definition connected_components (g : IndexGraph) : list (list nat) :=
  (foldl (cc_step g) ([], []) (ig_nodes g)).2.

(** [sorted(cc, key=len, reverse=True)] *)
Definition sorted_by_len_desc (cc : list (list nat)) : list (list nat) :=
  stable_sort (λ x y : list nat, length y <? length x) cc.

(** ** _gen_groups *)

Definition graph_id (x : Occurrence) : result string :=
  getitem (oi_id (graph_attr x)).

Definition getindex {A} (l : list A) (i : nat) : result A :=
  match l !! i with Some a => Ok a | None => Raise IndexError end.

Definition _gen_groups (cc : list (list nat)) (all_graphs : list Occurrence)
    : result (gmap nat (list string)) :=
  foldlM (λ (groups : gmap nat (list string)) (ig : nat * list nat),
      let '(group_idx, group) := ig in
      graph_list ← mapM (getindex all_graphs) group;
      ids ← mapM graph_id graph_list;
      mret (<[group_idx + 1 := ids]> groups))
    ∅ (imap (λ i c, (i, c)) cc).

(** ** Floats with infinity *)

Inductive float :=
  | Finite (q : Q)
  | Inf.

(** [x <= y] for a finite [y]. *)
Definition float_le_finite (x : float) (y : Q) : bool :=
  match x with Finite q => Qle_bool q y | Inf => false end.

Definition float_min (x y : float) : float :=
  match x, y with
  | Finite p, Finite q => if Qle_bool p q then x else y
  | Finite _, Inf => x
  | Inf, _ => y
  end.

(** [np.min(l)]: raises [ValueError] on an empty list. *)
Definition np_min_int (l : list Z) : result Z :=
  match l with
  | [] => Raise ValueError
  | x :: l' => Ok (foldl Z.min x l')
  end.

Definition np_min_float (l : list float) : result float :=
  match l with
  | [] => Raise ValueError
  | x :: l' => Ok (foldl float_min x l')
  end.

(** ** Residues (Bio.PDB) *)

(** ['CA' in res], [res['CA'].coord] *)
Definition has_atom (res : Residue) (name : string) : bool :=
  OD.mem (res_atoms res) name.

Definition atom_coord (res : Residue) (name : string) : result coord :=
  getitem (OD.get (res_atoms res) name).

(** The [for atm in res1: if atm.id in res2: ... break] loop. *)
Definition first_shared_atom (res1 res2 : Residue) : option string :=
  (λ ix : nat * string, ix.2) <$>
    list_find (λ name, has_atom res2 name = true) (OD.keys (res_atoms res1)).

(** ** The SubgraphPattern object *)

(** The attributes of a [SubgraphPattern]. [clustering_option],
    [_structural_groups] and [_sequence_groups] are not created by
    [__init__]: they are [None] until a method assigns them, and reading
    them before that raises [AttributeError]. *)
Record SubgraphPattern := mkSubgraphPattern {
  G : PatternGraph;
  support : list (string * emap);
  total_support : gmap string nat;
  protein_subgraphs : gmap string Occurrence;
  unsorted_graphs : gmap string Occurrence;
  groups : gmap nat (list string);
  res_to_num_label : list (string * Z);
  edge_thresholds : list Q;
  support_number : nat;
  pattern_id : string;
  _file_id : string;
  clustering_option : option string;
  _structural_groups : option (gmap nat (list string));
  _sequence_groups : option (gmap nat (list string));
}.

Definition set_total_support (v : gmap string nat) (s : SubgraphPattern) :=
  mkSubgraphPattern (G s) (support s) v (protein_subgraphs s)
    (unsorted_graphs s) (groups s) (res_to_num_label s) (edge_thresholds s)
    (support_number s) (pattern_id s) (_file_id s) (clustering_option s)
    (_structural_groups s) (_sequence_groups s).

Definition set_protein_subgraphs (v : gmap string Occurrence) (s : SubgraphPattern) :=
  mkSubgraphPattern (G s) (support s) (total_support s) v
    (unsorted_graphs s) (groups s) (res_to_num_label s) (edge_thresholds s)
    (support_number s) (pattern_id s) (_file_id s) (clustering_option s)
    (_structural_groups s) (_sequence_groups s).

Definition set_groups (v : gmap nat (list string)) (s : SubgraphPattern) :=
  mkSubgraphPattern (G s) (support s) (total_support s) (protein_subgraphs s)
    (unsorted_graphs s) v (res_to_num_label s) (edge_thresholds s)
    (support_number s) (pattern_id s) (_file_id s) (clustering_option s)
    (_structural_groups s) (_sequence_groups s).

Definition set_clustering_option (v : string) (s : SubgraphPattern) :=
  mkSubgraphPattern (G s) (support s) (total_support s) (protein_subgraphs s)
    (unsorted_graphs s) (groups s) (res_to_num_label s) (edge_thresholds s)
    (support_number s) (pattern_id s) (_file_id s) (Some v)
    (_structural_groups s) (_sequence_groups s).

Definition set_structural_groups (v : gmap nat (list string)) (s : SubgraphPattern) :=
  mkSubgraphPattern (G s) (support s) (total_support s) (protein_subgraphs s)
    (unsorted_graphs s) (groups s) (res_to_num_label s) (edge_thresholds s)
    (support_number s) (pattern_id s) (_file_id s) (clustering_option s)
    (Some v) (_sequence_groups s).

Definition set_sequence_groups (v : gmap nat (list string)) (s : SubgraphPattern) :=
  mkSubgraphPattern (G s) (support s) (total_support s) (protein_subgraphs s)
    (unsorted_graphs s) (groups s) (res_to_num_label s) (edge_thresholds s)
    (support_number s) (pattern_id s) (_file_id s) (clustering_option s)
    (_structural_groups s) (Some v).

(** A method: the outcome and the state of [self] when it returns or
    raises. *)
Definition M (A : Type) : Type := SubgraphPattern → result A * SubgraphPattern.

Global Instance M_ret : MRet M := λ A a self, (Ok a, self).
Global Instance M_bind : MBind M := λ A B f m self,
  match m self with
  | (Ok a, self') => f a self'
  | (Raise e, self') => (Raise e, self')
  end.

Definition lift {A} (r : result A) : M A := λ self, (r, self).
Definition raise {A} (e : exn) : M A := λ self, (Raise e, self).
Definition read {A} (f : SubgraphPattern → A) : M A := λ self, (Ok (f self), self).
Definition modify (f : SubgraphPattern → SubgraphPattern) : M unit :=
  λ self, (Ok tt, f self).

(** [self.attr] for an attribute that may not exist yet. *)
Definition getattr {A} (f : SubgraphPattern → option A) : M A := λ self,
  match f self with
  | Some a => (Ok a, self)
  | None => (Raise AttributeError, self)
  end.

(** [str.replace("#", "NP")] *)
Fixpoint replace_hash (s : string) : string :=
  match s with
  | EmptyString => EmptyString
  | String c s' =>
      if Ascii.eqb c "#"%char then "NP" +:+ replace_hash s'
      else String c (replace_hash s')
  end.

Definition normalize_label (a : PatNode) : PatNode :=
  if String.eqb (pn_label a) "#" then mkPatNode "NP" (pn_num_label a) else a.

(** ** Identity of graph objects

    The methods below depend on the values of the attributes, with one
    exception: [__eq__] compares the graph objects themselves. For it a
    pattern comes with the address of the graph object that its attribute
    [G] is bound to; [__init__] binds [G] to a copy of its argument, an
    object at an address of its own. *)
Record PatternObject := mkPatternObject {
  G_address : nat;
  attributes :> SubgraphPattern }.

(** ** The methods

    The collaborators of the class are parameters of the section:
    [subgraph_monomorphisms host pattern] and [subgraph_isomorphisms sg1 sg2]
    are the mappings enumerated by
    [get_graph_matcher(G1, G2).subgraph_monomorphisms_iter()] and
    [.subgraph_isomorphisms_iter()], each one a dictionary from nodes of
    [G1] to nodes of [G2]; [write_graph_smiles] is the canonical string of a
    pattern graph; [svd_rms atoms1 atoms2] is the value of
    [SVDSuperimposer.get_rms()] after [set] and [run]; [size_weight g] is
    the float that [g.size(weight="weight")] returns. *)
Section methods.
Variable size_weight : Occurrence → Q.
Variable subgraph_monomorphisms :
  HostGraph → PatternGraph → list (list (node * node)).
Variable subgraph_isomorphisms :
  Occurrence → Occurrence → list (list (node * node)).
Variable write_graph_smiles : PatternGraph → string.
Variable svd_rms : list coord → list coord → Q.

Definition __init__ (G0 : PatternGraph) (graph_number : Z)
    (support0 : list (string * emap)) (res_to_num_label0 : list (string * Z))
    (edge_thresholds0 : list Q) : SubgraphPattern :=
  let support_number0 := length support0 in
  let id0 := pretty (graph_number + 1)%Z +:+ "_" +:+ write_graph_smiles G0
             +:+ "_" +:+ pretty support_number0 in
  {| G := mkGraph (graph_attr G0)
            (map (λ na, (na.1, normalize_label na.2)) (node_list G0))
            (edge_list G0);
     support := support0;
     total_support := ∅;
     protein_subgraphs := ∅;
     unsorted_graphs := ∅;
     groups := ∅;
     res_to_num_label := res_to_num_label0;
     edge_thresholds := edge_thresholds0;
     support_number := support_number0;
     pattern_id := id0;
     _file_id := replace_hash id0;
     clustering_option := None;
     _structural_groups := None;
     _sequence_groups := None |}.

(** [SubgraphPattern(G, ...)]: the call makes [G.copy()] a new graph object,
    at [next], the first address that no object of the program has yet. *)
Definition new_pattern (next : nat) (G0 : PatternGraph) (graph_number : Z)
    (support0 : list (string * emap)) (res_to_num_label0 : list (string * Z))
    (edge_thresholds0 : list Q) : PatternObject :=
  mkPatternObject next
    (__init__ G0 graph_number support0 res_to_num_label0 edge_thresholds0).

Definition __lt__ (self other : SubgraphPattern) : bool :=
  if negb (support_number self =? support_number other) then
    support_number self <? support_number other
  else if negb (String.eqb (write_graph_smiles (G self))
                           (write_graph_smiles (G other))) then
    String.ltb (write_graph_smiles (G self)) (write_graph_smiles (G other))
  else
    (size_num_label (G self) <? size_num_label (G other))%Z.

(** [self.G == other.G]. [networkx.Graph] defines no [__eq__], so the
    comparison is the one of [object]: it holds when the two attributes are
    bound to one and the same graph object, whatever the graphs contain. *)
Definition __eq__ (self other : PatternObject) : bool :=
  bool_decide (G_address self = G_address other).

(** The three values that [__lt__] compares, in the order it compares
    them. *)
Definition sort_key (self : SubgraphPattern) : nat * string * Z :=
  (support_number self, write_graph_smiles (G self), size_num_label (G self)).

Definition set_clustering (option : string) : M unit :=
  (if String.eqb option "structural" then
     g ← getattr _structural_groups; modify (set_groups g)
   else if String.eqb option "sequence" then
     g ← getattr _sequence_groups; modify (set_groups g)
   else raise (Exception "Either structural or sequence."));;
  modify (set_clustering_option option).

Definition _subgraph_seq_dist (sg1 sg2 : Occurrence)
    (mapping : list (node * node)) : result Z :=
  foldlM (λ (total_dist : Z) (kv : node * node),
      a1 ← getitem (node_attr sg1 kv.1);
      match on_aligned_resnum a1 with
      | None => mret total_dist
      | Some r1 =>
          a2 ← getitem (node_attr sg2 kv.2);
          match on_aligned_resnum a2 with
          | None => Raise TypeError
          | Some r2 => mret (total_dist + Z.abs (r1 - r2))%Z
          end
      end)
    0%Z mapping.

(** The loop of [_subgraph_rmsd]; [None] is the early [return float("inf")]. *)
Fixpoint collect_atoms (emap1 emap2 : emap) (mapping : list (node * node))
    (atoms1 atoms2 : list coord) : result (option (list coord * list coord)) :=
  match mapping with
  | [] => Ok (Some (atoms1, atoms2))
  | (key, val) :: mapping' =>
      res1 ← getitem (residues emap1 !! key);
      res2 ← getitem (residues emap2 !! val);
      if has_atom res1 "CA" && has_atom res2 "CA" then
        c1 ← atom_coord res1 "CA";
        c2 ← atom_coord res2 "CA";
        collect_atoms emap1 emap2 mapping' (atoms1 ++ [c1]) (atoms2 ++ [c2])
      else
        match first_shared_atom res1 res2 with
        | Some shared_id =>
            c1 ← atom_coord res1 shared_id;
            c2 ← atom_coord res2 shared_id;
            collect_atoms emap1 emap2 mapping' (atoms1 ++ [c1]) (atoms2 ++ [c2])
        | None => Ok None
        end
  end.

Definition host_of (self : SubgraphPattern) (sg : Occurrence) : result emap :=
  pdb_id ← getitem (oi_pdb_id (graph_attr sg));
  getitem (OD.get (support self) pdb_id).

Definition _subgraph_rmsd (self : SubgraphPattern) (sg1 sg2 : Occurrence)
    (mapping : list (node * node)) : result float :=
  emap1 ← host_of self sg1;
  emap2 ← host_of self sg2;
  r ← collect_atoms emap1 emap2 mapping [] [];
  match r with
  | None => Ok Inf
  | Some (atoms1, atoms2) =>
      if (2 <=? length atoms1) && (length atoms1 =? length atoms2) then
        Ok (Finite (svd_rms atoms1 atoms2))
      else Ok Inf
  end.

(** The body of the double loop of [_do_clustering] for one pair: the
    distances of every mapping, then their minima. *)
Definition pair_distances (self : SubgraphPattern) (gi gj : Occurrence)
    : result (Z * float) :=
  ds ← foldlM (λ (acc : list Z * list float) mapping,
          d ← _subgraph_seq_dist gi gj mapping;
          r ← _subgraph_rmsd self gi gj mapping;
          mret (acc.1 ++ [d], acc.2 ++ [r]))
        ([], []) (subgraph_isomorphisms gi gj);
  seq_dist ← np_min_int ds.1;
  rmsd ← np_min_float ds.2;
  mret (seq_dist, rmsd).

(** [(i, j)] for [i in range(0, n)], [j in range(i + 1, n)]. *)
Definition index_pairs (n : nat) : list (nat * nat) :=
  flat_map (λ i, map (λ j, (i, j)) (seq (i + 1) (n - (i + 1)))) (seq 0 n).

(** The body of the double loop for the pair [ij], on the supergraphs
    [gs = (G_seq, G_struct)]. The running sums [seq_sum] and [rmsd_sum] are
    never read and are left out. *)
Definition compare_pair (self : SubgraphPattern) (all_graphs : list Occurrence)
    (num_nodes : nat) (gs : IndexGraph * IndexGraph) (ij : nat * nat)
    : result (IndexGraph * IndexGraph) :=
  gi ← getindex all_graphs ij.1;
  gj ← getindex all_graphs ij.2;
  d ← pair_distances self gi gj;
  let G_seq :=
    if (d.1 <? Z.of_nat num_nodes)%Z then ig_add_edge gs.1 ij.1 ij.2
    else gs.1 in
  let G_struct :=
    if float_le_finite d.2 (1 # 2) then ig_add_edge gs.2 ij.1 ij.2
    else gs.2 in
  mret (G_seq, G_struct).

(** The supergraphs [(G_seq, G_struct)] of [_do_clustering]. *)
Definition similarity_graphs (self : SubgraphPattern)
    (all_graphs : list Occurrence) : result (IndexGraph * IndexGraph) :=
  let num_graphs := length all_graphs in
  g0 ← getindex all_graphs 0;
  let num_nodes := number_of_nodes g0 in
  let G0 := mkIndexGraph (seq 0 num_graphs) [] in
  foldlM (compare_pair self all_graphs num_nodes) (G0, G0)
         (index_pairs num_graphs).

Definition _do_clustering (all_graphs : list Occurrence) : M unit :=
  self ← read (λ self, self);
  gs ← lift (similarity_graphs self all_graphs);
  structural ← lift (_gen_groups
    (sorted_by_len_desc (connected_components gs.2)) all_graphs);
  modify (set_structural_groups structural);;
  sequence ← lift (_gen_groups
    (sorted_by_len_desc (connected_components gs.1)) all_graphs);
  modify (set_sequence_groups sequence).

(** The loop of [_find_subgraph_in_pdb]: the subgraph of every mapping, kept
    when its degree dictionary was not seen before. *)
Definition unique_subgraphs (e : emap) (pattern : PatternGraph)
    (mappings : list (list (node * node)))
    : result (list Occurrence * list (gmap node nat)) :=
  foldlM (λ (acc : list Occurrence * list (gmap node nat)) mapping,
      sg ← _generate_protein_subgraph mapping (init_graph e) pattern e;
      let d := degree_dict sg in
      if bool_decide (d ∈ acc.2) then mret acc
      else mret (acc.1 ++ [sg], acc.2 ++ [d]))
    ([], []) mappings.

Definition _find_subgraph_in_pdb (pdb_id : string) : M (list Occurrence) :=
  self ← read (λ self, self);
  e ← lift (getitem (OD.get (support self) pdb_id));
  r ← lift (unique_subgraphs e (G self)
              (subgraph_monomorphisms (init_graph e) (G self)));
  let sgs := r.1 in
  modify (λ self, set_total_support
                    (<[pdb_id := length sgs]> (total_support self)) self);;
  mret sgs.

Fixpoint find_in_support (pdb_ids : list string) (all_graphs : list Occurrence)
    : M (list Occurrence) :=
  match pdb_ids with
  | [] => mret all_graphs
  | pdb_id :: pdb_ids' =>
      sgs ← _find_subgraph_in_pdb pdb_id;
      find_in_support pdb_ids' (all_graphs ++ sgs)
  end.

(** [graph.graph['id'] = unique_id] *)
Definition set_graph_id (graph : Occurrence) (unique_id : string) : Occurrence :=
  mkGraph (mkOccInfo (oi_pdb_id (graph_attr graph)) (Some unique_id))
          (node_list graph) (edge_list graph).

(** The loop that names the pooled graphs: [i] is the index of [graph]. *)
Fixpoint assign_ids (i : nat) (all_graphs : list Occurrence)
    : M (list Occurrence) :=
  match all_graphs with
  | [] => mret []
  | graph :: rest =>
      pdb_id ← lift (getitem (oi_pdb_id (graph_attr graph)));
      let unique_id := pdb_id +:+ "_" +:+ pretty (i + 1) in
      let graph := set_graph_id graph unique_id in
      modify (λ self, set_protein_subgraphs
                        (<[unique_id := graph]> (protein_subgraphs self)) self);;
      rest' ← assign_ids (S i) rest;
      mret (graph :: rest')
  end.

(** The first part of [find_protein_subgraphs]: the subgraphs of every
    structure, pooled, sorted by total edge weight and named. *)
Definition pool_subgraphs : M (list Occurrence) :=
  modify (set_groups ∅);;
  modify (set_protein_subgraphs ∅);;
  pdb_ids ← read (λ self, OD.keys (support self));
  all_graphs ← find_in_support pdb_ids [];
  let all_graphs :=
    stable_sort (λ x y : Occurrence,
                   negb (Qle_bool (size_weight y) (size_weight x)))
                all_graphs in
  assign_ids 0 all_graphs.

(** With at most one graph the three attributes [groups],
    [_structural_groups] and [_sequence_groups] are bound to one dictionary.
    No statement of the class writes to a dictionary of groups after
    binding it to a second attribute ([groups] is rebound to a new
    dictionary first), so the attributes are modelled as values. *)
Definition find_protein_subgraphs (option : string) : M unit :=
  all_graphs ← pool_subgraphs;
  if 1 <? length all_graphs then
    _do_clustering all_graphs;;
    set_clustering option
  else
    ids ← lift (mapM graph_id all_graphs);
    modify (λ self, set_groups (<[1 := ids]> (groups self)) self);;
    modify (set_clustering_option option);;
    modify (λ self, set_structural_groups (groups self) self);;
    modify (λ self, set_sequence_groups (groups self) self).

End methods.

(** The host node that a monomorphism (a dictionary from host nodes to
    pattern nodes) assigns to the pattern node [a]: the relabelling used by
    [_generate_protein_subgraph]. *)
Definition image_of (mapping : list (node * node)) (a : node) : node :=
  default a (OD.get (OD.of_pairs (map (λ kv, (kv.2, kv.1)) mapping)) a).

(** ** A reference graph matcher

    The matcher comes from [pyemap.graph_mining.utils], which is not part of
    this module: the methods take its enumerations as parameters. The
    examples below use the exhaustive search of this section, in which a
    mapping is a dictionary from nodes of the first graph to nodes of the
    second. *)
Section matcher.
Context {GA1 NA1 EA1 GA2 NA2 EA2 : Type}.
Variable node_match : NA1 → NA2 → bool.
Variable edge_match : EA1 → EA2 → bool.

(** Modelled from the spec: the one-to-one assignments of nodes of the first
    graph to all the nodes [ps] of the second, with compatible labels. *)
Fixpoint assignments (ps : list (node * NA2)) (hs : list (node * NA1))
    : list (list (node * node)) :=
  match ps with
  | [] => [[]]
  | p :: ps' =>
      flat_map (λ h : node * NA1,
          if node_match h.2 p.2 then
            map (λ m, (h.1, p.1) :: m)
                (assignments ps' (filter (λ h' : node * NA1, h'.1 ≠ h.1) hs))
          else [])
        hs
  end.

Definition preimage (m : list (node * node)) (p : node) : option node :=
  (λ ix : nat * (node * node), ix.2.1) <$> list_find (λ kv, kv.2 = p) m.

(** Modelled from the spec: every edge of the second graph maps to an
    existing edge of the first, with a compatible label. *)
Definition edges_preserved (g1 : Graph GA1 NA1 EA1) (g2 : Graph GA2 NA2 EA2)
    (m : list (node * node)) : bool :=
  forallb (λ e : node * node * EA2,
      match preimage m e.1.1, preimage m e.1.2 with
      | Some u, Some v =>
          match edge_attr g1 u v with
          | Some a => edge_match a e.2
          | None => false
          end
      | _, _ => false
      end)
    (edge_list g2).

(** Modelled from the spec: every edge of the first graph between mapped
    nodes maps to an edge of the second (edge-exact correspondence). *)
Definition edges_reflected (g1 : Graph GA1 NA1 EA1) (g2 : Graph GA2 NA2 EA2)
    (m : list (node * node)) : bool :=
  forallb (λ e : node * node * EA1,
      match OD.get m e.1.1, OD.get m e.1.2 with
      | Some a, Some b => has_edge g2 a b
      | _, _ => true
      end)
    (edge_list g1).

(** Modelled from the spec: subgraph monomorphisms of the second graph (the
    pattern) in the first (the host), which may have more edges between the
    mapped nodes. *)
Definition search_monomorphisms (g1 : Graph GA1 NA1 EA1)
    (g2 : Graph GA2 NA2 EA2) : list (list (node * node)) :=
  filter (λ m, edges_preserved g1 g2 m = true)
         (assignments (node_list g2) (node_list g1)).

(** Modelled from the spec: isomorphisms between two graphs of the same
    node count. *)
Definition search_isomorphisms (g1 : Graph GA1 NA1 EA1)
    (g2 : Graph GA2 NA2 EA2) : list (list (node * node)) :=
  filter (λ m, edges_preserved g1 g2 m = true ∧ edges_reflected g1 g2 m = true)
         (assignments (node_list g2) (node_list g1)).
End matcher.

(** Modelled from the spec: [get_graph_matcher] for a host and a pattern,
    with equality of the numeric labels as compatibility. *)
Definition host_monomorphisms : HostGraph → PatternGraph → list (list (node * node)) :=
  search_monomorphisms
    (λ h p, (hn_num_label h =? pn_num_label p)%Z)
    (λ h p, (he_num_label h =? pe_num_label p)%Z).

(** Modelled from the spec: [get_graph_matcher] for two protein
    subgraphs. *)
Definition occurrence_isomorphisms : Occurrence → Occurrence → list (list (node * node)) :=
  search_isomorphisms
    (λ a b, (on_num_label a =? on_num_label b)%Z)
    (λ a b : HostEdge, (he_num_label a =? he_num_label b)%Z).

(** ** A worked example: a path of three tryptophans in a triangle *)

Definition W : PatNode := mkPatNode "W" 1.

Definition path3 : PatternGraph :=
  mkGraph tt [("0", W); ("1", W); ("2", W)]
             [("0", "1", mkPatEdge 1); ("1", "2", mkPatEdge 1)].

Definition trp : HostNode := mkHostNode "box" "W" 1.

Definition triangle : HostGraph :=
  mkGraph "1abc"
    [("W10(A)", trp); ("W20(A)", trp); ("W30(A)", trp)]
    [("W10(A)", "W20(A)", mkHostEdge 1 1 1);
     ("W20(A)", "W30(A)", mkHostEdge 2 2 1);
     ("W10(A)", "W30(A)", mkHostEdge 3 3 1)].

Definition residue_at (x : Q) (seq : Z) : Residue :=
  mkResidue [("N", (x, 0, 0)%Q); ("CA", (x, 1, 0)%Q)] seq (Some seq).

Definition emap_1abc : emap :=
  mkEmap triangle
    (<["W10(A)" := residue_at 0 10]>
       (<["W20(A)" := residue_at 1 20]>
          (<["W30(A)" := residue_at 2 30]> ∅))).

(** Modelled from the spec: [write_graph_smiles] of
    [pyemap.graph_mining.utils], a string derived from the structure and the
    labels of the pattern that does not change when its nodes are renamed;
    here the labels of the nodes in order. *)
Definition smiles_of_labels (g : PatternGraph) : string :=
  foldr (λ na s, pn_label na.2 +:+ s) "" (node_list g).

(** A superimposer for the examples: two identical lists of coordinates have
    RMSD 0, and the examples need no other value than 1 for the rest. *)
Definition rms_same_or_one (atoms1 atoms2 : list coord) : Q :=
  if bool_decide (atoms1 = atoms2) then 0 else 1.

Definition pattern_1abc : SubgraphPattern :=
  __init__ smiles_of_labels path3 0 [("1abc", emap_1abc)] [] [].

(** ** Specification vocabulary *)

(** The character [c] occurs in [s]. *)
Fixpoint contains_char (c : ascii) (s : string) : bool :=
  match s with
  | EmptyString => false
  | String c' s' => Ascii.eqb c c' || contains_char c s'
  end.

(** A method that never touches the pattern, the supporting structures or
    the support counts, whether it returns or raises. *)
Definition keeps_support {A} (m : M A) : Prop :=
  ∀ self r self', m self = (r, self') →
    G self' = G self ∧ support self' = support self ∧
    total_support self' = total_support self.

(** The path with other node names, and the pattern built from it. *)
Definition path3_renamed : PatternGraph :=
  mkGraph tt [("a", W); ("b", W); ("c", W)]
             [("a", "b", mkPatEdge 1); ("b", "c", mkPatEdge 1)].

Definition pattern_renamed : SubgraphPattern :=
  __init__ smiles_of_labels path3_renamed 1 [("1abc", emap_1abc)] [] [].

(** The two patterns as the objects of two constructor calls, one after the
    other: each call has copied its graph to an address of its own. *)
Definition object_1abc : PatternObject :=
  new_pattern smiles_of_labels 0 path3 0 [("1abc", emap_1abc)] [] [].

Definition object_renamed : PatternObject :=
  new_pattern smiles_of_labels 1 path3_renamed 1 [("1abc", emap_1abc)] [] [].

Definition run_1abc : result unit * SubgraphPattern :=
  find_protein_subgraphs sum_of_weights host_monomorphisms
    occurrence_isomorphisms
    rms_same_or_one "structural" pattern_1abc.

(** The monomorphism that sends the path onto the residues in order. *)
Definition in_order : list (node * node) :=
  [("W10(A)", "0"); ("W20(A)", "1"); ("W30(A)", "2")].

(** Two pattern objects of one program state: an address holds one graph
    object, so attributes bound to the same address see the same graph. *)
Definition one_heap (A B : PatternObject) : Prop :=
  G_address A = G_address B → G A = G B.

(** Exactly one of three propositions holds. *)
Definition exactly_one (P Q R : Prop) : Prop :=
  (P ∧ ¬ Q ∧ ¬ R) ∨ (¬ P ∧ Q ∧ ¬ R) ∨ (¬ P ∧ ¬ Q ∧ R).

(** [d] is a least element of [l]. *)
Definition is_minimum {A} (le : A → A → Prop) (d : A) (l : list A) : Prop :=
  d ∈ l ∧ ∀ x, x ∈ l → le d x.

(** The order of floats, infinity on top. *)
Definition float_le (x y : float) : Prop :=
  match x, y with
  | Finite p, Finite q => (p <= q)%Q
  | _, Inf => True
  | Inf, Finite _ => False
  end.

(** Two residues share an atom name. *)
Definition share_atom (res1 res2 : Residue) : Prop :=
  ∃ name, has_atom res1 name = true ∧ has_atom res2 name = true.

(** [name] is the first atom of [res1], in the order of its atoms, that
    [res2] has as well. *)
Definition first_common_atom (res1 res2 : Residue) (name : string) : Prop :=
  ∃ i, OD.keys (res_atoms res1) !! i = Some name ∧
       has_atom res2 name = true ∧
       ∀ j other, OD.keys (res_atoms res1) !! j = Some other → j < i →
                  has_atom res2 other = false.

(** The atom whose coordinates stand for a matched pair of residues: the
    alpha carbon when both have one, else the first common atom. *)
Definition reference_atom (res1 res2 : Residue) (name : string) : Prop :=
  (has_atom res1 "CA" = true ∧ has_atom res2 "CA" = true ∧ name = "CA") ∨
  (¬ (has_atom res1 "CA" = true ∧ has_atom res2 "CA" = true) ∧
   first_common_atom res1 res2 name).

(** [c1] and [c2] are the coordinates that the pair [kv] of a mapping
    contributes to the superposition. *)
Definition reference_coords (emap1 emap2 : emap) (kv : node * node)
    (cc : coord * coord) : Prop :=
  ∃ res1 res2 name,
    residues emap1 !! kv.1 = Some res1 ∧
    residues emap2 !! kv.2 = Some res2 ∧
    reference_atom res1 res2 name ∧
    atom_coord res1 name = Ok cc.1 ∧
    atom_coord res2 name = Ok cc.2.

(** Connectivity in a similarity graph. *)
Definition adjacent (g : IndexGraph) (u v : nat) : Prop :=
  ig_has_edge g u v = true.

Definition connected (g : IndexGraph) : nat → nat → Prop := rtc (adjacent g).

(** The endpoints of every edge are nodes. *)
Definition edges_in_nodes (g : IndexGraph) : Prop :=
  ∀ a b, (a, b) ∈ ig_edges g → a ∈ ig_nodes g ∧ b ∈ ig_nodes g.

(** [groups] numbers from 1 the blocks of a partition of [ids], and no block
    is larger than the one before it. *)
Definition partition_by_size (groups : gmap nat (list string))
    (ids : list string) : Prop :=
  ∃ blocks : list (list string),
    (∀ k, groups !! k = match k with 0 => None | S i => blocks !! i end) ∧
    concat blocks ≡ₚ ids ∧
    ∀ i b1 b2, blocks !! i = Some b1 → blocks !! S i = Some b2 →
               length b2 ≤ length b1.

(** ** A second structure with the same geometry, and the patterns searched
    in both *)

Definition emap_2xyz : emap :=
  mkEmap (mkGraph "2xyz" (node_list triangle) (edge_list triangle))
         (residues emap_1abc).

Definition pattern_two : SubgraphPattern :=
  __init__ smiles_of_labels path3 0
    [("1abc", emap_1abc); ("2xyz", emap_2xyz)] [] [].

Definition run_two : result unit * SubgraphPattern :=
  find_protein_subgraphs sum_of_weights host_monomorphisms
    occurrence_isomorphisms
    rms_same_or_one "structural" pattern_two.

(** The pooled, named subgraphs of [pattern_two] and the object after the
    first part of [find_protein_subgraphs]. *)
Definition pooled_two : list Occurrence :=
  match (pool_subgraphs sum_of_weights host_monomorphisms pattern_two).1 with
  | Ok all_graphs => all_graphs
  | Raise _ => []
  end.

Definition self_two : SubgraphPattern :=
  (pool_subgraphs sum_of_weights host_monomorphisms pattern_two).2.

(** The triangle as a pattern: its six monomorphic images in the triangle
    have one degree dictionary. *)
Definition cycle3 : PatternGraph :=
  mkGraph tt [("0", W); ("1", W); ("2", W)]
             [("0", "1", mkPatEdge 1); ("1", "2", mkPatEdge 1);
              ("0", "2", mkPatEdge 1)].

Definition pattern_cycle : SubgraphPattern :=
  __init__ smiles_of_labels cycle3 2 [("1abc", emap_1abc)] [] [].

(** The object of a third constructor call. *)
Definition object_cycle : PatternObject :=
  new_pattern smiles_of_labels 2 cycle3 2 [("1abc", emap_1abc)] [] [].

Definition pooled_cycle : list Occurrence :=
  match (pool_subgraphs sum_of_weights host_monomorphisms pattern_cycle).1 with
  | Ok all_graphs => all_graphs
  | Raise _ => []
  end.

Definition self_cycle : SubgraphPattern :=
  (pool_subgraphs sum_of_weights host_monomorphisms pattern_cycle).2.

(** The first two pooled subgraphs of [pattern_two], one in each structure,
    and the mapping that sends every residue to its namesake. *)
Definition empty_occurrence : Occurrence :=
  mkGraph (mkOccInfo None None) [] [].

Definition occ_1abc_1 : Occurrence := default empty_occurrence (pooled_two !! 0).
Definition occ_2xyz_2 : Occurrence := default empty_occurrence (pooled_two !! 1).

Definition namesakes : list (node * node) :=
  [("W10(A)", "W10(A)"); ("W20(A)", "W20(A)"); ("W30(A)", "W30(A)")].

(** The similarity graph that both metrics give for [pattern_two]. *)
Definition pairs_graph : IndexGraph :=
  mkIndexGraph [0; 1; 2; 3; 4; 5] [(0, 1); (2, 3); (4, 5)].

(** ** Renumbering a pattern: _update_id *)

Definition set_pattern_id (v : string) (s : SubgraphPattern) :=
  mkSubgraphPattern (G s) (support s) (total_support s) (protein_subgraphs s)
    (unsorted_graphs s) (groups s) (res_to_num_label s) (edge_thresholds s)
    (support_number s) v (_file_id s) (clustering_option s)
    (_structural_groups s) (_sequence_groups s).

Definition set_file_id (v : string) (s : SubgraphPattern) :=
  mkSubgraphPattern (G s) (support s) (total_support s) (protein_subgraphs s)
    (unsorted_graphs s) (groups s) (res_to_num_label s) (edge_thresholds s)
    (support_number s) (pattern_id s) v (clustering_option s)
    (_structural_groups s) (_sequence_groups s).

(** [s.index(c)] for a one-character [c]: the position of its first
    occurrence, [ValueError] when there is none. *)
Fixpoint str_index (c : ascii) (s : string) : result nat :=
  match s with
  | EmptyString => Raise ValueError
  | String c' s' =>
      if Ascii.eqb c' c then Ok 0 else i ← str_index c s'; mret (S i)
  end.

(** [s[i:]] for [i >= 0] *)
Fixpoint str_from (i : nat) (s : string) : string :=
  match i, s with
  | 0, _ => s
  | S i', String _ s' => str_from i' s'
  | S _, EmptyString => EmptyString
  end.

Definition _update_id (graph_number : Z) : M unit :=
  id ← read pattern_id;
  i ← lift (str_index "_"%char id);
  modify (set_pattern_id (pretty (graph_number + 1)%Z +:+ str_from i id));;
  id ← read pattern_id;
  if contains_char "#"%char id then modify (set_file_id (replace_hash id))
  else modify (set_file_id id).

(** ** Vocabulary for the statements on the search *)

(** The protein subgraphs that [_find_subgraph_in_pdb] returns for a
    structure: the value of its local [sgs] when the loop ends. *)
Definition found_in_pdb
    (subgraph_monomorphisms : HostGraph → PatternGraph → list (list (node * node)))
    (self : SubgraphPattern) (pdb_id : string) : result (list Occurrence) :=
  e ← getitem (OD.get (support self) pdb_id);
  r ← unique_subgraphs e (G self) (subgraph_monomorphisms (init_graph e) (G self));
  mret r.1.

(** The entries that the loop over the support writes to [total_support]. *)
Definition record_counts (ts : gmap string nat)
    (counts : list (string * nat)) : gmap string nat :=
  foldl (λ ts kc, <[kc.1 := kc.2]> ts) ts counts.

(** The pooled graphs with their identifiers: what the naming loop of
    [find_protein_subgraphs] leaves in [all_graphs], [i] being the index of
    the first graph. *)
Fixpoint name_graphs (i : nat) (gs : list Occurrence) : result (list Occurrence) :=
  match gs with
  | [] => Ok []
  | graph :: rest =>
      pdb_id ← getitem (oi_pdb_id (graph_attr graph));
      rest' ← name_graphs (S i) rest;
      mret (set_graph_id graph (pdb_id +:+ "_" +:+ pretty (i + 1)) :: rest')
  end.

(** The dictionary that receives named graphs one after the other, each
    under its identifier. *)
Definition index_by_id (ps : gmap string Occurrence) (gs : list Occurrence)
    : gmap string Occurrence :=
  foldl (λ ps g, match oi_id (graph_attr g) with
                 | Some id => <[id := g]> ps
                 | None => ps
                 end) ps gs.

(** The graph at position [idx] of the pooled list has the identifier
    [id]. *)
Definition has_id (all_graphs : list Occurrence) (idx : nat) (id : string) : Prop :=
  ∃ g, all_graphs !! idx = Some g ∧ oi_id (graph_attr g) = Some id.

(** Two identifiers are in one group of a grouping. *)
Definition same_group (grouping : gmap nat (list string)) (a b : string) : Prop :=
  ∃ k members, grouping !! k = Some members ∧ a ∈ members ∧ b ∈ members.

(** The attributes of a pattern that no search writes. *)
Definition same_pattern (s t : SubgraphPattern) : Prop :=
  G t = G s ∧ support t = support s ∧ unsorted_graphs t = unsorted_graphs s ∧
  res_to_num_label t = res_to_num_label s ∧
  edge_thresholds t = edge_thresholds s ∧
  support_number t = support_number s ∧ pattern_id t = pattern_id s ∧
  _file_id t = _file_id s.

(** A method that, whether it returns or raises, writes none of the
    attributes that describe the pattern, and leaves [total_support]
    alone. *)
Definition keeps_pattern {A} (m : M A) : Prop :=
  ∀ self r self', m self = (r, self') →
    same_pattern self self' ∧ total_support self' = total_support self.

(** ** More examples *)

(** A pattern whose identifier has lost its underscores. *)
Definition pattern_unnumbered : SubgraphPattern :=
  set_pattern_id "7" pattern_1abc.

(** [pattern_two] with what an earlier search in other structures could
    have left behind. *)
Definition pattern_two_stale : SubgraphPattern :=
  set_total_support {["9zzz" := 4]} (set_groups {[7 := ["9zzz_1"]]} pattern_two).

(** A pattern that no structure supports. *)
Definition pattern_unsupported : SubgraphPattern :=
  __init__ smiles_of_labels path3 0 [] [] [].

(** The protein subgraph of the mapping [in_order]. *)
Definition occ_in_order : Occurrence :=
  match _generate_protein_subgraph in_order triangle path3 emap_1abc with
  | Ok sg => sg
  | Raise _ => empty_occurrence
  end.

(** The identifiers of the pooled subgraphs of [pattern_two], and the
    fourth of these subgraphs. *)
Definition ids_two : list string :=
  match mapM graph_id pooled_two with
  | Ok ids => ids
  | Raise _ => []
  end.

Definition occ_2xyz_4 : Occurrence := default empty_occurrence (pooled_two !! 3).

(** The first group of [pattern_two] after the search. *)
Definition first_group_two : list string :=
  default [] (groups run_two.2 !! 1).
(** ** Properties of the graph operations *)

Section graph_facts.
Context {GA NA EA : Type}.
Implicit Types (g : Graph GA NA EA) (u v a b : node).

Lemma joins_spec u v a b :
  joins u v a b = true ↔ (a = u ∧ b = v) ∨ (a = v ∧ b = u).
Proof.
  unfold joins. rewrite orb_true_iff, !bool_decide_eq_true. tauto.
Qed.

Lemma joins_comm u v a b : joins u v a b = joins v u a b.
Proof. apply Bool.eq_iff_eq_true. rewrite !joins_spec. tauto. Qed.

Lemma has_edge_spec g u v :
  has_edge g u v = true ↔
  ∃ e, e ∈ edge_list g ∧ joins u v e.1.1 e.1.2 = true.
Proof.
  unfold has_edge. rewrite existsb_exists.
  split; intros (e & He & Hj); exists e; split; auto;
    by apply list_elem_of_In.
Qed.

Lemma has_edge_comm g u v : has_edge g u v = has_edge g v u.
Proof.
  apply Bool.eq_iff_eq_true. rewrite !has_edge_spec.
  split; intros (e & He & Hj); exists e; split; auto;
    by rewrite joins_comm.
Qed.

Lemma has_edge_add_edge g a b x u v :
  has_edge (add_edge g a b x) u v = has_edge g u v || joins u v a b.
Proof.
  apply Bool.eq_iff_eq_true.
  rewrite orb_true_iff. unfold add_edge.
  destruct (has_edge g a b) eqn:Hab.
  - rewrite !has_edge_spec. simpl. split.
    + intros (e & He & Hj). apply list_elem_of_fmap in He as (e0 & -> & He0).
      left. exists e0. split; [done|].
      by destruct (joins a b e0.1.1 e0.1.2).
    + intros [(e & He & Hj) | Hj].
      * exists (if joins a b e.1.1 e.1.2 then (e.1, x) else e). split.
        -- apply list_elem_of_fmap. by exists e.
        -- by destruct (joins a b e.1.1 e.1.2).
      * apply has_edge_spec in Hab as (e & He & Hab).
        exists (e.1, x). split.
        -- apply list_elem_of_fmap. exists e. by rewrite Hab.
        -- simpl. apply joins_spec in Hj, Hab. apply joins_spec.
           intuition congruence.
  - rewrite !has_edge_spec. simpl. split.
    + intros (e & He & Hj). apply elem_of_app in He as [He | He].
      * left. by exists e.
      * apply list_elem_of_singleton in He as ->. by right.
    + intros [(e & He & Hj) | Hj].
      * exists e. split; [|done]. apply elem_of_app. by left.
      * exists (a, b, x). split; [|done]. apply elem_of_app. right.
        by apply list_elem_of_singleton.
Qed.

Lemma node_list_add_edge g a b x :
  node_list (add_edge g a b x) = node_list g.
Proof. unfold add_edge. by destruct (has_edge g a b). Qed.

Lemma has_edge_foldl_add_edge (f : node → node) (es : list (node * node * EA)) g u v :
  has_edge (foldl (λ h e, add_edge h (f e.1.1) (f e.1.2) e.2) g es) u v
  = has_edge g u v || existsb (λ e, joins u v (f e.1.1) (f e.1.2)) es.
Proof.
  revert g. induction es as [|e es IH]; intros g; simpl.
  - by rewrite orb_false_r.
  - rewrite IH, has_edge_add_edge. by rewrite orb_assoc.
Qed.

Lemma node_list_foldl_add_edge (f : node → node) (es : list (node * node * EA)) g :
  node_list (foldl (λ h e, add_edge h (f e.1.1) (f e.1.2) e.2) g es)
  = node_list g.
Proof.
  revert g. induction es as [|e es IH]; intros g; simpl; [done|].
  by rewrite IH, node_list_add_edge.
Qed.
End graph_facts.

(** ** The exception monad *)

Lemma bind_Ok {A B} (m : result A) (f : A → result B) b :
  m ≫= f = Ok b ↔ ∃ a, m = Ok a ∧ f a = Ok b.
Proof.
  destruct m as [a|e]; simpl; split.
  - intros H. by exists a.
  - by intros (a' & [= <-] & H).
  - done.
  - by intros (a' & [=] & _).
Qed.

Lemma getitem_Ok {A} (o : option A) a : getitem o = Ok a ↔ o = Some a.
Proof. destruct o; simpl; split; congruence. Qed.

Ltac inv_ok :=
  repeat match goal with
  | H : _ ≫= _ = Ok _ |- _ =>
      let a := fresh "a" in
      let Ha := fresh "Ha" in
      apply bind_Ok in H as (a & Ha & H)
  | H : mret _ = Ok _ |- _ => injection H as H
  | H : Ok _ = Ok _ |- _ => injection H as H
  | H : Raise _ = Ok _ |- _ => discriminate H
  | H : getitem _ = Ok _ |- _ => apply getitem_Ok in H
  end.

(** ** Protein subgraphs have the edges of the pattern *)

Section generate_facts.
Implicit Types (sg : Occurrence) (u v : node).

Lemma edge_list_foldl_add_node {GA NA EA} (f : node → node)
    (ns : list (node * NA)) (g : Graph GA NA EA) :
  edge_list (foldl (λ h na, add_node h (f na.1) na.2) g ns) = edge_list g.
Proof. revert g. induction ns as [|n ns IH]; intros g; simpl; [done|]. by rewrite IH. Qed.

Lemma has_edge_relabel_nodes {GA NA EA} (g : Graph GA NA EA) mapping u v :
  has_edge (relabel_nodes g mapping) u v
  = existsb (λ e, joins u v (default e.1.1 (OD.get mapping e.1.1))
                            (default e.1.2 (OD.get mapping e.1.2)))
            (edge_list g).
Proof.
  unfold relabel_nodes.
  rewrite (has_edge_foldl_add_edge (λ n, default n (OD.get mapping n))).
  unfold has_edge at 1.
  by rewrite (edge_list_foldl_add_node (λ n, default n (OD.get mapping n))).
Qed.

Lemma has_edge_edge_loop (host : HostGraph) (es : list (node * node * PatEdge))
    sg0 sg u v :
  foldlM (λ (sg : Occurrence) e,
      a ← getitem (edge_attr host e.1.1 e.1.2);
      mret (add_edge sg e.1.1 e.1.2 a)) sg0 es = Ok sg →
  has_edge sg u v = has_edge sg0 u v || existsb (λ e, joins u v e.1.1 e.1.2) es.
Proof.
  revert sg0. induction es as [|e es IH]; intros sg0 H; simpl in H.
  - injection H as <-. simpl. by rewrite orb_false_r.
  - inv_ok. subst. rewrite (IH _ H), has_edge_add_edge. simpl.
    by rewrite orb_assoc.
Qed.

Lemma edge_attr_is_Some {GA NA EA} (g : Graph GA NA EA) u v :
  is_Some (edge_attr g u v) ↔ has_edge g u v = true.
Proof.
  unfold edge_attr. rewrite fmap_is_Some, has_edge_spec. split.
  - intros [[i e] H]. apply list_find_Some in H as (H & Hj & _).
    exists e. split; [by eapply list_elem_of_lookup_2|done].
  - intros (e & He & Hj).
    apply (list_find_elem_of (λ e, joins u v e.1.1 e.1.2 = true) _ e); done.
Qed.

Lemma host_edges_edge_loop (host : HostGraph) (es : list (node * node * PatEdge))
    sg0 sg :
  foldlM (λ (sg : Occurrence) e,
      a ← getitem (edge_attr host e.1.1 e.1.2);
      mret (add_edge sg e.1.1 e.1.2 a)) sg0 es = Ok sg →
  ∀ e, e ∈ es → has_edge host e.1.1 e.1.2 = true.
Proof.
  revert sg0. induction es as [|e es IH]; intros sg0 H e' He'; simpl in H.
  - by apply elem_of_nil in He'.
  - inv_ok. apply elem_of_cons in He' as [->|He'].
    + apply edge_attr_is_Some. by eexists.
    + by eapply IH.
Qed.

Lemma keys_set_fresh {V} (d : list (node * V)) k (x : V) :
  k ∉ d.*1 → (OD.set d k x).*1 = d.*1 ++ [k].
Proof.
  induction d as [|[k' v'] d IH]; simpl; intros Hk; [done|].
  apply not_elem_of_cons in Hk as [Hne Hk].
  destruct (decide (k' = k)); [congruence|]. simpl. f_equal. by apply IH.
Qed.

Lemma nodes_foldl_add_node {GA NA EA} (f : node → node)
    (ns : list (node * NA)) (g : Graph GA NA EA) :
  NoDup (nodes g ++ (f <$> ns.*1)) →
  nodes (foldl (λ h na, add_node h (f na.1) na.2) g ns)
  = nodes g ++ (f <$> ns.*1).
Proof.
  revert g. induction ns as [|n ns IH]; intros g Hnd; simpl.
  - by rewrite app_nil_r.
  - assert (Hn : nodes (add_node g (f n.1) n.2) = nodes g ++ [f n.1]).
    { unfold nodes, add_node. simpl. apply keys_set_fresh.
      apply NoDup_app in Hnd as (_ & Hd & _). intros Hin.
      apply (Hd _ Hin). by left. }
    rewrite IH; rewrite Hn, <- app_assoc; done.
Qed.

Lemma nodes_relabel_nodes {GA NA EA} (g : Graph GA NA EA) mapping :
  NoDup ((λ n, default n (OD.get mapping n)) <$> nodes g) →
  nodes (relabel_nodes g mapping)
  = (λ n, default n (OD.get mapping n)) <$> nodes g.
Proof.
  intros Hnd. unfold relabel_nodes, nodes at 1.
  rewrite (node_list_foldl_add_edge (λ n, default n (OD.get mapping n))).
  exact (nodes_foldl_add_node (λ n, default n (OD.get mapping n))
           (node_list g) (mkGraph (graph_attr g) [] []) Hnd).
Qed.

Lemma insert_by_Permutation {A} (before : A → A → bool) x l :
  insert_by before x l ≡ₚ x :: l.
Proof.
  induction l as [|y l IH]; simpl; [done|].
  destruct (before y x); [|done]. rewrite IH. apply Permutation_swap.
Qed.

Lemma stable_sort_Permutation {A} (before : A → A → bool) l :
  stable_sort before l ≡ₚ l.
Proof.
  induction l as [|x l IH]; simpl; [done|].
  by rewrite insert_by_Permutation, IH.
Qed.

Lemma mapM_Ok_keys (e : emap) (ns : list node) keyed :
  mapM (λ n, r ← getitem (residues e !! n); mret (res_seq r, n)) ns = Ok keyed →
  keyed.*2 = ns.
Proof.
  revert keyed. induction ns as [|n ns IH]; intros keyed H; simpl in H.
  - by injection H as <-.
  - inv_ok. subst. simpl. f_equal. by apply IH.
Qed.

Lemma node_loop_spec (host : HostGraph) (e : emap) order sg0 sg :
  foldlM (λ (sg : Occurrence) n,
      h ← getitem (node_attr host n);
      r ← getitem (residues e !! n);
      let a := {| on_shape := hn_shape h;
                  on_label := n;
                  on_num_label := hn_num_label h;
                  on_aligned_resnum := aligned_residue_number r;
                  on_resnum := res_seq r |} in
      let sg := add_node sg n a in
      mret (mkGraph (mkOccInfo (Some (graph_attr host))
                               (oi_id (graph_attr sg)))
                    (node_list sg) (edge_list sg))) sg0 order = Ok sg →
  edge_list sg = edge_list sg0 ∧
  (NoDup (nodes sg0 ++ order) → nodes sg = nodes sg0 ++ order).
Proof.
  revert sg0. induction order as [|n order IH]; intros sg0 H; simpl in H.
  - injection H as <-. by rewrite app_nil_r.
  - inv_ok. subst. apply IH in H as [He Hn]. simpl in He. split; [done|].
    intros Hnd. unfold nodes in *. simpl in Hn.
    rewrite keys_set_fresh in Hn.
    + rewrite <- app_assoc in Hn. by apply Hn.
    + apply NoDup_app in Hnd as (_ & Hd & _). intros Hin.
      apply (Hd _ Hin). by left.
Qed.

Lemma keys_set_subset {V} (d : list (node * V)) k (x : V) u :
  u ∈ (OD.set d k x).*1 → u ∈ d.*1 ∨ u = k.
Proof.
  induction d as [|[k' x'] d IH]; simpl.
  - intros ->%list_elem_of_singleton. by right.
  - destruct (decide (k' = k)) as [->|Hne]; simpl.
    + intros [->|Hu]%elem_of_cons; [by right|left; by right].
    + intros [->|Hu]%elem_of_cons; [left; by left|].
      destruct (IH Hu) as [?|?]; [left; by right|by right].
Qed.

Lemma node_loop_residues (host : HostGraph) (e : emap) order sg0 sg :
  foldlM (λ (sg : Occurrence) n,
      h ← getitem (node_attr host n);
      r ← getitem (residues e !! n);
      let a := {| on_shape := hn_shape h;
                  on_label := n;
                  on_num_label := hn_num_label h;
                  on_aligned_resnum := aligned_residue_number r;
                  on_resnum := res_seq r |} in
      let sg := add_node sg n a in
      mret (mkGraph (mkOccInfo (Some (graph_attr host))
                               (oi_id (graph_attr sg)))
                    (node_list sg) (edge_list sg))) sg0 order = Ok sg →
  (∀ u, u ∈ nodes sg →
     u ∈ nodes sg0 ∨ (is_Some (residues e !! u) ∧ is_Some (node_attr host u))) ∧
  (order ≠ [] → oi_pdb_id (graph_attr sg) = Some (graph_attr host)) ∧
  (order = [] → sg = sg0).
Proof.
  revert sg0. induction order as [|n order IH]; intros sg0 H; simpl in H.
  - injection H as <-. split_and!; [by left|done|done].
  - inv_ok. subst. apply IH in H as (Hn & Hp & He). split_and!; [|..|done].
    + intros u Hu. destruct (Hn u Hu) as [Hu'|?]; [|by right].
      unfold nodes in Hu'. simpl in Hu'.
      apply keys_set_subset in Hu' as [?| ->]; [by left|right].
      split; by eexists.
    + intros _. destruct order as [|n' order]; [|by apply Hp].
      by rewrite (He eq_refl).
Qed.

(** Every node of a protein subgraph is a residue of the structure and a
    node of its graph, and a subgraph with a node carries the [pdb_id] of
    the structure. *)
Lemma generate_protein_subgraph_nodes mapping (host : HostGraph)
    (pattern : PatternGraph) (e : emap) (sg : Occurrence) :
  _generate_protein_subgraph mapping host pattern e = Ok sg →
  (∀ u, u ∈ nodes sg →
     is_Some (residues e !! u) ∧ is_Some (node_attr host u)) ∧
  (nodes sg ≠ [] → oi_pdb_id (graph_attr sg) = Some (graph_attr host)).
Proof.
  intros H. unfold _generate_protein_subgraph in H.
  apply bind_Ok in H as (keyed & Hkeyed & H).
  apply bind_Ok in H as (sg0 & Hnodes & Hedges).
  assert (Hsame : node_list sg = node_list sg0 ∧ graph_attr sg = graph_attr sg0).
  { clear -Hedges. revert sg0 Hedges.
    induction (edge_list (relabel_nodes pattern
      (OD.of_pairs (map (λ kv : node * node, (kv.2, kv.1)) mapping))))
      as [|ed es IH]; intros sg0 H; simpl in H.
    - by injection H as <-.
    - inv_ok. subst. destruct (IH _ H) as [-> ->].
      split; [apply node_list_add_edge|].
      unfold add_edge. by destruct (has_edge sg0 ed.1.1 ed.1.2). }
  destruct Hsame as [Hn Hg].
  apply node_loop_residues in Hnodes as (Hres & Hpdb & Hempty). split.
  - intros u Hu. unfold nodes in Hu. rewrite Hn in Hu.
    destruct (Hres u Hu) as [[]%elem_of_nil|?]; done.
  - intros Hne. rewrite Hg. apply Hpdb. intros Ho. apply Hne.
    unfold nodes. by rewrite Hn, (Hempty Ho).
Qed.

End generate_facts.

(** C9. A protein subgraph built by [_generate_protein_subgraph] has an edge
    between two nodes exactly when they are the images of the endpoints of
    an edge of the pattern, and each of its edges is an edge of the host.
    When the relabelling is injective on the nodes of a well-formed pattern,
    the nodes of the subgraph are the images of the pattern's nodes and the
    relabelling preserves and reflects edges: an edge that the host has
    between two mapped nodes but the pattern lacks is not in the subgraph. *)
Theorem generate_protein_subgraph_edges mapping (host : HostGraph)
    (pattern : PatternGraph) (e : emap) (sg : Occurrence) :
  _generate_protein_subgraph mapping host pattern e = Ok sg →
  (∀ u v, has_edge sg u v = true ↔
     ∃ a b, has_edge pattern a b = true ∧
            image_of mapping a = u ∧ image_of mapping b = v) ∧
  (∀ u v, has_edge sg u v = true → has_edge host u v = true) ∧
  (NoDup (nodes pattern) →
   (∀ ed, ed ∈ edge_list pattern →
      ed.1.1 ∈ nodes pattern ∧ ed.1.2 ∈ nodes pattern) →
   (∀ a b, a ∈ nodes pattern → b ∈ nodes pattern →
      image_of mapping a = image_of mapping b → a = b) →
   nodes sg ≡ₚ image_of mapping <$> nodes pattern ∧
   ∀ a b, a ∈ nodes pattern → b ∈ nodes pattern →
     has_edge sg (image_of mapping a) (image_of mapping b)
     = has_edge pattern a b).
Proof.
  intros H. unfold _generate_protein_subgraph in H.
  apply bind_Ok in H as (keyed & Hkeyed & H).
  apply bind_Ok in H as (sg0 & Hnodes & Hedges).
  apply node_loop_spec in Hnodes as [He0 Hn0]. simpl in He0, Hn0.
  set (inv := OD.of_pairs (map (λ kv : node * node, (kv.2, kv.1)) mapping)) in *.
  assert (Hchar : ∀ u v, has_edge sg u v = true ↔
     ∃ a b, has_edge pattern a b = true ∧
            image_of mapping a = u ∧ image_of mapping b = v).
  { intros u v. rewrite (has_edge_edge_loop _ _ _ _ u v Hedges).
    unfold has_edge at 1. rewrite He0. simpl.
    change (existsb _ (edge_list (relabel_nodes pattern inv)))
      with (has_edge (relabel_nodes pattern inv) u v).
    rewrite has_edge_relabel_nodes, existsb_exists. split.
    - intros (ed & Hin & Hj). apply list_elem_of_In in Hin.
      apply joins_spec in Hj as [[<- <-]|[<- <-]].
      + exists ed.1.1, ed.1.2. split; [|done].
        apply has_edge_spec. exists ed. split; [done|].
        apply joins_spec. by left.
      + exists ed.1.2, ed.1.1. split; [|done].
        apply has_edge_spec. exists ed. split; [done|].
        apply joins_spec. by right.
    - intros (a & b & Hab & <- & <-).
      apply has_edge_spec in Hab as (ed & Hin & Hj).
      exists ed. split; [by apply list_elem_of_In|].
      apply joins_spec in Hj as [[-> ->]|[-> ->]]; apply joins_spec; auto. }
  split; [done|]. split.
  - intros u v Huv. rewrite (has_edge_edge_loop _ _ _ _ u v Hedges) in Huv.
    unfold has_edge at 1 in Huv. rewrite He0 in Huv. simpl in Huv.
    apply existsb_exists in Huv as (ed & Hin & Hj).
    apply list_elem_of_In in Hin.
    pose proof (host_edges_edge_loop _ _ _ _ Hedges ed Hin) as Hh.
    apply joins_spec in Hj as [[<- <-]|[<- <-]]; [done|].
    by rewrite has_edge_comm.
  - intros Hnd Hwf Hinj.
    assert (Himg : NoDup (image_of mapping <$> nodes pattern)).
    { apply NoDup_fmap_2_strong; [|done]. intros a b Ha Hb. by apply Hinj. }
    split.
    + assert (Hno : node_list sg = node_list sg0).
      { clear -Hedges. revert sg0 Hedges.
        induction (edge_list (relabel_nodes pattern inv)) as [|ed es IH];
          intros sg0 H; simpl in H.
        - by injection H as <-.
        - inv_ok. subst. rewrite (IH _ H). apply node_list_add_edge. }
      unfold nodes at 1. rewrite Hno. fold (nodes sg0).
      assert (Hord : (stable_sort (λ x y : Z * node, (x.1 <? y.1)%Z) keyed).*2
                     ≡ₚ image_of mapping <$> nodes pattern).
      { rewrite stable_sort_Permutation, (mapM_Ok_keys _ _ _ Hkeyed).
        by rewrite nodes_relabel_nodes. }
      rewrite Hn0; [done|]. by rewrite Hord.
    + intros a b Ha Hb. apply Bool.eq_iff_eq_true. rewrite Hchar. split.
      * intros (a' & b' & Hab & Ha' & Hb').
        assert (a' ∈ nodes pattern ∧ b' ∈ nodes pattern) as [Hia Hib].
        { apply has_edge_spec in Hab as (ed & Hin & Hj).
          destruct (Hwf ed Hin) as [H1 H2].
          apply joins_spec in Hj as [[<- <-]|[<- <-]]; done. }
        apply Hinj in Ha', Hb'; try done. by subst.
      * intros Hab. by exists a, b.
Qed.

(** ** Occurrence identifiers *)

Lemma contains_char_app c s1 s2 :
  contains_char c (s1 +:+ String c s2) = true.
Proof.
  induction s1 as [|c' s1 IH]; simpl.
  - by rewrite Ascii.eqb_refl.
  - by rewrite IH, orb_true_r.
Qed.

(** A string splits in one way only at its last occurrence of [c]. *)
Lemma append_sep_inj c a b d1 d2 :
  contains_char c d1 = false → contains_char c d2 = false →
  a +:+ String c d1 = b +:+ String c d2 → a = b ∧ d1 = d2.
Proof.
  intros H1 H2. revert b. induction a as [|x a IH]; intros [|y b] H;
    simpl in H.
  - by injection H as ->.
  - injection H as -> ->. by rewrite contains_char_app in H1.
  - injection H as -> <-. by rewrite contains_char_app in H2.
  - injection H as -> H. destruct (IH _ H) as [-> ->]. done.
Qed.

Lemma pretty_N_char_not_underscore d :
  Ascii.eqb "_" (pretty_N_char d) = false.
Proof. unfold pretty_N_char. by repeat case_match. Qed.

Lemma pretty_N_go_no_underscore x s :
  contains_char "_" s = false → contains_char "_" (pretty_N_go x s) = false.
Proof.
  revert s. induction (N.lt_wf_0 x) as [x _ IH]; intros s Hs.
  destruct (decide (x = 0)%N) as [->|Hx]; [by rewrite pretty_N_go_0|].
  rewrite pretty_N_go_step by lia. apply IH.
  - apply N.div_lt; lia.
  - cbn [contains_char]. by rewrite pretty_N_char_not_underscore.
Qed.

Lemma pretty_nat_no_underscore (n : nat) :
  contains_char "_" (pretty n) = false.
Proof.
  unfold pretty, pretty_nat, pretty, pretty_N.
  case_decide; [done|]. by apply pretty_N_go_no_underscore.
Qed.

(** Two occurrence ids are equal only if both parts are. *)
Lemma occurrence_id_inj (pdb1 pdb2 : string) (n1 n2 : nat) :
  pdb1 +:+ "_" +:+ pretty n1 = pdb2 +:+ "_" +:+ pretty n2 →
  pdb1 = pdb2 ∧ n1 = n2.
Proof.
  intros H. simpl in H.
  apply append_sep_inj in H as [-> H]; try apply pretty_nat_no_underscore.
  split; [done|]. by apply (inj pretty).
Qed.

(** ** Residues and their atoms *)

Lemma OD_get_is_Some {V} (d : list (string * V)) k :
  is_Some (OD.get d k) ↔ k ∈ d.*1.
Proof.
  induction d as [|[k' x] d IH]; simpl.
  - split; [by intros [? [=]]|by intros ?%elem_of_nil].
  - destruct (decide (k' = k)) as [->|Hne].
    + split; [intros _; by left|by eexists].
    + rewrite IH. split; [by right|].
      by intros [?|?]%elem_of_cons.
Qed.

Lemma atom_coord_Ok (res : Residue) name :
  has_atom res name = true → ∃ c, atom_coord res name = Ok c.
Proof.
  unfold has_atom, OD.mem, OD.keys, atom_coord.
  intros H%bool_decide_eq_true. apply OD_get_is_Some in H as [c Hc].
  exists c. by rewrite Hc.
Qed.

Lemma first_shared_atom_None res1 res2 :
  first_shared_atom res1 res2 = None ↔ ¬ share_atom res1 res2.
Proof.
  unfold first_shared_atom, share_atom. rewrite fmap_None, list_find_None.
  rewrite Forall_forall. split.
  - intros H (name & H1 & H2). apply (H name); [|done].
    by apply bool_decide_eq_true in H1.
  - intros H name Hin H2. apply H. exists name. split; [|done].
    by apply bool_decide_eq_true.
Qed.

Lemma first_shared_atom_Some res1 res2 name :
  first_shared_atom res1 res2 = Some name →
  has_atom res1 name = true ∧ first_common_atom res1 res2 name.
Proof.
  unfold first_shared_atom. intros H.
  apply fmap_Some in H as ([i x] & H & ->). simpl.
  apply list_find_Some in H as (Hi & Hx & Hmin). split.
  - apply bool_decide_eq_true. by eapply list_elem_of_lookup_2.
  - exists i. split_and!; [done..|].
    intros j other Hj Hlt. specialize (Hmin j other Hj Hlt).
    by destruct (has_atom res2 other).
Qed.

(** ** The order of strings *)

Lemma string_ltb_irrefl s : String.ltb s s = false.
Proof.
  unfold String.ltb.
  pose proof (proj2 (String_as_OT.cmp_eq s s) eq_refl) as H.
  unfold String_as_OT.cmp in H. by rewrite H.
Qed.

Lemma string_ltb_trans s1 s2 s3 :
  String.ltb s1 s2 = true → String.ltb s2 s3 = true → String.ltb s1 s3 = true.
Proof.
  unfold String.ltb. intros H1 H2.
  destruct (String.compare s1 s2) eqn:E1; try done.
  destruct (String.compare s2 s3) eqn:E2; try done.
  apply String_as_OT.cmp_lt in E1, E2.
  pose proof (String_as_OT.lt_trans _ _ _ E1 E2) as E3.
  apply String_as_OT.cmp_lt in E3. unfold String_as_OT.cmp in E3.
  by rewrite E3.
Qed.

Lemma string_ltb_asym s1 s2 :
  String.ltb s1 s2 = true → String.ltb s2 s1 = false.
Proof.
  unfold String.ltb. rewrite (String.compare_antisym s2 s1).
  by destruct (String.compare s1 s2).
Qed.

Lemma string_ltb_total s1 s2 :
  s1 ≠ s2 → String.ltb s1 s2 = true ∨ String.ltb s2 s1 = true.
Proof.
  intros Hne. unfold String.ltb. rewrite (String.compare_antisym s2 s1).
  destruct (String.compare s1 s2) eqn:E; simpl; auto.
  by apply String.compare_eq_iff in E.
Qed.

(** ** Minima *)

Lemma foldl_Z_min_spec (l : list Z) (x : Z) :
  is_minimum Z.le (foldl Z.min x l) (x :: l).
Proof.
  revert x. induction l as [|y l IH]; intros x; simpl.
  - split; [by left|]. intros z ->%list_elem_of_singleton. done.
  - destruct (IH (Z.min x y)) as [Hin Hle]. split.
    + apply elem_of_cons in Hin as [->|Hin]; [|by do 2 right].
      destruct (Z.min_spec x y) as [[_ ->]|[_ ->]]; [by left|right; by left].
    + intros z Hz.
      assert (foldl Z.min (Z.min x y) l ≤ Z.min x y)%Z as Hm
        by (apply Hle; by left).
      apply elem_of_cons in Hz as [->|[->|Hz]%elem_of_cons]; [lia|lia|].
      apply Hle. by right.
Qed.

Lemma np_min_int_Ok (l : list Z) d :
  np_min_int l = Ok d → is_minimum Z.le d l.
Proof.
  destruct l as [|x l]; [done|]. intros [= <-]. apply foldl_Z_min_spec.
Qed.

Lemma float_le_refl x : float_le x x.
Proof. destruct x; simpl; [apply Qle_refl|done]. Qed.

Lemma float_le_trans x y z : float_le x y → float_le y z → float_le x z.
Proof.
  destruct x, y, z; simpl; try done. apply Qle_trans.
Qed.

Lemma float_min_cases x y :
  (float_min x y = x ∧ float_le x y) ∨ (float_min x y = y ∧ float_le y x).
Proof.
  destruct x as [p|], y as [q|]; simpl; auto.
  destruct (Qle_bool p q) eqn:E.
  - left. split; [done|]. by apply Qle_bool_iff.
  - right. split; [done|]. apply Qlt_le_weak, Qnot_le_lt.
    intros H%Qle_bool_iff. congruence.
Qed.

Lemma foldl_float_min_spec (l : list float) (x : float) :
  is_minimum float_le (foldl float_min x l) (x :: l).
Proof.
  revert x. induction l as [|y l IH]; intros x; simpl.
  - split; [by left|]. intros z ->%list_elem_of_singleton.
    apply float_le_refl.
  - destruct (IH (float_min x y)) as [Hin Hle]. split.
    + apply elem_of_cons in Hin as [->|Hin]; [|by do 2 right].
      destruct (float_min_cases x y) as [[-> _]|[-> _]];
        [by left|right; by left].
    + intros z Hz.
      assert (float_le (foldl float_min (float_min x y) l) (float_min x y))
        as Hm by (apply Hle; by left).
      apply elem_of_cons in Hz as [->|[->|Hz]%elem_of_cons].
      * eapply float_le_trans; [done|].
        destruct (float_min_cases x y) as [[-> _]|[-> ?]];
          [apply float_le_refl|done].
      * eapply float_le_trans; [done|].
        destruct (float_min_cases x y) as [[-> ?]|[-> _]];
          [done|apply float_le_refl].
      * apply Hle. by right.
Qed.

Lemma np_min_float_Ok (l : list float) r :
  np_min_float l = Ok r → is_minimum float_le r l.
Proof.
  destruct l as [|x l]; [done|]. intros [= <-]. apply foldl_float_min_spec.
Qed.

Lemma float_le_finite_spec x q :
  float_le_finite x q = true ↔ float_le x (Finite q).
Proof. destruct x; simpl; [apply Qle_bool_iff|done]. Qed.

(** ** The pairs of the double loop *)

Lemma index_pairs_spec n i j : (i, j) ∈ index_pairs n ↔ i < j < n.
Proof.
  unfold index_pairs. rewrite list_elem_of_In, in_flat_map. split.
  - intros (i' & Hi' & Hj). apply in_map_iff in Hj as (j' & [= <- <-] & Hj).
    apply in_seq in Hi', Hj. lia.
  - intros [Hij Hj]. exists i. split; [apply in_seq; lia|].
    apply in_map_iff. exists j. split; [done|]. apply in_seq. lia.
Qed.

Lemma getindex_Ok {A} (l : list A) i a : getindex l i = Ok a ↔ l !! i = Some a.
Proof. unfold getindex. destruct (l !! i); split; congruence. Qed.

(** ** Connected components *)

Lemma adjacent_sym g u v : adjacent g u v → adjacent g v u.
Proof. unfold adjacent, ig_has_edge. by rewrite orb_comm. Qed.

Lemma connected_sym g u v : connected g u v → connected g v u.
Proof.
  induction 1 as [|x y z Hxy _ IH]; [done|].
  eapply rtc_r; [done|]. by apply adjacent_sym.
Qed.

Lemma elem_of_ig_neighbors g v w :
  w ∈ ig_neighbors g v ↔ adjacent g v w.
Proof.
  unfold ig_neighbors, adjacent, ig_has_edge.
  rewrite orb_true_iff, !bool_decide_eq_true, list_elem_of_In, in_flat_map.
  split.
  - intros ([a b] & Hin%list_elem_of_In & Hw). simpl in Hw.
    destruct (decide (a = v)) as [->|Hne].
    + apply list_elem_of_In, list_elem_of_singleton in Hw as ->. by left.
    + destruct (decide (b = v)) as [->|Hne']; [|by destruct Hw].
      apply list_elem_of_In, list_elem_of_singleton in Hw as ->. by right.
  - intros [Hin|Hin].
    + exists (v, w). split; [by apply list_elem_of_In|]. simpl.
      rewrite decide_True by done. by left.
    + exists (w, v). split; [by apply list_elem_of_In|]. simpl.
      destruct (decide (w = v)) as [->|Hne]; [by left|].
      rewrite decide_True by done. by left.
Qed.

(** Marking the unseen elements of [ws]. *)
Lemma mark_unseen_spec (ws : list nat) (st : list nat * list nat) :
  let st' := foldl (λ (st : list nat * list nat) w,
               if bool_decide (w ∈ st.1) then st
               else (st.1 ++ [w], st.2 ++ [w])) st ws in
  ∃ new, st'.1 = st.1 ++ new ∧ st'.2 = st.2 ++ new ∧
    (∀ w, w ∈ new → w ∈ ws) ∧
    (∀ w, w ∈ ws → w ∈ st'.1) ∧
    (NoDup st.1 → NoDup st'.1).
Proof.
  revert st. induction ws as [|w ws IH]; intros st; simpl.
  - exists []. rewrite !app_nil_r. split_and!; try done.
    by intros ? ?%elem_of_nil.
  - case_bool_decide as Hw.
    + destruct (IH st) as (new & H1 & H2 & H3 & H4 & H5).
      exists new. split_and!; try done.
      * intros x Hx. right. by apply H3.
      * intros x [->|Hx]%elem_of_cons; [|by apply H4].
        rewrite H1. apply elem_of_app. by left.
    + destruct (IH (st.1 ++ [w], st.2 ++ [w])) as (new & H1 & H2 & H3 & H4 & H5).
      simpl in *. exists (w :: new). rewrite <- app_assoc in H1, H2.
      split_and!; try done.
      * intros x [->|Hx]%elem_of_cons; [by left|right; by apply H3].
      * intros x [->|Hx]%elem_of_cons; [|by apply H4].
        rewrite H1. apply elem_of_app. right. by left.
      * intros Hnd. apply H5. apply NoDup_app. split_and!; [done| |].
        -- by intros x Hx ->%list_elem_of_singleton.
        -- apply NoDup_singleton.
Qed.

Lemma bfs_level_spec g (level : list nat) (st : list nat * list nat) :
  let st' := foldl (bfs_visit g) st level in
  ∃ new, st'.1 = st.1 ++ new ∧ st'.2 = st.2 ++ new ∧
    (∀ w, w ∈ new → ∃ v, v ∈ level ∧ adjacent g v w) ∧
    (∀ v w, v ∈ level → adjacent g v w → w ∈ st'.1) ∧
    (NoDup st.1 → NoDup st'.1).
Proof.
  revert st. induction level as [|v level IH]; intros st; simpl.
  - exists []. rewrite !app_nil_r. split_and!; try done.
    + by intros ? ?%elem_of_nil.
    + by intros ? ? ?%elem_of_nil.
  - destruct (mark_unseen_spec (ig_neighbors g v) st)
      as (new1 & H1 & H2 & H3 & H4 & H5).
    fold (bfs_visit g st v) in H1, H2, H4, H5.
    destruct (IH (bfs_visit g st v)) as (new2 & K1 & K2 & K3 & K4 & K5).
    exists (new1 ++ new2). rewrite K1, K2, H1, H2, <- !app_assoc.
    split_and!; try done.
    + intros w [Hw|Hw]%elem_of_app.
      * exists v. split; [by left|]. by apply elem_of_ig_neighbors, H3.
      * destruct (K3 w Hw) as (v' & ? & ?). exists v'. split; [by right|done].
    + intros v' w [->|Hv']%elem_of_cons Hadj.
      * apply elem_of_ig_neighbors, H4 in Hadj. rewrite H1 in Hadj.
        rewrite app_assoc. apply elem_of_app. by left.
      * specialize (K4 v' w Hv' Hadj). by rewrite K1, H1, <- app_assoc in K4.
    + intros Hnd. specialize (K5 (H5 Hnd)).
      by rewrite K1, H1, <- app_assoc in K5.
Qed.

Lemma bfs_levels_spec g s fuel (seen level : list nat) :
  edges_in_nodes g →
  NoDup seen →
  (∀ u, u ∈ level → u ∈ seen) →
  (∀ u, u ∈ seen → u ∈ ig_nodes g) →
  (∀ u, u ∈ seen → connected g s u) →
  (∀ u w, u ∈ seen → u ∉ level → adjacent g u w → w ∈ seen) →
  s ∈ seen →
  (level = [] ∨ length (ig_nodes g) < length seen + fuel) →
  let r := bfs_levels fuel g seen level in
  NoDup r ∧ s ∈ r ∧
  (∀ u, u ∈ r → connected g s u) ∧
  (∀ u w, u ∈ r → adjacent g u w → w ∈ r) ∧
  (∀ u, u ∈ r → u ∈ ig_nodes g).
Proof.
  intros Hwf. revert seen level.
  assert (Hdone : ∀ seen level : list nat,
    NoDup seen → (∀ u, u ∈ seen → u ∈ ig_nodes g) →
    (∀ u, u ∈ seen → connected g s u) →
    (∀ u w, u ∈ seen → u ∉ level → adjacent g u w → w ∈ seen) →
    s ∈ seen →
    (level = [] ∨ length (ig_nodes g) < length seen + 0) →
    NoDup seen ∧ s ∈ seen ∧
    (∀ u, u ∈ seen → connected g s u) ∧
    (∀ u w, u ∈ seen → adjacent g u w → w ∈ seen) ∧
    (∀ u, u ∈ seen → u ∈ ig_nodes g)).
  { intros seen level Hnd Hsub Hconn Hclosed Hs [->|Hfuel].
    - split_and!; try done. intros u w Hu. apply Hclosed; [done|].
      by intros ?%elem_of_nil.
    - pose proof (submseteq_length _ _ (NoDup_submseteq _ _ Hnd Hsub)). lia. }
  induction fuel as [|fuel IH];
    intros seen level Hnd Hlevel Hsub Hconn Hclosed Hs Hfuel; simpl.
  - by eapply Hdone.
  - destruct level as [|v level'] eqn:Elevel.
    { eapply Hdone; try done. by left. }
    rewrite <- Elevel in *.
    destruct (bfs_level_spec g level (seen, []))
      as (new & H1 & H2 & H3 & H4 & H5). simpl in *.
    assert (Hgoal : let st := foldl (bfs_visit g) (seen, []) level in
                    let r := bfs_levels fuel g st.1 st.2 in
      NoDup r ∧ s ∈ r ∧ (∀ u, u ∈ r → connected g s u) ∧
      (∀ u w, u ∈ r → adjacent g u w → w ∈ r) ∧
      (∀ u, u ∈ r → u ∈ ig_nodes g)).
    { simpl. apply IH.
      - by apply H5.
      - intros u Hu. rewrite H1, H2 in *. apply elem_of_app. by right.
      - intros u Hu. rewrite H1 in Hu. apply elem_of_app in Hu as [Hu|Hu];
          [by apply Hsub|].
        destruct (H3 u Hu) as (v' & Hv' & Hadj).
        unfold adjacent, ig_has_edge in Hadj.
        apply orb_true_iff in Hadj as [Hadj|Hadj];
          apply bool_decide_eq_true in Hadj; by apply Hwf in Hadj as [? ?].
      - intros u Hu. rewrite H1 in Hu. apply elem_of_app in Hu as [Hu|Hu];
          [by apply Hconn|].
        destruct (H3 u Hu) as (v' & Hv' & Hadj).
        eapply rtc_r; [|done]. by apply Hconn, Hlevel.
      - intros u w Hu Hnot Hadj. rewrite H1 in Hu.
        apply elem_of_app in Hu as [Hu|Hu].
        + destruct (decide (u ∈ level)) as [Hin|Hnin].
          * by eapply H4.
          * rewrite H1. apply elem_of_app. left. by eapply Hclosed.
        + rewrite H2 in Hnot. by destruct Hnot.
      - rewrite H1. apply elem_of_app. by left.
      - rewrite H2, H1. destruct new as [|x new']; [by left|right].
        rewrite length_app. simpl. destruct Hfuel as [Hfuel|Hfuel]; [|lia].
        by rewrite Elevel in Hfuel. }
    exact Hgoal.
Qed.

Lemma plain_bfs_spec g s :
  edges_in_nodes g → s ∈ ig_nodes g →
  NoDup (_plain_bfs g s) ∧
  (∀ u, u ∈ _plain_bfs g s ↔ connected g s u) ∧
  (∀ u, u ∈ _plain_bfs g s → u ∈ ig_nodes g).
Proof.
  intros Hwf Hs. unfold _plain_bfs.
  destruct (bfs_levels_spec g s (S (length (ig_nodes g))) [s] [s])
    as (H1 & H2 & H3 & H4 & H5); try done.
  - apply NoDup_singleton.
  - by intros u ->%list_elem_of_singleton.
  - by intros u ->%list_elem_of_singleton.
  - by left.
  - right. simpl. lia.
  - split_and!; try done. intros u. split; [by apply H3|].
    unfold connected. revert u. apply rtc_ind_r; [done|].
    intros y z _ Hyz Hy. by eapply H4.
Qed.

Lemma closed_connected g (seen : list nat) u w :
  (∀ u w, u ∈ seen → adjacent g u w → w ∈ seen) →
  u ∈ seen → connected g u w → w ∈ seen.
Proof.
  intros Hclosed Hu. unfold connected. revert w. apply rtc_ind_r; [done|].
  intros y z _ Hyz Hy. by eapply Hclosed.
Qed.

Lemma cc_step_seen g (seen : list nat) ccs v :
  v ∈ seen → cc_step g (seen, ccs) v = (seen, ccs).
Proof. intros Hv. unfold cc_step. simpl. by rewrite bool_decide_eq_true_2. Qed.

Lemma cc_step_new g (seen : list nat) ccs v :
  v ∉ seen →
  cc_step g (seen, ccs) v = (seen ++ _plain_bfs g v, ccs ++ [_plain_bfs g v]).
Proof. intros Hv. unfold cc_step. simpl. by rewrite bool_decide_eq_false_2. Qed.

Lemma cc_scan_mono g (vs : list nat) (st : list nat * list (list nat)) x :
  x ∈ st.1 → x ∈ (foldl (cc_step g) st vs).1.
Proof.
  revert st. induction vs as [|y vs IH]; intros [seen ccs] Hx; simpl; [done|].
  apply IH. simpl in Hx. destruct (decide (y ∈ seen)) as [Hy|Hy].
  - by rewrite cc_step_seen.
  - rewrite cc_step_new by done. simpl. apply elem_of_app. by left.
Qed.

Lemma cc_scan_spec g (vs seen : list nat) (ccs : list (list nat)) :
  edges_in_nodes g →
  (∀ v, v ∈ vs → v ∈ ig_nodes g) →
  seen = concat ccs → NoDup seen →
  (∀ u, u ∈ seen → u ∈ ig_nodes g) →
  (∀ u w, u ∈ seen → adjacent g u w → w ∈ seen) →
  let st' := foldl (cc_step g) (seen, ccs) vs in
  st'.1 = concat st'.2 ∧ NoDup st'.1 ∧
  (∀ u, u ∈ st'.1 → u ∈ ig_nodes g) ∧
  (∀ v, v ∈ vs → v ∈ st'.1).
Proof.
  intros Hwf. revert seen ccs.
  induction vs as [|v vs IH]; intros seen ccs Hvs Hcat Hnd Hsub Hclosed; simpl.
  - split_and!; try done. by intros ? ?%elem_of_nil.
  - assert (Hvs' : ∀ v, v ∈ vs → v ∈ ig_nodes g)
      by (intros ? ?; apply Hvs; by right).
    destruct (decide (v ∈ seen)) as [Hv|Hv].
    + rewrite cc_step_seen by done.
      destruct (IH seen ccs) as (H1 & H2 & H3 & H4); try done.
      split_and!; try done.
      intros x [->|Hx]%elem_of_cons; [|by apply H4].
      by apply cc_scan_mono.
    + rewrite cc_step_new by done.
      destruct (plain_bfs_spec g v Hwf) as (B1 & B2 & B3);
        [apply Hvs; by left|].
      assert (Hv' : v ∈ seen ++ _plain_bfs g v).
      { apply elem_of_app. right. by apply B2. }
      destruct (IH (seen ++ _plain_bfs g v) (ccs ++ [_plain_bfs g v]))
        as (H1 & H2 & H3 & H4); try done.
      * rewrite concat_app, Hcat. simpl. by rewrite app_nil_r.
      * apply NoDup_app. split_and!; try done.
        intros u Hu Hu'. apply B2 in Hu'. apply Hv.
        eapply closed_connected; [done..|]. by apply connected_sym.
      * intros u [Hu|Hu]%elem_of_app; [by apply Hsub|by apply B3].
      * intros u w [Hu|Hu]%elem_of_app Hadj; apply elem_of_app.
        -- left. by eapply Hclosed.
        -- right. apply B2. eapply rtc_r; [by apply B2|done].
      * split_and!; try done.
        intros x [->|Hx]%elem_of_cons; [|by apply H4].
        by apply cc_scan_mono.
Qed.

(** The connected components partition the nodes. *)
Lemma connected_components_partition g :
  edges_in_nodes g → NoDup (ig_nodes g) →
  concat (connected_components g) ≡ₚ ig_nodes g.
Proof.
  intros Hwf Hnd. unfold connected_components.
  destruct (cc_scan_spec g (ig_nodes g) [] [] Hwf)
    as (H1 & H2 & H3 & H4); try done.
  - apply NoDup_nil_2.
  - by intros ? ?%elem_of_nil.
  - by intros ? ? ?%elem_of_nil.
  - rewrite <- H1. apply NoDup_Permutation; try done.
    intros x. split; [apply H3|apply H4].
Qed.

(** ** Sorting by decreasing size *)

Lemma insert_by_len_Sorted (x : list nat) (l : list (list nat)) :
  Sorted (λ a b : list nat, length b ≤ length a) l →
  Sorted (λ a b : list nat, length b ≤ length a)
         (insert_by (λ a b : list nat, length b <? length a) x l).
Proof.
  induction 1 as [|y l Hl IH Hhd]; simpl.
  - by repeat constructor.
  - destruct (length x <? length y) eqn:E.
    + apply Nat.ltb_lt in E. constructor; [done|].
      destruct l as [|z l]; simpl.
      * constructor. lia.
      * destruct (length x <? length z); constructor; [|lia].
        by inversion Hhd.
    + apply Nat.ltb_ge in E. constructor; [by constructor|].
      by constructor.
Qed.

Lemma sorted_by_len_desc_Sorted (cc : list (list nat)) :
  Sorted (λ a b : list nat, length b ≤ length a) (sorted_by_len_desc cc).
Proof.
  unfold sorted_by_len_desc, stable_sort.
  induction cc as [|c cc IH]; simpl; [constructor|].
  by apply insert_by_len_Sorted.
Qed.

Lemma Sorted_lookup_succ {A} (R : A → A → Prop) (l : list A) i a b :
  Sorted R l → l !! i = Some a → l !! S i = Some b → R a b.
Proof.
  intros Hs. revert i. induction Hs as [|x l Hl IH Hhd]; intros i Ha Hb;
    [done|].
  destruct i as [|i]; simpl in *.
  - injection Ha as ->. destruct l as [|y l]; [done|]. simpl in Hb.
    injection Hb as ->. by inversion Hhd.
  - by eapply IH.
Qed.

(** ** Groups *)

Lemma mapM_Ok {A B} (f : A → result B) (l : list A) (k : list B) :
  mapM f l = Ok k ↔ Forall2 (λ x y, f x = Ok y) l k.
Proof.
  revert k. induction l as [|x l IH]; intros k; simpl.
  - split; [intros [= <-]; constructor|by inversion 1].
  - split.
    + intros H. inv_ok. subst. constructor; [done|]. by apply IH.
    + inversion 1 as [|? y ? k' Hx Hl]; subst. rewrite Hx. simpl.
      apply IH in Hl. by rewrite Hl.
Qed.

Lemma gen_groups_loop (all_graphs : list Occurrence) (ids : list string)
    (cc : list (list nat)) (off : nat) (acc gs : gmap nat (list string)) :
  mapM graph_id all_graphs = Ok ids →
  foldlM (λ (groups : gmap nat (list string)) (ig : nat * list nat),
      let '(group_idx, group) := ig in
      graph_list ← mapM (getindex all_graphs) group;
      ids ← mapM graph_id graph_list;
      mret (<[group_idx + 1 := ids]> groups))
    acc (imap (λ i c, (off + i, c)) cc) = Ok gs →
  ∃ blocks,
    Forall2 (Forall2 (λ idx id, ids !! idx = Some id)) cc blocks ∧
    ∀ k, gs !! k = if decide (off < k ≤ off + length cc)
                   then blocks !! (k - off - 1) else acc !! k.
Proof.
  intros Hids. revert off acc.
  induction cc as [|c cc IH]; intros off acc H.
  - simpl in H. injection H as <-. exists []. split; [constructor|].
    intros k. case_decide; [simpl in *; lia|done].
  - rewrite imap_cons in H. simpl in H.
    apply bind_Ok in H as (acc' & Hstep & H).
    apply bind_Ok in Hstep as (graph_list & Hgl & Hstep).
    apply bind_Ok in Hstep as (b & Hb & Hstep). injection Hstep as <-.
    rewrite (imap_ext _ (λ i c, (S off + i, c))) in H
      by (intros; simpl; f_equal; lia).
    destruct (IH _ _ H) as (blocks & HF & Hk).
    exists (b :: blocks). split.
    + constructor; [|done].
      apply mapM_Ok in Hgl, Hb, Hids.
      clear -Hgl Hb Hids. revert b Hb.
      induction Hgl as [|idx g group gl Hg Hgl IHg]; intros b Hb.
      * inversion Hb. constructor.
      * inversion Hb as [|? id ? b' Hid Hb']; subst. constructor; [|by apply IHg].
        apply getindex_Ok in Hg.
        destruct (Forall2_lookup_l _ _ _ _ _ Hids Hg) as (id' & Hl & Hid').
        congruence.
    + intros k. rewrite Hk. cbn [length].
      destruct (decide (S off < k ≤ S off + length cc)) as [Hin|Hout];
        destruct (decide (off < k ≤ off + S (length cc))) as [Hin'|Hout'];
        try lia.
      * by replace (k - off - 1) with (S (k - S off - 1)) by lia.
      * assert (k = off + 0 + 1) as -> by lia. rewrite lookup_insert_eq.
        by replace (off + 0 + 1 - off - 1) with 0 by lia.
      * by rewrite lookup_insert_ne by lia.
Qed.

Lemma gen_groups_Ok (all_graphs : list Occurrence) (ids : list string)
    (cc : list (list nat)) (gs : gmap nat (list string)) :
  mapM graph_id all_graphs = Ok ids →
  _gen_groups cc all_graphs = Ok gs →
  ∃ blocks,
    Forall2 (Forall2 (λ idx id, ids !! idx = Some id)) cc blocks ∧
    ∀ k, gs !! k = match k with 0 => None | S i => blocks !! i end.
Proof.
  intros Hids H. unfold _gen_groups in H.
  destruct (gen_groups_loop all_graphs ids cc 0 ∅ gs Hids H)
    as (blocks & HF & Hk).
  exists blocks. split; [done|]. intros k. rewrite Hk.
  destruct k as [|i].
  - by rewrite decide_False by lia.
  - case_decide as Hi.
    + by replace (S i - 0 - 1) with i by lia.
    + rewrite lookup_empty. symmetry. apply lookup_ge_None.
      rewrite <- (Forall2_length _ _ _ HF). lia.
Qed.

Lemma lookups_Permutation (ids : list string) (l : list nat) (b : list string) :
  Forall2 (λ idx id, ids !! idx = Some id) l b →
  l ≡ₚ seq 0 (length ids) → b ≡ₚ ids.
Proof.
  intros HF Hp.
  assert (Hb : b = (λ idx, default "" (ids !! idx)) <$> l).
  { clear Hp. induction HF as [|idx id l b Hid HF IH]; [done|].
    rewrite fmap_cons, Hid. simpl. by f_equal. }
  rewrite Hb, Hp. clear.
  replace ((λ idx, default "" (ids !! idx)) <$> seq 0 (length ids)) with ids;
    [done|].
  apply list_eq. intros i. rewrite list_lookup_fmap.
  destruct (decide (i < length ids)) as [Hi|Hi].
  - rewrite lookup_seq_lt by done. simpl.
    by destruct (lookup_lt_is_Some_2 ids i Hi) as [x ->].
  - rewrite lookup_seq_ge by lia. simpl. apply lookup_ge_None. lia.
Qed.

Lemma Forall2_Forall2_concat {A B} (R : A → B → Prop) (ls : list (list A))
    (ks : list (list B)) :
  Forall2 (Forall2 R) ls ks → Forall2 R (concat ls) (concat ks).
Proof.
  induction 1 as [|l k ls ks Hlk _ IH]; simpl; [constructor|].
  by apply Forall2_app.
Qed.

Lemma concat_Permutation {A} (ls ks : list (list A)) :
  ls ≡ₚ ks → concat ls ≡ₚ concat ks.
Proof.
  induction 1 as [|x l k _ IH|x y l|l k m _ IH1 _ IH2]; simpl.
  - done.
  - by rewrite IH.
  - rewrite !app_assoc. f_equiv. apply Permutation_app_comm.
  - by rewrite IH1.
Qed.

(** The groups made from the components of a similarity graph. *)
Lemma gen_groups_partition (g : IndexGraph) (all_graphs : list Occurrence)
    (ids : list string) (gs : gmap nat (list string)) :
  edges_in_nodes g →
  ig_nodes g = seq 0 (length all_graphs) →
  mapM graph_id all_graphs = Ok ids →
  _gen_groups (sorted_by_len_desc (connected_components g)) all_graphs = Ok gs →
  partition_by_size gs ids.
Proof.
  intros Hwf Hnodes Hids Hgs.
  destruct (gen_groups_Ok _ _ _ _ Hids Hgs) as (blocks & HF & Hk).
  exists blocks. split_and!; [done| |].
  - apply (lookups_Permutation ids
             (concat (sorted_by_len_desc (connected_components g)))).
    + by apply Forall2_Forall2_concat.
    + unfold sorted_by_len_desc.
      rewrite (concat_Permutation _ _ (stable_sort_Permutation _ _)).
      rewrite connected_components_partition; [|done|].
      * rewrite Hnodes. apply mapM_Ok, Forall2_length in Hids.
        by rewrite Hids.
      * rewrite Hnodes. apply NoDup_seq.
  - intros i b1 b2 H1 H2.
    destruct (Forall2_lookup_r _ _ _ _ _ HF H1) as (c1 & Hc1 & HF1).
    destruct (Forall2_lookup_r _ _ _ _ _ HF H2) as (c2 & Hc2 & HF2).
    rewrite <- (Forall2_length _ _ _ HF1), <- (Forall2_length _ _ _ HF2).
    exact (Sorted_lookup_succ _ _ _ _ _
             (sorted_by_len_desc_Sorted _) Hc1 Hc2).
Qed.

Lemma elem_of_concat {A} (x : A) (ls : list (list A)) :
  x ∈ concat ls ↔ ∃ l, x ∈ l ∧ l ∈ ls.
Proof.
  rewrite list_elem_of_In, in_concat. split.
  - intros (l & Hl & Hx). exists l. by rewrite !list_elem_of_In.
  - intros (l & Hx & Hl). exists l. by rewrite <- !list_elem_of_In.
Qed.

(** In a partition of distinct ids, every id is in one block only. *)
Lemma partition_by_size_unique (gs : gmap nat (list string)) (ids : list string) :
  NoDup ids → partition_by_size gs ids →
  (∀ k l id, gs !! k = Some l → id ∈ l → id ∈ ids) ∧
  (∀ id, id ∈ ids →
     ∃ k l, gs !! k = Some l ∧ id ∈ l ∧
       ∀ k' l', gs !! k' = Some l' → id ∈ l' → k' = k) ∧
  (∀ k l, gs !! k = Some l → NoDup l) ∧
  (∀ k l1 l2, gs !! k = Some l1 → gs !! S k = Some l2 →
     length l2 ≤ length l1) ∧
  (∀ k, is_Some (gs !! k) → 1 ≤ k).
Proof.
  intros Hnd (blocks & Hk & Hperm & Hsize).
  assert (Hndc : NoDup (concat blocks)) by by rewrite Hperm.
  assert (Hblock : ∀ i b x, blocks !! i = Some b → x ∈ b → x ∈ concat blocks).
  { intros i b x Hb Hx. apply elem_of_concat. exists b.
    split; [done|]. by eapply list_elem_of_lookup_2. }
  assert (Huniq : ∀ i j b b' x, blocks !! i = Some b → blocks !! j = Some b' →
                    x ∈ b → x ∈ b' → i = j).
  { clear -Hndc. induction blocks as [|b0 blocks IH]; [done|].
    simpl in Hndc. apply NoDup_app in Hndc as (_ & Hdisj & Hndc).
    assert (Hrest : ∀ i b x, blocks !! i = Some b → x ∈ b → x ∈ concat blocks).
    { intros i b x Hb Hx. apply elem_of_concat. exists b.
      split; [done|]. by eapply list_elem_of_lookup_2. }
    intros [|i] [|j] b b' x Hb Hb' Hx Hx'; simpl in *.
    - done.
    - injection Hb as <-. destruct (Hdisj x Hx). by eapply Hrest.
    - injection Hb' as <-. destruct (Hdisj x Hx'). by eapply Hrest.
    - f_equal. by eapply IH. }
  split_and!.
  - intros [|i] l id Hl Hid; rewrite Hk in Hl; [done|].
    rewrite <- Hperm. by eapply Hblock.
  - intros id Hid. rewrite <- Hperm in Hid.
    apply elem_of_concat in Hid as (b & Hidb & Hb).
    apply list_elem_of_lookup in Hb as [i Hi].
    exists (S i), b. split_and!; [by rewrite Hk|done|].
    intros [|j] l' Hl' Hid'; rewrite Hk in Hl'; [done|].
    f_equal. by eapply Huniq.
  - intros [|i] l Hl; rewrite Hk in Hl; [done|].
    clear -Hndc Hl. revert i Hl. induction blocks as [|b0 blocks IH];
      intros i Hl; [done|].
    simpl in Hndc. apply NoDup_app in Hndc as (Hb0 & _ & Hndc).
    destruct i as [|i]; simpl in Hl; [by injection Hl as <-|by eapply IH].
  - intros [|i] l1 l2 H1 H2; rewrite Hk in H1, H2; [done|]. by eapply Hsize.
  - intros [|i] [l Hl]; rewrite Hk in Hl; [done|lia].
Qed.

(** ** Methods: outcome and final state *)

Lemma M_bind_Ok {A B} (m : M A) (f : A → M B) self b self2 :
  (m ≫= f) self = (Ok b, self2) ↔
  ∃ a self1, m self = (Ok a, self1) ∧ f a self1 = (Ok b, self2).
Proof.
  unfold mbind, M_bind. destruct (m self) as [[a|e] self1]; split.
  - intros H. by exists a, self1.
  - by intros (a' & s' & [= <- <-] & H).
  - intros H. by inversion H.
  - intros (a' & s' & H & _). by inversion H.
Qed.

Ltac inv_M :=
  repeat match goal with
  | H : (_ ≫= _) _ = (Ok _, _) |- _ =>
      let a := fresh "a" in
      let s := fresh "self" in
      let Ha := fresh "Ha" in
      apply M_bind_Ok in H as (a & s & Ha & H)
  | H : modify _ _ = (Ok _, _) |- _ =>
      unfold modify in H; apply pair_equal_spec in H as [_ H]
  | H : read _ _ = (Ok _, _) |- _ =>
      let H' := fresh H in
      unfold read in H; apply pair_equal_spec in H as [H H']
  | H : lift _ _ = (Ok _, _) |- _ =>
      let H' := fresh H in
      unfold lift in H; apply pair_equal_spec in H as [H H']
  | H : mret _ _ = (Ok _, _) |- _ =>
      let H' := fresh H in
      unfold mret, M_ret in H; apply pair_equal_spec in H as [H H']
  | H : Ok _ = Ok _ |- _ => injection H as H
  end.

Section method_facts.
Variable size_weight : Occurrence → Q.
Variable subgraph_monomorphisms :
  HostGraph → PatternGraph → list (list (node * node)).
Variable subgraph_isomorphisms :
  Occurrence → Occurrence → list (list (node * node)).
Variable write_graph_smiles : PatternGraph → string.
Variable svd_rms : list coord → list coord → Q.

(** C10. On a pattern that [__init__] has just built, [set_clustering] with
    either valid option raises [AttributeError] and leaves the object as it
    was: the groupings it would switch to do not exist yet. *)
Theorem set_clustering_before_find (G0 : PatternGraph) (graph_number : Z)
    (support0 : list (string * emap)) (labels : list (string * Z))
    (thresholds : list Q) :
  let self := __init__ write_graph_smiles G0 graph_number support0 labels
                thresholds in
  set_clustering "structural" self = (Raise AttributeError, self) ∧
  set_clustering "sequence" self = (Raise AttributeError, self).
Proof. by split. Qed.

(** *** The order of patterns *)

Lemma lt_unfold (A B : SubgraphPattern) :
  __lt__ write_graph_smiles A B = true ↔
  support_number A < support_number B ∨
  (support_number A = support_number B ∧
   (String.ltb (write_graph_smiles (G A)) (write_graph_smiles (G B)) = true ∨
    (write_graph_smiles (G A) = write_graph_smiles (G B) ∧
     (size_num_label (G A) < size_num_label (G B))%Z))).
Proof.
  unfold __lt__.
  destruct (support_number A =? support_number B) eqn:En; simpl.
  - apply Nat.eqb_eq in En.
    destruct (String.eqb (write_graph_smiles (G A)) (write_graph_smiles (G B)))
      eqn:Es; simpl.
    + apply String.eqb_eq in Es. rewrite Z.ltb_lt, Es, string_ltb_irrefl.
      split; [by auto|]. intros [?|[_ [?|[_ ?]]]]; [lia|done|done].
    + apply String.eqb_neq in Es.
      split; [by auto|]. intros [?|[_ [?|[? _]]]]; [lia|done|done].
  - apply Nat.eqb_neq in En. rewrite Nat.ltb_lt.
    split; [by auto|]. intros [?|[? _]]; [done|lia].
Qed.


(** A call of [set_clustering] that raises leaves the object unchanged,
    whatever its state. *)
Lemma set_clustering_Raise (option : string) (self self' : SubgraphPattern) e :
  set_clustering option self = (Raise e, self') → self' = self.
Proof.
  unfold set_clustering, mbind, M_bind, getattr, raise, modify.
  destruct (String.eqb option "structural").
  - destruct (_structural_groups self); intros [=]; done.
  - destruct (String.eqb option "sequence").
    + destruct (_sequence_groups self); intros [=]; done.
    + by intros [=].
Qed.

(** C6 as amended. A call of [set_clustering] that raises leaves the object
    as it was, in any state. Once both groupings exist, the call raises
    exactly when the option is neither ["structural"] nor ["sequence"], and
    then with the generic exception; a valid option installs the stored
    grouping of that name as [groups] and records the option, every other
    attribute (the stored groupings included) staying as it was. *)
Theorem set_clustering_spec (option : string) (self : SubgraphPattern) :
  (∀ e self', set_clustering option self = (Raise e, self') → self' = self) ∧
  ∀ structural sequence : gmap nat (list string),
    _structural_groups self = Some structural →
    _sequence_groups self = Some sequence →
    ((∃ e self', set_clustering option self = (Raise e, self')) ↔
       option ≠ "structural" ∧ option ≠ "sequence") ∧
    (option = "structural" →
       set_clustering option self
       = (Ok tt, set_clustering_option option (set_groups structural self))) ∧
    (option = "sequence" →
       set_clustering option self
       = (Ok tt, set_clustering_option option (set_groups sequence self))) ∧
    (option ≠ "structural" → option ≠ "sequence" →
       set_clustering option self
       = (Raise (Exception "Either structural or sequence."), self)).
Proof.
  split; [intros e self'; apply set_clustering_Raise|].
  intros structural sequence Hs Hq.
  assert (H1 : option = "structural" →
     set_clustering option self
     = (Ok tt, set_clustering_option option (set_groups structural self))).
  { intros ->. unfold set_clustering, mbind, M_bind, getattr. simpl.
    by rewrite Hs. }
  assert (H2 : option = "sequence" →
     set_clustering option self
     = (Ok tt, set_clustering_option option (set_groups sequence self))).
  { intros ->. unfold set_clustering, mbind, M_bind, getattr. simpl.
    by rewrite Hq. }
  assert (H3 : option ≠ "structural" → option ≠ "sequence" →
     set_clustering option self
     = (Raise (Exception "Either structural or sequence."), self)).
  { intros Hn1 Hn2. unfold set_clustering, mbind, M_bind.
    apply String.eqb_neq in Hn1, Hn2. by rewrite Hn1, Hn2. }
  split; [split|split_and!; try done].
  - intros (e & self' & Hr). split; intros ->.
    + by rewrite H1 in Hr.
    + by rewrite H2 in Hr.
  - intros [Hn1 Hn2]. eexists _, _. by apply H3.
Qed.


(** *** Methods that leave the support counts alone *)

Lemma keeps_support_bind {A B} (m : M A) (f : A → M B) :
  keeps_support m → (∀ a, keeps_support (f a)) → keeps_support (m ≫= f).
Proof.
  intros Hm Hf self r self' H. unfold mbind, M_bind in H.
  destruct (m self) as [[a|e] self1] eqn:E.
  - destruct (Hm _ _ _ E) as (E1 & E2 & E3).
    destruct (Hf a _ _ _ H) as (F1 & F2 & F3). split_and!; congruence.
  - injection H as <- <-. by eapply Hm.
Qed.

Lemma keeps_support_lift {A} (r : result A) : keeps_support (lift r).
Proof. by intros self r' self' [= <- <-]. Qed.

Lemma keeps_support_read {A} (f : SubgraphPattern → A) : keeps_support (read f).
Proof. by intros self r' self' [= <- <-]. Qed.

Lemma keeps_support_ret {A} (a : A) : keeps_support (mret a).
Proof. by intros self r' self' [= <- <-]. Qed.

Lemma keeps_support_raise {A} e : keeps_support (raise (A:=A) e).
Proof. by intros self r' self' [= <- <-]. Qed.

Lemma keeps_support_getattr {A} (f : SubgraphPattern → option A) :
  keeps_support (getattr f).
Proof.
  intros self r' self'. unfold getattr.
  by destruct (f self); intros [= <- <-].
Qed.

Lemma keeps_support_modify (f : SubgraphPattern → SubgraphPattern) :
  (∀ self, G (f self) = G self ∧ support (f self) = support self ∧
           total_support (f self) = total_support self) →
  keeps_support (modify f).
Proof. intros Hf self r' self' [= <- <-]. apply Hf. Qed.

Ltac keeps :=
  repeat first
    [ apply keeps_support_bind; [|intros ?]
    | apply keeps_support_lift
    | apply keeps_support_read
    | apply keeps_support_ret
    | apply keeps_support_raise
    | apply keeps_support_getattr
    | apply keeps_support_modify; by intros ? ].

Lemma keeps_support_set_clustering option : keeps_support (set_clustering option).
Proof.
  unfold set_clustering.
  destruct (String.eqb option "structural"); [keeps|].
  destruct (String.eqb option "sequence"); keeps.
Qed.

Lemma keeps_support_do_clustering all_graphs :
  keeps_support
    (_do_clustering subgraph_isomorphisms svd_rms all_graphs).
Proof. unfold _do_clustering. keeps. Qed.

Lemma keeps_support_assign_ids i all_graphs :
  keeps_support (assign_ids i all_graphs).
Proof.
  revert i. induction all_graphs as [|g gs IH]; intros i; simpl; keeps.
  apply IH.
Qed.

(** *** The search in one structure *)

Lemma find_subgraph_in_pdb_Ok pdb_id self sgs self' :
  _find_subgraph_in_pdb subgraph_monomorphisms pdb_id self = (Ok sgs, self') →
  ∃ e dds,
    OD.get (support self) pdb_id = Some e ∧
    unique_subgraphs e (G self)
      (subgraph_monomorphisms (init_graph e) (G self)) = Ok (sgs, dds) ∧
    self' = set_total_support (<[pdb_id := length sgs]> (total_support self)) self.
Proof.
  unfold _find_subgraph_in_pdb. intros H. inv_M. subst.
  apply getitem_Ok in Ha0. destruct a1 as [sgs' dds].
  exists a0, dds. by simplify_eq/=.
Qed.

Lemma unique_subgraphs_spec (e : emap) (pattern : PatternGraph) mappings acc r :
  foldlM (λ (acc : list Occurrence * list (gmap node nat)) mapping,
      sg ← _generate_protein_subgraph mapping (init_graph e) pattern e;
      let d := degree_dict sg in
      if bool_decide (d ∈ acc.2) then mret acc
      else mret (acc.1 ++ [sg], acc.2 ++ [d]))
    acc mappings = Ok r →
  acc.2 = degree_dict <$> acc.1 → NoDup acc.2 →
  r.2 = degree_dict <$> r.1 ∧ NoDup r.2 ∧
  length r.1 ≤ length acc.1 + length mappings ∧
  (∀ d, d ∈ acc.2 → d ∈ r.2) ∧
  (∀ m, m ∈ mappings →
     ∃ sg, _generate_protein_subgraph m (init_graph e) pattern e = Ok sg ∧
           degree_dict sg ∈ r.2) ∧
  (∀ sg, sg ∈ r.1 → sg ∈ acc.1 ∨
     ∃ m, m ∈ mappings ∧
          _generate_protein_subgraph m (init_graph e) pattern e = Ok sg).
Proof.
  revert acc. induction mappings as [|m ms IH]; intros acc H Hacc Hnd;
    simpl in H.
  - injection H as <-. split_and!; try done; [lia|set_solver|auto].
  - apply bind_Ok in H as (acc' & Hstep & H).
    apply bind_Ok in Hstep as (sg & Hsg & Hstep).
    simpl in Hstep. case_bool_decide as Hin; injection Hstep as <-.
    + destruct (IH _ H Hacc Hnd) as (H1 & H2 & H3 & H4 & H5 & H6).
      split_and!; try done; [simpl; lia| |].
      * intros m' [->|Hm']%elem_of_cons; [|by apply H5].
        exists sg. split; [done|]. by apply H4.
      * intros sg' Hsg'. destruct (H6 _ Hsg') as [?|(m' & ? & ?)]; [by left|].
        right. exists m'. split; [by right|done].
    + destruct (IH _ H) as (H1 & H2 & H3 & H4 & H5 & H6).
      { simpl. by rewrite fmap_app, Hacc. }
      { simpl. apply NoDup_app. split_and!; [done| |apply NoDup_singleton].
        intros d Hd ->%list_elem_of_singleton. done. }
      simpl in *. rewrite length_app in H3. simpl in H3.
      split_and!; try done; [lia| | |].
      * intros d Hd. apply H4, elem_of_app. by left.
      * intros m' [->|Hm']%elem_of_cons; [|by apply H5].
        exists sg. split; [done|]. apply H4, elem_of_app. right.
        by apply list_elem_of_singleton.
      * intros sg' Hsg'.
        destruct (H6 _ Hsg') as [[?| ->%list_elem_of_singleton]%elem_of_app|(m' & ? & ?)].
        -- by left.
        -- right. exists m. split; [by left|done].
        -- right. exists m'. split; [by right|done].
Qed.

Lemma find_in_support_Ok pdb_ids acc self all_graphs self' :
  find_in_support subgraph_monomorphisms pdb_ids acc self
    = (Ok all_graphs, self') →
  (∃ ts, self' = set_total_support ts self) ∧
  (∀ q, q ∉ pdb_ids → total_support self' !! q = total_support self !! q) ∧
  ∀ pdb_id, pdb_id ∈ pdb_ids →
    ∃ e sgs dds,
      OD.get (support self) pdb_id = Some e ∧
      unique_subgraphs e (G self)
        (subgraph_monomorphisms (init_graph e) (G self)) = Ok (sgs, dds) ∧
      total_support self' !! pdb_id = Some (length sgs).
Proof.
  revert acc self. induction pdb_ids as [|p ps IH]; intros acc self H;
    simpl in H.
  - inv_M. subst. split; [by exists (total_support self'); destruct self'|].
    split; [done|]. by intros ? ?%elem_of_nil.
  - apply M_bind_Ok in H as (sgs & self1 & Hp & H).
    apply find_subgraph_in_pdb_Ok in Hp as (e & dds & He & Hu & ->).
    apply IH in H as ([ts ->] & Hother & Hrest). simpl in *.
    split; [by exists ts|]. split.
    + intros q [Hq1 Hq2]%not_elem_of_cons. rewrite Hother by done.
      by rewrite lookup_insert_ne.
    + intros pdb_id [->|Hin]%elem_of_cons; [|by apply Hrest].
      destruct (decide (p ∈ ps)) as [Hp|Hp]; [by apply Hrest|].
      exists e, sgs, dds. split_and!; [done..|].
      rewrite Hother by done. by rewrite lookup_insert_eq.
Qed.

(** *** Naming the pooled graphs *)

Lemma assign_ids_Ok i gs self gs' self' :
  assign_ids i gs self = (Ok gs', self') →
  ∃ ids ps,
    self' = set_protein_subgraphs ps self ∧
    dom ps = dom (protein_subgraphs self) ∪ list_to_set ids ∧
    mapM graph_id gs' = Ok ids ∧
    length gs' = length gs ∧ length ids = length gs ∧
    (∀ k id, ids !! k = Some id →
       ∃ g pdb_id, gs !! k = Some g ∧
         oi_pdb_id (graph_attr g) = Some pdb_id ∧
         id = pdb_id +:+ "_" +:+ pretty (i + k + 1) ∧
         gs' !! k = Some (set_graph_id g id)) ∧
    (∀ id g', ps !! id = Some g' →
       protein_subgraphs self !! id = Some g' ∨ g' ∈ gs').
Proof.
  revert i self gs' self'. induction gs as [|g gs IH]; intros i self gs' self' H;
    simpl in H.
  - inv_M. subst. exists [], (protein_subgraphs self').
    split_and!; try done; [by destruct self'| |auto].
    simpl. by rewrite (right_id_L ∅ (∪)).
  - inv_M. subst. apply getitem_Ok in Ha.
    apply IH in Ha1 as (ids & ps & -> & Hdom & Hids & Hl1 & Hl2 & Hk & Hps).
    simpl in *.
    exists ((a +:+ "_" +:+ pretty (i + 1)) :: ids), ps.
    split_and!.
    + done.
    + rewrite Hdom, dom_insert_L. simpl.
      by rewrite (comm_L (∪) {[_]} (dom _)), (assoc_L (∪)).
    + simpl. by rewrite Hids.
    + simpl. by rewrite Hl1.
    + simpl. by rewrite Hl2.
    + intros [|k] id Hid; simpl in *.
      * injection Hid as <-. exists g, a. split_and!; try done.
        by rewrite Nat.add_0_r.
      * destruct (Hk k id Hid) as (g0 & pdb & ? & ? & -> & ?).
        exists g0, pdb. split_and!; try done.
        by replace (i + S k + 1) with (S i + k + 1) by lia.
    + intros id g' Hg'. destruct (Hps _ _ Hg') as [Hi|Hi].
      * destruct (decide (a +:+ "_" +:+ pretty (i + 1) = id)) as [<-|Hne].
        -- rewrite lookup_insert_eq in Hi. injection Hi as <-.
           right. by left.
        -- rewrite lookup_insert_ne in Hi by done. by left.
      * right. by right.
Qed.

Lemma assign_ids_NoDup i gs self gs' self' ids :
  assign_ids i gs self = (Ok gs', self') →
  mapM graph_id gs' = Ok ids → NoDup ids.
Proof.
  intros H Hids.
  apply assign_ids_Ok in H as (ids' & ps & _ & _ & Hids' & _ & _ & Hk & _).
  rewrite Hids in Hids'. injection Hids' as <-.
  apply NoDup_alt. intros k1 k2 id H1 H2.
  destruct (Hk _ _ H1) as (g1 & p1 & _ & _ & E1 & _).
  destruct (Hk _ _ H2) as (g2 & p2 & _ & _ & E2 & _).
  rewrite E1 in E2. apply occurrence_id_inj in E2 as [_ E2]. lia.
Qed.

(** What [pool_subgraphs] leaves behind: [groups] is empty, the keys of
    [protein_subgraphs] are the ids of the pooled graphs, which are all
    different, and only [total_support] changed besides. *)
Lemma pool_subgraphs_Ok self all_graphs self1 :
  pool_subgraphs size_weight subgraph_monomorphisms self = (Ok all_graphs, self1) →
  ∃ ids,
    mapM graph_id all_graphs = Ok ids ∧
    length ids = length all_graphs ∧
    NoDup ids ∧
    dom (protein_subgraphs self1) = list_to_set ids ∧
    groups self1 = ∅ ∧
    clustering_option self1 = clustering_option self ∧
    _structural_groups self1 = _structural_groups self ∧
    _sequence_groups self1 = _sequence_groups self.
Proof.
  unfold pool_subgraphs. intros H. inv_M. subst.
  apply find_in_support_Ok in Ha2 as ([ts ->] & _).
  pose proof (assign_ids_Ok _ _ _ _ _ H)
    as (ids & ps & -> & Hdom & Hids & Hl1 & Hl2 & _).
  exists ids. split_and!; try done.
  - congruence.
  - by eapply assign_ids_NoDup.
  - simpl in *. by rewrite Hdom, dom_empty_L, (left_id_L ∅ (∪)).
Qed.

Lemma keeps_support_cluster option all_graphs :
  keeps_support
    (if 1 <? length all_graphs then
       _do_clustering subgraph_isomorphisms svd_rms all_graphs;;
       set_clustering option
     else
       ids ← lift (mapM graph_id all_graphs);
       modify (λ self, set_groups (<[1 := ids]> (groups self)) self);;
       modify (set_clustering_option option);;
       modify (λ self, set_structural_groups (groups self) self);;
       modify (λ self, set_sequence_groups (groups self) self)).
Proof.
  destruct (1 <? length all_graphs).
  - apply keeps_support_bind; [apply keeps_support_do_clustering|intros ?].
    apply keeps_support_set_clustering.
  - keeps.
Qed.

(** C1 as amended. When [find_protein_subgraphs] returns, [total_support]
    holds, for every structure of the support, the number of protein
    subgraphs that survived the elimination of redundant ones: one per
    distinct degree dictionary among the subgraphs of the monomorphisms,
    which is at most the number of monomorphisms found. *)
Theorem total_support_counts_survivors (option : string)
    (self self' : SubgraphPattern) :
  find_protein_subgraphs size_weight subgraph_monomorphisms
    subgraph_isomorphisms svd_rms
    option self = (Ok tt, self') →
  ∀ pdb_id, pdb_id ∈ OD.keys (support self) →
    ∃ e sgs dds,
      OD.get (support self) pdb_id = Some e ∧
      unique_subgraphs e (G self)
        (subgraph_monomorphisms (init_graph e) (G self)) = Ok (sgs, dds) ∧
      total_support self' !! pdb_id = Some (length sgs) ∧
      dds = degree_dict <$> sgs ∧ NoDup dds ∧
      length sgs ≤ length (subgraph_monomorphisms (init_graph e) (G self)) ∧
      (∀ m, m ∈ subgraph_monomorphisms (init_graph e) (G self) →
         ∃ sg, _generate_protein_subgraph m (init_graph e) (G self) e = Ok sg ∧
               degree_dict sg ∈ dds).
Proof.
  intros H pdb_id Hin. unfold find_protein_subgraphs in H.
  apply M_bind_Ok in H as (all_graphs & self1 & Hpool & H).
  apply keeps_support_cluster in H as (_ & _ & Hts).
  unfold pool_subgraphs in Hpool. inv_M. subst.
  apply keeps_support_assign_ids in Hpool as (_ & _ & Hts1).
  apply find_in_support_Ok in Ha2 as (_ & _ & Hfind).
  destruct (Hfind pdb_id Hin) as (e & sgs & dds & He & Hu & Hl).
  simpl in He, Hu. exists e, sgs, dds. split_and!; try done.
  - by rewrite Hts, Hts1.
  - by destruct (unique_subgraphs_spec _ _ _ _ _ Hu eq_refl (NoDup_nil_2))
      as (? & _).
  - by destruct (unique_subgraphs_spec _ _ _ _ _ Hu eq_refl (NoDup_nil_2))
      as (_ & ? & _).
  - by destruct (unique_subgraphs_spec _ _ _ _ _ Hu eq_refl (NoDup_nil_2))
      as (_ & _ & ? & _).
  - by destruct (unique_subgraphs_spec _ _ _ _ _ Hu eq_refl (NoDup_nil_2))
      as (_ & _ & _ & _ & ? & _).
Qed.

(** *** The RMSD of one mapping *)

Lemma collect_atoms_spec (emap1 emap2 : emap) mapping atoms1 atoms2 :
  (∀ kv, kv ∈ mapping →
     is_Some (residues emap1 !! kv.1) ∧ is_Some (residues emap2 !! kv.2)) →
  ∃ r, collect_atoms emap1 emap2 mapping atoms1 atoms2 = Ok r ∧
    (r = None ↔
       ∃ kv res1 res2, kv ∈ mapping ∧
         residues emap1 !! kv.1 = Some res1 ∧
         residues emap2 !! kv.2 = Some res2 ∧ ¬ share_atom res1 res2) ∧
    (∀ l1 l2, r = Some (l1, l2) →
       ∃ new, l1 = atoms1 ++ new.*1 ∧ l2 = atoms2 ++ new.*2 ∧
              Forall2 (reference_coords emap1 emap2) mapping new).
Proof.
  revert atoms1 atoms2. induction mapping as [|[key val] mapping IH];
    intros atoms1 atoms2 Hres; simpl.
  - eexists. split; [done|]. split.
    + split; [done|]. by intros (? & ? & ? & ?%elem_of_nil & _).
    + intros l1 l2 [= <- <-]. exists []. by rewrite !app_nil_r.
  - destruct (Hres (key, val)) as [[res1 H1] [res2 H2]]; [by left|].
    simpl in H1, H2. rewrite H1, H2. simpl.
    assert (Hrest : ∀ kv, kv ∈ mapping →
      is_Some (residues emap1 !! kv.1) ∧ is_Some (residues emap2 !! kv.2)).
    { intros kv Hkv. apply Hres. by right. }
    assert (Hcons : ∀ name c1 c2 r,
      reference_atom res1 res2 name → share_atom res1 res2 →
      atom_coord res1 name = Ok c1 → atom_coord res2 name = Ok c2 →
      collect_atoms emap1 emap2 mapping (atoms1 ++ [c1]) (atoms2 ++ [c2]) = Ok r →
      (r = None ↔
        ∃ kv res1 res2, kv ∈ mapping ∧
          residues emap1 !! kv.1 = Some res1 ∧
          residues emap2 !! kv.2 = Some res2 ∧ ¬ share_atom res1 res2) →
      (∀ l1 l2, r = Some (l1, l2) →
        ∃ new, l1 = (atoms1 ++ [c1]) ++ new.*1 ∧ l2 = (atoms2 ++ [c2]) ++ new.*2 ∧
               Forall2 (reference_coords emap1 emap2) mapping new) →
      (r = None ↔
        ∃ kv res1 res2, kv ∈ (key, val) :: mapping ∧
          residues emap1 !! kv.1 = Some res1 ∧
          residues emap2 !! kv.2 = Some res2 ∧ ¬ share_atom res1 res2) ∧
      (∀ l1 l2, r = Some (l1, l2) →
        ∃ new, l1 = atoms1 ++ new.*1 ∧ l2 = atoms2 ++ new.*2 ∧
               Forall2 (reference_coords emap1 emap2) ((key, val) :: mapping) new)).
    { intros name c1 c2 r Href Hshare Hc1 Hc2 Hr Hnone Hsome. split.
      - rewrite Hnone. split.
        + intros (kv & r1 & r2 & Hin & ?). exists kv, r1, r2.
          split; [by right|done].
        + intros (kv & r1 & r2 & [->|Hin]%elem_of_cons & E1 & E2 & Hns).
          * simpl in *. by simplify_eq.
          * by exists kv, r1, r2.
      - intros l1 l2 Hl. destruct (Hsome _ _ Hl) as (new & -> & -> & HF).
        exists ((c1, c2) :: new). simpl. rewrite <- !app_assoc.
        split_and!; [done..|]. constructor; [|done].
        by exists res1, res2, name. }
    destruct (has_atom res1 "CA" && has_atom res2 "CA") eqn:Eca.
    + apply andb_true_iff in Eca as [Eca1 Eca2].
      destruct (atom_coord_Ok _ _ Eca1) as [c1 Hc1].
      destruct (atom_coord_Ok _ _ Eca2) as [c2 Hc2].
      rewrite Hc1, Hc2. simpl.
      destruct (IH (atoms1 ++ [c1]) (atoms2 ++ [c2]) Hrest)
        as (r & Hr & Hnone & Hsome).
      exists r. split; [done|].
      apply (Hcons "CA" c1 c2); try done.
      * by left.
      * by exists "CA".
    + destruct (first_shared_atom res1 res2) as [name|] eqn:Efs.
      * apply first_shared_atom_Some in Efs as [Hn1 Hfc].
        pose proof Hfc as (i & _ & Hn2 & _).
        destruct (atom_coord_Ok _ _ Hn1) as [c1 Hc1].
        destruct (atom_coord_Ok _ _ Hn2) as [c2 Hc2].
        rewrite Hc1, Hc2. simpl.
        destruct (IH (atoms1 ++ [c1]) (atoms2 ++ [c2]) Hrest)
          as (r & Hr & Hnone & Hsome).
        exists r. split; [done|].
        apply (Hcons name c1 c2); try done.
        -- right. split; [|done]. intros [E1 E2].
           by rewrite E1, E2 in Eca.
        -- by exists name.
      * apply first_shared_atom_None in Efs.
        exists None. split; [done|]. split; [|done].
        split; [|done]. intros _. exists (key, val), res1, res2.
        split; [by left|done].
Qed.

(** C8. For a mapping between residues that both structures know,
    [_subgraph_rmsd] returns a value: infinity when some matched pair has no
    atom name in common, infinity when fewer than two pairs are matched, and
    otherwise the RMSD that the superimposer gives for the coordinates of
    the reference atoms, pair by pair: the alpha carbons when both residues
    have one, else the first atom of the first residue that the second has
    as well. *)
Theorem subgraph_rmsd_never_raises (self : SubgraphPattern)
    (sg1 sg2 : Occurrence) (mapping : list (node * node)) (emap1 emap2 : emap) :
  host_of self sg1 = Ok emap1 →
  host_of self sg2 = Ok emap2 →
  (∀ kv, kv ∈ mapping →
     is_Some (residues emap1 !! kv.1) ∧ is_Some (residues emap2 !! kv.2)) →
  ∃ r, _subgraph_rmsd svd_rms self sg1 sg2 mapping = Ok r ∧
    ((∃ kv res1 res2, kv ∈ mapping ∧
        residues emap1 !! kv.1 = Some res1 ∧
        residues emap2 !! kv.2 = Some res2 ∧ ¬ share_atom res1 res2) →
     r = Inf) ∧
    (length mapping < 2 → r = Inf) ∧
    ((∀ kv res1 res2, kv ∈ mapping →
        residues emap1 !! kv.1 = Some res1 →
        residues emap2 !! kv.2 = Some res2 → share_atom res1 res2) →
     2 ≤ length mapping →
     ∃ pairs, Forall2 (reference_coords emap1 emap2) mapping pairs ∧
              r = Finite (svd_rms pairs.*1 pairs.*2)).
Proof.
  intros H1 H2 Hres. unfold _subgraph_rmsd. rewrite H1, H2.
  cbn -[Nat.leb Nat.eqb].
  destruct (collect_atoms_spec emap1 emap2 mapping [] [] Hres)
    as (r & -> & Hnone & Hsome). cbn -[Nat.leb Nat.eqb].
  destruct r as [[atoms1 atoms2]|].
  - destruct (Hsome _ _ eq_refl) as (new & -> & -> & HF).
    cbn -[Nat.leb Nat.eqb].
    pose proof (Forall2_length _ _ _ HF) as Hlen.
    rewrite !length_fmap, <- Hlen, Nat.eqb_refl, andb_true_r.
    destruct (2 <=? length mapping) eqn:E2.
    + eexists. split; [reflexivity|]. split_and!.
      * intros Hns. apply Hnone in Hns. done.
      * apply Nat.leb_le in E2. lia.
      * intros _ _. by exists new.
    + eexists. split; [reflexivity|]. split_and!; try done.
      apply Nat.leb_gt in E2. lia.
  - exists Inf. split; [done|]. split_and!; try done.
    intros Hall _. destruct Hnone as [Hnone _].
    destruct (Hnone eq_refl) as (kv & r1 & r2 & Hin & E1 & E2 & Hns).
    destruct Hns. by eapply Hall.
Qed.

(** *** The similarity graphs *)

Lemma distances_loop_spec (self : SubgraphPattern) (gi gj : Occurrence)
    mappings (acc r : list Z * list float) :
  foldlM (λ (acc : list Z * list float) mapping,
      d ← _subgraph_seq_dist gi gj mapping;
      r ← _subgraph_rmsd svd_rms self gi gj mapping;
      mret (acc.1 ++ [d], acc.2 ++ [r])) acc mappings = Ok r →
  ∃ ds rs, r = (acc.1 ++ ds, acc.2 ++ rs) ∧
    Forall2 (λ m d, _subgraph_seq_dist gi gj m = Ok d) mappings ds ∧
    Forall2 (λ m x, _subgraph_rmsd svd_rms self gi gj m = Ok x) mappings rs.
Proof.
  revert acc. induction mappings as [|m ms IH]; intros acc H; simpl in H.
  - injection H as <-. exists [], []. rewrite !app_nil_r. by destruct acc.
  - inv_ok. subst. destruct (IH _ H) as (ds & rs & -> & Hd & Hr). simpl.
    exists (a0 :: ds), (a1 :: rs). rewrite <- !app_assoc.
    split_and!; [done|by constructor..].
Qed.

Lemma pair_distances_Ok (self : SubgraphPattern) (gi gj : Occurrence) d :
  pair_distances subgraph_isomorphisms svd_rms self gi gj = Ok d →
  ∃ ds rs,
    Forall2 (λ m x, _subgraph_seq_dist gi gj m = Ok x)
            (subgraph_isomorphisms gi gj) ds ∧
    Forall2 (λ m x, _subgraph_rmsd svd_rms self gi gj m = Ok x)
            (subgraph_isomorphisms gi gj) rs ∧
    is_minimum Z.le d.1 ds ∧ is_minimum float_le d.2 rs.
Proof.
  unfold pair_distances. intros H.
  apply bind_Ok in H as (acc & Hacc & H).
  apply distances_loop_spec in Hacc as (ds & rs & -> & Hd & Hr).
  simpl in H. inv_ok. subst. exists ds, rs.
  split_and!; [done..| |]; simpl.
  - by apply np_min_int_Ok.
  - by apply np_min_float_Ok.
Qed.

Lemma pair_distances_no_mapping (self : SubgraphPattern) (gi gj : Occurrence) :
  subgraph_isomorphisms gi gj = [] →
  pair_distances subgraph_isomorphisms svd_rms self gi gj = Raise ValueError.
Proof. intros H. unfold pair_distances. by rewrite H. Qed.

Lemma compare_pair_Ok self all_graphs k (acc gs : IndexGraph * IndexGraph) ij :
  compare_pair subgraph_isomorphisms svd_rms self all_graphs k acc ij = Ok gs ↔
  ∃ gi gj d,
    all_graphs !! ij.1 = Some gi ∧ all_graphs !! ij.2 = Some gj ∧
    pair_distances subgraph_isomorphisms svd_rms self gi gj = Ok d ∧
    gs = (if (d.1 <? Z.of_nat k)%Z then ig_add_edge acc.1 ij.1 ij.2 else acc.1,
          if float_le_finite d.2 (1 # 2) then ig_add_edge acc.2 ij.1 ij.2
          else acc.2).
Proof.
  unfold compare_pair. split.
  - intros H. inv_ok. apply getindex_Ok in Ha, Ha0. by exists a, a0, a1.
  - intros (gi & gj & d & Hi & Hj & Hd & ->).
    apply getindex_Ok in Hi, Hj. rewrite Hi, Hj.
    unfold mbind, result_bind. by rewrite Hd.
Qed.

Lemma compare_loop_spec self all_graphs k ps (acc gs : IndexGraph * IndexGraph) :
  foldlM (compare_pair subgraph_isomorphisms svd_rms self all_graphs k) acc ps
    = Ok gs →
  ig_nodes gs.1 = ig_nodes acc.1 ∧ ig_nodes gs.2 = ig_nodes acc.2 ∧
  (∀ ij, ij ∈ ig_edges gs.1 ↔ ij ∈ ig_edges acc.1 ∨
     (ij ∈ ps ∧ ∃ gi gj d,
        all_graphs !! ij.1 = Some gi ∧ all_graphs !! ij.2 = Some gj ∧
        pair_distances subgraph_isomorphisms svd_rms self gi gj = Ok d ∧
        (d.1 < Z.of_nat k)%Z)) ∧
  (∀ ij, ij ∈ ig_edges gs.2 ↔ ij ∈ ig_edges acc.2 ∨
     (ij ∈ ps ∧ ∃ gi gj d,
        all_graphs !! ij.1 = Some gi ∧ all_graphs !! ij.2 = Some gj ∧
        pair_distances subgraph_isomorphisms svd_rms self gi gj = Ok d ∧
        float_le d.2 (Finite (1 # 2)))).
Proof.
  revert acc. induction ps as [|[pi pj] ps IH]; intros acc H; simpl in H.
  - injection H as <-. split_and!; try done.
    + intros ij. split; [by left|]. by intros [?|[?%elem_of_nil _]].
    + intros ij. split; [by left|]. by intros [?|[?%elem_of_nil _]].
  - apply bind_Ok in H as (acc' & Hp & H).
    apply compare_pair_Ok in Hp as (gi & gj & d & Hi & Hj & Hd & ->).
    destruct (IH _ H) as (Hn1 & Hn2 & He1 & He2). simpl in *.
    split_and!.
    + rewrite Hn1. by destruct (d.1 <? Z.of_nat k)%Z.
    + rewrite Hn2. by destruct (float_le_finite d.2 (1 # 2)).
    + intros ij. rewrite He1. destruct (d.1 <? Z.of_nat k)%Z eqn:E.
      * apply Z.ltb_lt in E. simpl. rewrite elem_of_app, list_elem_of_singleton.
        split.
        -- intros [[?| ->]|[? ?]]; [by left| |right; split; [by right|done]].
           right. split; [by left|]. by exists gi, gj, d.
        -- intros [?|[[->|?]%elem_of_cons ?]];
             [by do 2 left|left; by right|right; by split].
      * apply Z.ltb_ge in E. split.
        -- intros [?|[? ?]]; [by left|right; split; [by right|done]].
        -- intros [?|[[->|?]%elem_of_cons Hx]];
             [by left| |right; by split].
           destruct Hx as (gi' & gj' & d' & Hi' & Hj' & Hd' & Hlt).
           simpl in Hi', Hj'. rewrite Hi in Hi'. rewrite Hj in Hj'.
           injection Hi' as <-. injection Hj' as <-.
           rewrite Hd in Hd'. injection Hd' as <-. lia.
    + intros ij. rewrite He2.
      destruct (float_le_finite d.2 (1 # 2)) eqn:E.
      * apply float_le_finite_spec in E. simpl.
        rewrite elem_of_app, list_elem_of_singleton. split.
        -- intros [[?| ->]|[? ?]]; [by left| |right; split; [by right|done]].
           right. split; [by left|]. by exists gi, gj, d.
        -- intros [?|[[->|?]%elem_of_cons ?]];
             [by do 2 left|left; by right|right; by split].
      * split.
        -- intros [?|[? ?]]; [by left|right; split; [by right|done]].
        -- intros [?|[[->|?]%elem_of_cons Hx]];
             [by left| |right; by split].
           destruct Hx as (gi' & gj' & d' & Hi' & Hj' & Hd' & Hle).
           simpl in Hi', Hj'. rewrite Hi in Hi'. rewrite Hj in Hj'.
           injection Hi' as <-. injection Hj' as <-.
           rewrite Hd in Hd'. injection Hd' as <-.
           apply float_le_finite_spec in Hle. congruence.
Qed.

Lemma compare_loop_Ok_iff self all_graphs k ps (acc : IndexGraph * IndexGraph) :
  (∃ gs, foldlM (compare_pair subgraph_isomorphisms svd_rms self all_graphs k)
           acc ps = Ok gs) ↔
  ∀ ij, ij ∈ ps → ∃ gi gj d,
    all_graphs !! ij.1 = Some gi ∧ all_graphs !! ij.2 = Some gj ∧
    pair_distances subgraph_isomorphisms svd_rms self gi gj = Ok d.
Proof.
  revert acc. induction ps as [|p ps IH]; intros acc; simpl.
  - split; [by intros _ ? ?%elem_of_nil|by eexists].
  - split.
    + intros (gs & H). apply bind_Ok in H as (acc' & Hp & H).
      intros ij [->|Hin]%elem_of_cons.
      * apply compare_pair_Ok in Hp as (gi & gj & d & ? & ? & ? & _).
        by exists gi, gj, d.
      * eapply IH; [by eexists|done].
    + intros Hall. destruct (Hall p) as (gi & gj & d & Hi & Hj & Hd);
        [by left|].
      assert (∃ acc', compare_pair subgraph_isomorphisms svd_rms self
                        all_graphs k acc p = Ok acc') as [acc' Hp].
      { eexists. apply compare_pair_Ok. by exists gi, gj, d. }
      rewrite Hp. simpl. apply IH. intros ij Hin. apply Hall. by right.
Qed.

Lemma similarity_graphs_Ok self all_graphs (gs : IndexGraph * IndexGraph) :
  similarity_graphs subgraph_isomorphisms svd_rms self all_graphs = Ok gs →
  ∃ g0, all_graphs !! 0 = Some g0 ∧
    foldlM (compare_pair subgraph_isomorphisms svd_rms self all_graphs
              (number_of_nodes g0))
      (mkIndexGraph (seq 0 (length all_graphs)) [],
       mkIndexGraph (seq 0 (length all_graphs)) [])
      (index_pairs (length all_graphs)) = Ok gs.
Proof.
  unfold similarity_graphs. intros H.
  apply bind_Ok in H as (g0 & Hg0 & H). apply getindex_Ok in Hg0.
  by exists g0.
Qed.

Lemma ig_has_edge_ordered (g : IndexGraph) i j :
  (∀ a b, (a, b) ∈ ig_edges g → a < b) → i < j →
  ig_has_edge g i j = true ↔ (i, j) ∈ ig_edges g.
Proof.
  intros Hord Hij. unfold ig_has_edge.
  rewrite orb_true_iff, !bool_decide_eq_true. split; [|by left].
  intros [?|H%Hord]; [done|lia].
Qed.

(** C4. When the double loop of [_do_clustering] completes on graphs that
    have the node count [k] of the pattern, then for every pair [i < j] of
    pooled graphs every mapping has a sequence distance and an RMSD, the
    sequence graph has the edge [(i, j)] exactly when the least sequence
    distance is below [k], and the structural graph has it exactly when the
    least RMSD is at most one half, one half included. Both graphs have the
    nodes [0 .. n-1]. *)
Theorem similarity_graph_edges (self : SubgraphPattern)
    (all_graphs : list Occurrence) (G_seq G_struct : IndexGraph) :
  similarity_graphs subgraph_isomorphisms svd_rms self all_graphs
    = Ok (G_seq, G_struct) →
  (∀ g0, all_graphs !! 0 = Some g0 →
         number_of_nodes g0 = number_of_nodes (G self)) →
  ig_nodes G_seq = seq 0 (length all_graphs) ∧
  ig_nodes G_struct = seq 0 (length all_graphs) ∧
  ∀ i j gi gj, i < j →
    all_graphs !! i = Some gi → all_graphs !! j = Some gj →
    ∃ ds rs seq_dist rmsd,
      Forall2 (λ m x, _subgraph_seq_dist gi gj m = Ok x)
              (subgraph_isomorphisms gi gj) ds ∧
      Forall2 (λ m x, _subgraph_rmsd svd_rms self gi gj m = Ok x)
              (subgraph_isomorphisms gi gj) rs ∧
      is_minimum Z.le seq_dist ds ∧
      is_minimum float_le rmsd rs ∧
      (ig_has_edge G_seq i j = true ↔
         (seq_dist < Z.of_nat (number_of_nodes (G self)))%Z) ∧
      (ig_has_edge G_struct i j = true ↔ float_le rmsd (Finite (1 # 2))).
Proof.
  intros H Hk. apply similarity_graphs_Ok in H as (g0 & Hg0 & H).
  rewrite (Hk _ Hg0) in H.
  pose proof (compare_loop_spec _ _ _ _ _ _ H) as (Hn1 & Hn2 & He1 & He2).
  assert (Hall : ∀ ij, ij ∈ index_pairs (length all_graphs) → ∃ gi gj d,
    all_graphs !! ij.1 = Some gi ∧ all_graphs !! ij.2 = Some gj ∧
    pair_distances subgraph_isomorphisms svd_rms self gi gj = Ok d).
  { eapply (proj1 (compare_loop_Ok_iff _ _ _ _ _)). by eexists. }
  simpl in *. split_and!; [done..|].
  intros i j gi gj Hij Hi Hj.
  assert (Hin : (i, j) ∈ index_pairs (length all_graphs)).
  { apply index_pairs_spec. split; [done|]. by eapply lookup_lt_Some. }
  destruct (Hall _ Hin) as (gi' & gj' & d & Hi' & Hj' & Hd). simpl in *.
  rewrite Hi in Hi'. rewrite Hj in Hj'.
  injection Hi' as <-. injection Hj' as <-.
  destruct (pair_distances_Ok _ _ _ _ Hd) as (ds & rs & Hds & Hrs & Hm1 & Hm2).
  exists ds, rs, d.1, d.2. split_and!; try done.
  - rewrite ig_has_edge_ordered; [|
      intros a b [[]%elem_of_nil|[Hab _]]%He1; apply index_pairs_spec in Hab; lia|done].
    rewrite He1. split.
    + intros [[]%elem_of_nil|[_ (gi' & gj' & d' & Hi' & Hj' & Hd' & Hlt)]].
      simpl in *. rewrite Hi in Hi'. rewrite Hj in Hj'.
      injection Hi' as <-. injection Hj' as <-.
      rewrite Hd in Hd'. by injection Hd' as <-.
    + intros Hlt. right. split; [done|]. by exists gi, gj, d.
  - rewrite ig_has_edge_ordered; [|
      intros a b [[]%elem_of_nil|[Hab _]]%He2; apply index_pairs_spec in Hab; lia|done].
    rewrite He2. split.
    + intros [[]%elem_of_nil|[_ (gi' & gj' & d' & Hi' & Hj' & Hd' & Hle)]].
      simpl in *. rewrite Hi in Hi'. rewrite Hj in Hj'.
      injection Hi' as <-. injection Hj' as <-.
      rewrite Hd in Hd'. by injection Hd' as <-.
    + intros Hle. right. split; [done|]. by exists gi, gj, d.
Qed.

(** X26 (_do_clustering): the double loop of [_do_clustering] completes
    exactly when the list of graphs is not empty and, for every pair
    [i < j], the distances of all the mappings are computed and reduced to
    their minima. *)
Theorem similarity_graphs_Ok_iff (self : SubgraphPattern)
    (all_graphs : list Occurrence) :
  (∃ gs, similarity_graphs subgraph_isomorphisms svd_rms self all_graphs
         = Ok gs) ↔
  all_graphs ≠ [] ∧
  ∀ i j gi gj, i < j →
    all_graphs !! i = Some gi → all_graphs !! j = Some gj →
    ∃ d, pair_distances subgraph_isomorphisms svd_rms self gi gj = Ok d.
Proof.
  split.
  - intros (gs & H). apply similarity_graphs_Ok in H as (g0 & Hg0 & H).
    split; [by intros ->|].
    intros i j gi gj Hij Hi Hj.
    assert (Hin : (i, j) ∈ index_pairs (length all_graphs)).
    { apply index_pairs_spec. split; [done|]. by eapply lookup_lt_Some. }
    assert (Hall : ∃ gs, foldlM (compare_pair subgraph_isomorphisms svd_rms
      self all_graphs (number_of_nodes g0))
      (mkIndexGraph (seq 0 (length all_graphs)) [],
       mkIndexGraph (seq 0 (length all_graphs)) [])
      (index_pairs (length all_graphs)) = Ok gs) by by eexists.
    pose proof (proj1 (compare_loop_Ok_iff _ _ _ _ _) Hall) as Hall'.
    destruct (Hall' _ Hin) as (gi' & gj' & d & Hi' & Hj' & Hd).
    simpl in *. rewrite Hi in Hi'. rewrite Hj in Hj'.
    injection Hi' as <-. injection Hj' as <-. by exists d.
  - intros [Hne Hall]. destruct all_graphs as [|g0 rest] eqn:E; [done|].
    rewrite <- E in *. unfold similarity_graphs, getindex.
    replace (all_graphs !! 0) with (Some g0) by by rewrite E.
    apply (proj2 (compare_loop_Ok_iff _ _ _ _ _)).
    intros [i j] [Hij Hj]%index_pairs_spec.
    destruct (lookup_lt_is_Some_2 all_graphs i) as [gi Hi]; [lia|].
    destruct (lookup_lt_is_Some_2 all_graphs j) as [gj Hgj]; [lia|].
    destruct (Hall i j gi gj Hij Hi Hgj) as [d Hd].
    by exists gi, gj, d.
Qed.

(** *** The two clusterings *)

Lemma do_clustering_Ok all_graphs self self' :
  _do_clustering subgraph_isomorphisms svd_rms all_graphs self = (Ok tt, self') →
  ∃ gs structural sequence,
    similarity_graphs subgraph_isomorphisms svd_rms self all_graphs = Ok gs ∧
    _gen_groups (sorted_by_len_desc (connected_components gs.2)) all_graphs
      = Ok structural ∧
    _gen_groups (sorted_by_len_desc (connected_components gs.1)) all_graphs
      = Ok sequence ∧
    self' = set_sequence_groups sequence (set_structural_groups structural self).
Proof.
  unfold _do_clustering. intros H. inv_M. subst.
  exists a0, a1, a3. by split_and!.
Qed.

Lemma set_clustering_Ok option self self' :
  set_clustering option self = (Ok tt, self') →
  ∃ g, self' = set_clustering_option option (set_groups g self).
Proof.
  unfold set_clustering, mbind, M_bind, getattr, raise, modify.
  destruct (String.eqb option "structural").
  - destruct (_structural_groups self) as [g|]; intros [=]. by exists g.
  - destruct (String.eqb option "sequence").
    + destruct (_sequence_groups self) as [g|]; intros [=]. by exists g.
    + by intros [=].
Qed.

Lemma similarity_graphs_wf self all_graphs (gs : IndexGraph * IndexGraph) :
  similarity_graphs subgraph_isomorphisms svd_rms self all_graphs = Ok gs →
  (ig_nodes gs.1 = seq 0 (length all_graphs) ∧ edges_in_nodes gs.1) ∧
  (ig_nodes gs.2 = seq 0 (length all_graphs) ∧ edges_in_nodes gs.2).
Proof.
  intros H. apply similarity_graphs_Ok in H as (g0 & _ & H).
  apply compare_loop_spec in H as (Hn1 & Hn2 & He1 & He2). simpl in *.
  split; (split; [done|]); intros a b Hab.
  - apply He1 in Hab as [[]%elem_of_nil|[[Hlt Hb]%index_pairs_spec _]].
    rewrite Hn1, !elem_of_seq. lia.
  - apply He2 in Hab as [[]%elem_of_nil|[[Hlt Hb]%index_pairs_spec _]].
    rewrite Hn2, !elem_of_seq. lia.
Qed.

Lemma partition_by_size_single (ids : list string) :
  partition_by_size {[1 := ids]} ids.
Proof.
  exists [ids]. split_and!.
  - intros [|[|k]]; by simplify_map_eq.
  - simpl. by rewrite app_nil_r.
  - by intros [|i] b1 b2 H1 H2.
Qed.

Lemma partition_by_size_Permutation gs (ids ids' : list string) :
  ids ≡ₚ ids' → partition_by_size gs ids → partition_by_size gs ids'.
Proof.
  intros Hp (blocks & H1 & H2 & H3). exists blocks.
  split_and!; [done| |done]. by rewrite H2.
Qed.

(** C5. When [find_protein_subgraphs] returns, both groupings exist, and
    each of them numbers from 1 the blocks of a partition of the keys of
    [protein_subgraphs]: every member of a group is an occurrence id, every
    occurrence id is in one group only and once, and no group is larger
    than the group before it. *)
Theorem groups_partition_occurrences (option : string)
    (self self' : SubgraphPattern) :
  find_protein_subgraphs size_weight subgraph_monomorphisms
    subgraph_isomorphisms svd_rms
    option self = (Ok tt, self') →
  ∃ structural sequence,
    _structural_groups self' = Some structural ∧
    _sequence_groups self' = Some sequence ∧
    ∀ gs, gs = structural ∨ gs = sequence →
      partition_by_size gs (elements (dom (protein_subgraphs self'))) ∧
      (∀ k l id, gs !! k = Some l → id ∈ l →
         id ∈ dom (protein_subgraphs self')) ∧
      (∀ id, id ∈ dom (protein_subgraphs self') →
         ∃ k l, gs !! k = Some l ∧ id ∈ l ∧
           ∀ k' l', gs !! k' = Some l' → id ∈ l' → k' = k) ∧
      (∀ k l, gs !! k = Some l → NoDup l) ∧
      (∀ k l1 l2, gs !! k = Some l1 → gs !! S k = Some l2 →
         length l2 ≤ length l1) ∧
      (∀ k, is_Some (gs !! k) → 1 ≤ k).
Proof.
  intros H. unfold find_protein_subgraphs in H.
  apply M_bind_Ok in H as (all_graphs & self1 & Hpool & H).
  destruct (pool_subgraphs_Ok _ _ _ Hpool)
    as (ids & Hids & Hlen & Hnd & Hdom & Hg & _).
  assert (Helems : ids ≡ₚ elements (dom (protein_subgraphs self1))).
  { rewrite Hdom. symmetry. by apply elements_list_to_set. }
  assert (Hfinish : ∀ structural sequence,
    protein_subgraphs self' = protein_subgraphs self1 →
    _structural_groups self' = Some structural →
    _sequence_groups self' = Some sequence →
    partition_by_size structural ids → partition_by_size sequence ids →
    ∃ structural sequence,
      _structural_groups self' = Some structural ∧
      _sequence_groups self' = Some sequence ∧
      ∀ gs, gs = structural ∨ gs = sequence →
        partition_by_size gs (elements (dom (protein_subgraphs self'))) ∧
        (∀ k l id, gs !! k = Some l → id ∈ l →
           id ∈ dom (protein_subgraphs self')) ∧
        (∀ id, id ∈ dom (protein_subgraphs self') →
           ∃ k l, gs !! k = Some l ∧ id ∈ l ∧
             ∀ k' l', gs !! k' = Some l' → id ∈ l' → k' = k) ∧
        (∀ k l, gs !! k = Some l → NoDup l) ∧
        (∀ k l1 l2, gs !! k = Some l1 → gs !! S k = Some l2 →
           length l2 ≤ length l1) ∧
        (∀ k, is_Some (gs !! k) → 1 ≤ k)).
  { intros structural sequence Hps Hs Hq Pst Psq.
    exists structural, sequence. split_and!; [done..|].
    intros gs Hgs.
    assert (Pgs : partition_by_size gs
                    (elements (dom (protein_subgraphs self')))).
    { rewrite Hps. eapply partition_by_size_Permutation; [done|].
      by destruct Hgs as [->| ->]. }
    split; [done|].
    destruct (partition_by_size_unique gs _ (NoDup_elements _) Pgs)
      as (P1 & P2 & P3 & P4 & P5).
    split_and!; try done.
    - intros k l id Hl Hid. apply elem_of_elements. by eapply P1.
    - intros id Hid. apply P2. by apply elem_of_elements. }
  destruct (1 <? length all_graphs) eqn:En.
  - apply M_bind_Ok in H as ([] & self2 & Hdo & Hset).
    apply do_clustering_Ok in Hdo
      as (gs & structural & sequence & Hsim & Hst & Hsq & ->).
    apply set_clustering_Ok in Hset as [g ->].
    destruct (similarity_graphs_wf _ _ _ Hsim) as [[N1 W1] [N2 W2]].
    apply (Hfinish structural sequence); try done.
    + by apply (gen_groups_partition gs.2 all_graphs).
    + by apply (gen_groups_partition gs.1 all_graphs).
  - unfold mbind, M_bind, lift, modify in H. rewrite Hids in H.
    injection H as <-.
    apply (Hfinish {[1 := ids]} {[1 := ids]});
      try apply partition_by_size_single; simpl; by rewrite ?Hg, ?insert_empty.
Qed.

(** C7. When at most one protein subgraph is found, both clusterings are the
    single group [1] that holds every occurrence id, the option is recorded
    as it was given, and the outcome is the same whatever the enumeration of
    isomorphisms and the superimposer are: no pairwise comparison takes
    place. *)
Theorem find_protein_subgraphs_at_most_one (option : string)
    (self self1 : SubgraphPattern) (all_graphs : list Occurrence) :
  pool_subgraphs size_weight subgraph_monomorphisms self = (Ok all_graphs, self1) →
  length all_graphs ≤ 1 →
  ∃ ids self',
    mapM graph_id all_graphs = Ok ids ∧
    length ids = length all_graphs ∧
    dom (protein_subgraphs self') = list_to_set ids ∧
    groups self' = {[1 := ids]} ∧
    _structural_groups self' = Some {[1 := ids]} ∧
    _sequence_groups self' = Some {[1 := ids]} ∧
    clustering_option self' = Some option ∧
    ∀ isomorphisms rms,
      find_protein_subgraphs size_weight subgraph_monomorphisms
        isomorphisms rms option self
      = (Ok tt, self').
Proof.
  intros Hpool Hlen.
  destruct (pool_subgraphs_Ok _ _ _ Hpool)
    as (ids & Hids & Hl & _ & Hdom & Hg & _).
  exists ids, (set_sequence_groups {[1 := ids]}
                (set_structural_groups {[1 := ids]}
                  (set_clustering_option option
                    (set_groups {[1 := ids]} self1)))).
  split_and!; try done.
  intros isomorphisms rms. unfold find_protein_subgraphs, mbind at 1, M_bind at 1.
  rewrite Hpool.
  replace (1 <? length all_graphs) with false
    by (symmetry; apply Nat.ltb_ge; lia).
  unfold mbind, M_bind, lift, modify. rewrite Hids. simpl.
  by rewrite Hg, insert_empty.
Qed.

End method_facts.

(** ** The worked example *)

Lemma generate_protein_subgraph_edges_witness :
  ∃ sg, _generate_protein_subgraph in_order triangle path3 emap_1abc = Ok sg ∧
    has_edge triangle "W10(A)" "W30(A)" = true ∧
    has_edge sg "W10(A)" "W30(A)" = false ∧
    (∀ u v, has_edge sg u v = true → has_edge triangle u v = true) ∧
    (∀ u v, has_edge sg u v = true ↔
       ∃ a b, has_edge path3 a b = true ∧
              image_of in_order a = u ∧ image_of in_order b = v).
Proof.
  eexists. split; [vm_compute; reflexivity|].
  split; [reflexivity|]. split; [reflexivity|].
  match goal with
  | |- context [has_edge ?sg _ _ = true → _] =>
      destruct (generate_protein_subgraph_edges in_order triangle path3
                  emap_1abc sg) as (H1 & H2 & _); [vm_compute; reflexivity|]
  end.
  split; [exact H2|exact H1].
Defined.

(** C1, counterexample. The triangle contains six monomorphic images of the
    path, and [total_support] records three. *)
Lemma total_support_is_not_embedding_count :
  ¬ (∀ self', run_1abc = (Ok tt, self') →
       ∀ pdb_id e, OD.get (support pattern_1abc) pdb_id = Some e →
         total_support self' !! pdb_id
         = Some (length (host_monomorphisms (init_graph e) (G pattern_1abc)))).
Proof.
  intros H. specialize (H run_1abc.2).
  assert (Hrun : run_1abc = (Ok (), run_1abc.2)) by (vm_compute; reflexivity).
  specialize (H Hrun "1abc"%string emap_1abc eq_refl).
  vm_compute in H. discriminate H.
Qed.

Lemma total_support_counts_survivors_witness :
  ∃ e sgs dds,
    OD.get (support pattern_1abc) "1abc" = Some e ∧
    unique_subgraphs e (G pattern_1abc)
      (host_monomorphisms (init_graph e) (G pattern_1abc)) = Ok (sgs, dds) ∧
    total_support run_1abc.2 !! "1abc" = Some (length sgs) ∧
    dds = degree_dict <$> sgs ∧ NoDup dds ∧
    length sgs ≤ length (host_monomorphisms (init_graph e) (G pattern_1abc)) ∧
    (∀ m, m ∈ host_monomorphisms (init_graph e) (G pattern_1abc) →
       ∃ sg, _generate_protein_subgraph m (init_graph e) (G pattern_1abc) e
             = Ok sg ∧ degree_dict sg ∈ dds).
Proof.
  apply (total_support_counts_survivors sum_of_weights host_monomorphisms
           occurrence_isomorphisms rms_same_or_one "structural" pattern_1abc).
  - vm_compute. reflexivity.
  - vm_compute. left.
Defined.



Lemma similarity_graph_edges_witness :
  ∃ ds rs seq_dist rmsd,
    Forall2 (λ m x, _subgraph_seq_dist occ_1abc_1 occ_2xyz_2 m = Ok x)
            (occurrence_isomorphisms occ_1abc_1 occ_2xyz_2) ds ∧
    Forall2 (λ m x, _subgraph_rmsd rms_same_or_one self_two
                      occ_1abc_1 occ_2xyz_2 m = Ok x)
            (occurrence_isomorphisms occ_1abc_1 occ_2xyz_2) rs ∧
    is_minimum Z.le seq_dist ds ∧
    is_minimum float_le rmsd rs ∧
    (ig_has_edge pairs_graph 0 1 = true ↔
       (seq_dist < Z.of_nat (number_of_nodes (G self_two)))%Z) ∧
    (ig_has_edge pairs_graph 0 1 = true ↔ float_le rmsd (Finite (1 # 2))).
Proof.
  destruct (similarity_graph_edges occurrence_isomorphisms rms_same_or_one
              self_two pooled_two pairs_graph pairs_graph) as (_ & _ & H).
  - vm_compute. reflexivity.
  - intros g0 Hg0. vm_compute in Hg0. injection Hg0 as <-. reflexivity.
  - apply (H 0 1 occ_1abc_1 occ_2xyz_2); [lia|vm_compute; reflexivity..].
Defined.

Lemma groups_partition_occurrences_witness :
  ∃ structural sequence,
    _structural_groups run_two.2 = Some structural ∧
    _sequence_groups run_two.2 = Some sequence ∧
    ∀ gs, gs = structural ∨ gs = sequence →
      partition_by_size gs (elements (dom (protein_subgraphs run_two.2))) ∧
      (∀ k l id, gs !! k = Some l → id ∈ l →
         id ∈ dom (protein_subgraphs run_two.2)) ∧
      (∀ id, id ∈ dom (protein_subgraphs run_two.2) →
         ∃ k l, gs !! k = Some l ∧ id ∈ l ∧
           ∀ k' l', gs !! k' = Some l' → id ∈ l' → k' = k) ∧
      (∀ k l, gs !! k = Some l → NoDup l) ∧
      (∀ k l1 l2, gs !! k = Some l1 → gs !! S k = Some l2 →
         length l2 ≤ length l1) ∧
      (∀ k, is_Some (gs !! k) → 1 ≤ k).
Proof.
  apply (groups_partition_occurrences sum_of_weights host_monomorphisms
           occurrence_isomorphisms rms_same_or_one "structural" pattern_two).
  vm_compute. reflexivity.
Defined.

(** C6, counterexample. On a pattern that was just built, the valid option
    ["structural"] makes [set_clustering] raise. *)
Lemma set_clustering_raises_on_valid_option :
  ¬ ((∃ e self', set_clustering "structural" pattern_1abc = (Raise e, self')) ↔
     "structural" ≠ "structural" ∧ "structural" ≠ "sequence").
Proof.
  intros [H _]. destruct H as [H _]; [|done].
  by exists AttributeError, pattern_1abc.
Qed.

Lemma set_clustering_spec_witness :
  ∃ structural sequence,
    _structural_groups run_two.2 = Some structural ∧
    _sequence_groups run_two.2 = Some sequence ∧
    ((∃ e self', set_clustering "sequence" run_two.2 = (Raise e, self')) ↔
       "sequence" ≠ "structural" ∧ "sequence" ≠ "sequence") ∧
    ("sequence" = "sequence" →
       set_clustering "sequence" run_two.2
       = (Ok tt, set_clustering_option "sequence"
                   (set_groups sequence run_two.2))).
Proof.
  eexists _, _. split; [vm_compute; reflexivity|].
  split; [vm_compute; reflexivity|].
  match goal with
  | |- context [set_groups ?q _] =>
      destruct (proj2 (set_clustering_spec "sequence" run_two.2) q q)
        as (H1 & _ & H3 & _); [vm_compute; reflexivity..|]
  end.
  split; [exact H1|exact H3].
Defined.

Lemma find_protein_subgraphs_at_most_one_witness :
  ∃ ids self',
    mapM graph_id pooled_cycle = Ok ids ∧
    length ids = length pooled_cycle ∧
    dom (protein_subgraphs self') = list_to_set ids ∧
    groups self' = {[1 := ids]} ∧
    _structural_groups self' = Some {[1 := ids]} ∧
    _sequence_groups self' = Some {[1 := ids]} ∧
    clustering_option self' = Some "sequence" ∧
    ∀ isomorphisms rms,
      find_protein_subgraphs sum_of_weights host_monomorphisms
        isomorphisms rms "sequence"
        pattern_cycle = (Ok tt, self').
Proof.
  apply (find_protein_subgraphs_at_most_one sum_of_weights host_monomorphisms "sequence"
           pattern_cycle self_cycle pooled_cycle).
  - vm_compute. reflexivity.
  - vm_compute. lia.
Defined.

Lemma subgraph_rmsd_never_raises_witness :
  ∃ r, _subgraph_rmsd rms_same_or_one self_two occ_1abc_1 occ_2xyz_2 namesakes
       = Ok r ∧
    ((∃ kv res1 res2, kv ∈ namesakes ∧
        residues emap_1abc !! kv.1 = Some res1 ∧
        residues emap_2xyz !! kv.2 = Some res2 ∧ ¬ share_atom res1 res2) →
     r = Inf) ∧
    (length namesakes < 2 → r = Inf) ∧
    ((∀ kv res1 res2, kv ∈ namesakes →
        residues emap_1abc !! kv.1 = Some res1 →
        residues emap_2xyz !! kv.2 = Some res2 → share_atom res1 res2) →
     2 ≤ length namesakes →
     ∃ pairs, Forall2 (reference_coords emap_1abc emap_2xyz) namesakes pairs ∧
              r = Finite (rms_same_or_one pairs.*1 pairs.*2)).
Proof.
  apply (subgraph_rmsd_never_raises rms_same_or_one self_two
           occ_1abc_1 occ_2xyz_2 namesakes emap_1abc emap_2xyz).
  - vm_compute. reflexivity.
  - vm_compute. reflexivity.
  - apply Forall_forall. repeat constructor; eexists; vm_compute; reflexivity.
Defined.

(** * Further properties of the class *)

(** ** Identifiers: __init__ and _update_id *)

Lemma replace_hash_no_hash s : contains_char "#" (replace_hash s) = false.
Proof.
  induction s as [|c s IH]; [done|]. cbn [replace_hash].
  destruct (Ascii.eqb c "#") eqn:E; [done|].
  cbn [contains_char]. by rewrite Ascii.eqb_sym, E.
Qed.

Lemma replace_hash_id s : contains_char "#" s = false → replace_hash s = s.
Proof.
  induction s as [|c s IH]; [done|]. cbn [contains_char replace_hash].
  intros [H1 H2]%orb_false_elim.
  rewrite Ascii.eqb_sym, H1. by rewrite IH.
Qed.

Lemma contains_char_append c s1 s2 :
  contains_char c (s1 +:+ s2) = contains_char c s1 || contains_char c s2.
Proof.
  induction s1 as [|x s1 IH]; simpl; [done|].
  by rewrite IH, orb_assoc.
Qed.

Lemma pretty_N_go_no_char c x s :
  (∀ d, Ascii.eqb c (pretty_N_char d) = false) →
  contains_char c s = false → contains_char c (pretty_N_go x s) = false.
Proof.
  intros Hc. revert s. induction (N.lt_wf_0 x) as [x _ IH]; intros s Hs.
  destruct (decide (x = 0)%N) as [->|Hx]; [by rewrite pretty_N_go_0|].
  rewrite pretty_N_go_step by lia. apply IH.
  - apply N.div_lt; lia.
  - cbn [contains_char]. by rewrite Hc, Hs.
Qed.

Lemma pretty_N_no_char c (x : N) :
  (∀ d, Ascii.eqb c (pretty_N_char d) = false) →
  contains_char c (pretty x) = false.
Proof.
  intros Hc. unfold pretty, pretty_N. case_decide.
  - cbn [contains_char]. specialize (Hc 0%N). simpl in Hc.
    by rewrite Hc.
  - by apply pretty_N_go_no_char.
Qed.

Lemma pretty_Z_no_char c (x : Z) :
  (∀ d, Ascii.eqb c (pretty_N_char d) = false) → Ascii.eqb c "-" = false →
  contains_char c (pretty x) = false.
Proof.
  intros Hc Hm. destruct x as [|x|x]; unfold pretty at 1, pretty_Z.
  - cbn [contains_char]. specialize (Hc 0%N). simpl in Hc. by rewrite Hc.
  - by apply (pretty_N_no_char c (Npos x)).
  - rewrite contains_char_append. cbn [contains_char]. rewrite Hm.
    by apply (pretty_N_no_char c (Npos x)).
Qed.

Lemma pretty_nat_no_char c (x : nat) :
  (∀ d, Ascii.eqb c (pretty_N_char d) = false) →
  contains_char c (pretty x) = false.
Proof. apply (pretty_N_no_char c (N.of_nat x)). Qed.

Lemma pretty_N_char_not_hash d : Ascii.eqb "#" (pretty_N_char d) = false.
Proof. unfold pretty_N_char. by repeat case_match. Qed.

Lemma str_index_app c p s :
  contains_char c p = false → str_index c (p +:+ String c s) = Ok (String.length p).
Proof.
  induction p as [|x p IH]; simpl.
  - by rewrite Ascii.eqb_refl.
  - intros [H1 H2]%orb_false_elim. rewrite Ascii.eqb_sym, H1, IH by done. done.
Qed.

Lemma str_index_Raise c s e :
  str_index c s = Raise e → e = ValueError ∧ contains_char c s = false.
Proof.
  induction s as [|x s IH]; cbn [str_index contains_char]; [by intros [= <-]|].
  rewrite (Ascii.eqb_sym c x). destruct (Ascii.eqb x c); [done|].
  destruct (str_index c s); [done|]. cbn. intros [= <-]. by apply IH.
Qed.

Lemma str_index_Ok c s i :
  str_index c s = Ok i →
  ∃ p, s = p +:+ String c (str_from (S i) s) ∧ String.length p = i ∧
       contains_char c p = false ∧ str_from i s = String c (str_from (S i) s).
Proof.
  revert i. induction s as [|x s IH]; intros i; cbn [str_index]; [done|].
  destruct (Ascii.eqb x c) eqn:E.
  - intros [= <-]. apply Ascii.eqb_eq in E as ->. by exists "".
  - destruct (str_index c s) as [j|] eqn:Ej; [|done]. cbn. intros [= <-].
    destruct (IH j eq_refl) as (p & Hs & Hl & Hp & Hf).
    exists (String x p).
    change (str_from (S (S j)) (String x s)) with (str_from (S j) s).
    change (str_from (S j) (String x s)) with (str_from j s).
    split_and!; [|by simpl; rewrite Hl| |done].
    + change (String x s = String x (p +:+ String c (str_from (S j) s))).
      by f_equal.
    + simpl. by rewrite (Ascii.eqb_sym c x), E, Hp.
Qed.

Lemma str_from_app p s : str_from (String.length p) (p +:+ s) = s.
Proof. induction p as [|x p IH]; cbn; [by destruct s|done]. Qed.

Lemma pretty_Z_no_underscore (x : Z) : contains_char "_" (pretty x) = false.
Proof.
  apply pretty_Z_no_char; [|done]. apply pretty_N_char_not_underscore.
Qed.

(** What [_update_id] does to an identifier with an underscore. *)
Lemma update_id_eq m s p rest :
  pattern_id s = p +:+ String "_" rest → contains_char "_" p = false →
  _update_id m s =
    (Ok tt,
     set_file_id (replace_hash (pretty (m + 1)%Z +:+ String "_" rest))
       (set_pattern_id (pretty (m + 1)%Z +:+ String "_" rest) s)).
Proof.
  intros Hid Hp. unfold _update_id, mbind, M_bind, read, lift, modify. simpl.
  rewrite Hid, str_index_app, str_from_app by done. simpl.
  set (id' := pretty (m + 1)%Z +:+ String "_" rest).
  destruct (contains_char "#" id') eqn:E; [done|].
  by rewrite replace_hash_id.
Qed.

(** X1 (__init__): the file identifier of a new pattern contains no ["#"];
    it is the identifier itself when the canonical string of the pattern has
    no ["#"], and differs from it otherwise. *)
Theorem init_file_id_has_no_hash
    (smiles : PatternGraph → string) (G0 : PatternGraph) (n : Z)
    (supp : list (string * emap)) (r2n : list (string * Z)) (thr : list Q) :
  let p := __init__ smiles G0 n supp r2n thr in
  contains_char "#" (_file_id p) = false ∧
  (_file_id p = pattern_id p ↔ contains_char "#" (smiles G0) = false).
Proof.
  cbn zeta.
  assert (contains_char "#" (pattern_id (__init__ smiles G0 n supp r2n thr))
          = contains_char "#" (smiles G0)) as Hid.
  { cbn [pattern_id __init__]. rewrite !contains_char_append.
    rewrite pretty_Z_no_char by (done || apply pretty_N_char_not_hash).
    rewrite pretty_nat_no_char by apply pretty_N_char_not_hash.
    change (contains_char "#" "_") with false.
    by rewrite !orb_false_l, orb_false_r. }
  split; [apply replace_hash_no_hash|]. rewrite <-Hid. split.
  - intros <-. apply replace_hash_no_hash.
  - apply replace_hash_id.
Qed.

Lemma OD_get_fmap {A B} (f : A → B) (l : list (node * A)) (u : node) :
  OD.get (map (λ na, (na.1, f na.2)) l) u = f <$> OD.get l u.
Proof.
  induction l as [|[k a] l IH]; simpl; [done|]. by case_decide.
Qed.

(** X2 (__init__): the pattern keeps the nodes, their order, their numeric
    labels and the edges of the graph it is built from; a node labelled
    ["#"] is labelled ["NP"], every other label is kept, so that no node of
    the pattern is labelled ["#"]. *)
Theorem init_relabels_hash_nodes
    (smiles : PatternGraph → string) (G0 : PatternGraph) (n : Z)
    (supp : list (string * emap)) (r2n : list (string * Z)) (thr : list Q) :
  let p := __init__ smiles G0 n supp r2n thr in
  nodes (G p) = nodes G0 ∧ edge_list (G p) = edge_list G0 ∧
  (∀ u, node_attr (G p) u = None ↔ node_attr G0 u = None) ∧
  (∀ u a0, node_attr G0 u = Some a0 →
     ∃ a, node_attr (G p) u = Some a ∧ pn_num_label a = pn_num_label a0 ∧
          pn_label a = (if String.eqb (pn_label a0) "#" then "NP"
                        else pn_label a0)) ∧
  (∀ u a, node_attr (G p) u = Some a → pn_label a ≠ "#").
Proof.
  cbn zeta. unfold node_attr, nodes. cbn [G __init__ node_list edge_list].
  split_and!.
  - rewrite <-list_fmap_compose. by apply list_fmap_ext.
  - done.
  - intros u. rewrite OD_get_fmap. by destruct (OD.get (node_list G0) u).
  - intros u a0 H. rewrite OD_get_fmap, H. eexists. split; [done|].
    unfold normalize_label. by destruct (String.eqb (pn_label a0) "#").
  - intros u a. rewrite OD_get_fmap.
    destruct (OD.get (node_list G0) u) as [a0|]; [|done]. intros [= <-].
    unfold normalize_label.
    destruct (String.eqb (pn_label a0) "#") eqn:E; [done|].
    by apply String.eqb_neq in E.
Qed.

(** X3 (_update_id after __init__): renumbering a new pattern gives the
    pattern that [__init__] builds from the same arguments with the new
    graph number: the number printed in front of the first underscore is
    replaced, the rest of the identifier and the file identifier follow. *)
Theorem update_id_after_init
    (smiles : PatternGraph → string) (G0 : PatternGraph) (n m : Z)
    (supp : list (string * emap)) (r2n : list (string * Z)) (thr : list Q) :
  _update_id m (__init__ smiles G0 n supp r2n thr)
  = (Ok tt, __init__ smiles G0 m supp r2n thr).
Proof.
  erewrite update_id_eq; [|reflexivity|apply pretty_Z_no_underscore]. done.
Qed.

Lemma str_index_no_occurrence c s :
  contains_char c s = false → str_index c s = Raise ValueError.
Proof.
  intros H. destruct (str_index c s) as [i|e] eqn:E.
  - apply str_index_Ok in E as (p & Hs & _). rewrite Hs in H.
    by rewrite contains_char_app in H.
  - by apply str_index_Raise in E as [-> _].
Qed.

(** X4 (_update_id): on an identifier without underscore [_update_id]
    raises [ValueError] and leaves the object as it was. *)
Theorem update_id_without_underscore (m : Z) (s : SubgraphPattern) :
  contains_char "_" (pattern_id s) = false →
  _update_id m s = (Raise ValueError, s).
Proof.
  intros H. unfold _update_id, mbind, M_bind, read, lift.
  by rewrite str_index_no_occurrence.
Qed.

(** X5 (_update_id): when [_update_id] returns, only the identifier and the
    file identifier have changed, the identifier is the new number followed
    by the old identifier from its first underscore on, the file identifier
    has no ["#"], and a later renumbering gives what it would have given on
    the original object: the last call wins. *)
Theorem update_id_last_wins (n : Z) (s s1 : SubgraphPattern) :
  _update_id n s = (Ok tt, s1) →
  (∃ p rest, pattern_id s = p +:+ "_" +:+ rest ∧
             contains_char "_" p = false ∧
             pattern_id s1 = pretty (n + 1)%Z +:+ "_" +:+ rest) ∧
  s1 = set_file_id (_file_id s1) (set_pattern_id (pattern_id s1) s) ∧
  contains_char "#" (_file_id s1) = false ∧
  ∀ m, _update_id m s1 = _update_id m s.
Proof.
  intros H.
  destruct (str_index "_" (pattern_id s)) as [i|e] eqn:E; cycle 1.
  { unfold _update_id, mbind, M_bind, read, lift in H. by rewrite E in H. }
  apply str_index_Ok in E as (p & Hs & _ & Hp & _).
  rewrite (update_id_eq n s p _ Hs Hp) in H. injection H as <-.
  split_and!.
  - exists p, (str_from (S i) (pattern_id s)).
    split_and!; [exact Hs|exact Hp|reflexivity].
  - done.
  - apply replace_hash_no_hash.
  - intros m. rewrite (update_id_eq m s p _ Hs Hp).
    set (rest := str_from (S i) (pattern_id s)).
    set (s1 := set_file_id _ _).
    by rewrite (update_id_eq m s1 (pretty (n + 1)%Z) rest eq_refl
                  (pretty_Z_no_underscore _)).
Qed.

(** ** The search: what the loops of find_protein_subgraphs compute *)

Lemma mapM_ext {A B} (f g : A → result B) (l : list A) :
  (∀ x, x ∈ l → f x = g x) → mapM f l = mapM g l.
Proof.
  induction l as [|x l IH]; intros H; simpl; [done|].
  rewrite (H x) by apply list_elem_of_here.
  destruct (g x); [|done]. simpl.
  rewrite IH; [done|]. intros y Hy. apply H. by apply list_elem_of_further.
Qed.

Lemma foldlM_ext {A B} (f g : A → B → result A) (a : A) (l : list B) :
  (∀ a x, x ∈ l → f a x = g a x) → foldlM f a l = foldlM g a l.
Proof.
  revert a. induction l as [|x l IH]; intros a H; simpl; [done|].
  rewrite (H a x) by apply list_elem_of_here.
  destruct (g a x); [|done]. simpl.
  apply IH. intros a' y Hy. apply H. by apply list_elem_of_further.
Qed.

Lemma pattern_eta (s : SubgraphPattern) :
  mkSubgraphPattern (G s) (support s) (total_support s) (protein_subgraphs s)
    (unsorted_graphs s) (groups s) (res_to_num_label s) (edge_thresholds s)
    (support_number s) (pattern_id s) (_file_id s) (clustering_option s)
    (_structural_groups s) (_sequence_groups s) = s.
Proof. by destruct s. Qed.

Lemma found_in_pdb_ext mono (s t : SubgraphPattern) pdb_id :
  G t = G s → support t = support s →
  found_in_pdb mono t pdb_id = found_in_pdb mono s pdb_id.
Proof. unfold found_in_pdb. by intros -> ->. Qed.

Lemma record_counts_other ts (counts : list (string * nat)) q :
  q ∉ counts.*1 → record_counts ts counts !! q = ts !! q.
Proof.
  revert ts. induction counts as [|[k c] counts IH]; intros ts Hq; [done|].
  cbn in *. apply not_elem_of_cons in Hq as [Hk Hq].
  unfold record_counts in *. cbn. rewrite IH by done.
  by rewrite lookup_insert_ne.
Qed.

Lemma bind_Raise {A B} (m : result A) (f : A → result B) e :
  m ≫= f = Raise e ↔ m = Raise e ∨ ∃ a, m = Ok a ∧ f a = Raise e.
Proof.
  destruct m as [a|e']; simpl; split.
  - intros H. right. by exists a.
  - by intros [[=]|(a' & [= <-] & H)].
  - intros [= <-]. by left.
  - by intros [[= <-]|(a' & [=] & _)].
Qed.

Lemma getitem_Raise {A} (o : option A) e : getitem o = Raise e → e = KeyError.
Proof. destruct o; simpl; congruence. Qed.

Lemma foldlM_Raise {A B} (P : exn → Prop) (f : A → B → result A) a l e :
  (∀ a x e, x ∈ l → f a x = Raise e → P e) → foldlM f a l = Raise e → P e.
Proof.
  revert a. induction l as [|x l IH]; intros a Hf; simpl; [done|].
  intros [H|(a' & _ & H)]%bind_Raise.
  - eapply Hf; [apply list_elem_of_here|done].
  - eapply IH; [|done]. intros ???? ?. eapply Hf; [|done].
    by apply list_elem_of_further.
Qed.

Lemma mapM_Raise {A B} (P : exn → Prop) (f : A → result B) l e :
  (∀ x e, x ∈ l → f x = Raise e → P e) → mapM f l = Raise e → P e.
Proof.
  induction l as [|x l IH]; intros Hf; simpl; [done|].
  intros [H|(b & _ & [H|(k & _ & H)]%bind_Raise)]%bind_Raise.
  - eapply Hf; [apply list_elem_of_here|done].
  - eapply IH; [|done]. intros ??? ?. eapply Hf; [|done].
    by apply list_elem_of_further.
  - done.
Qed.

Lemma generate_protein_subgraph_Raise mapping (host : HostGraph)
    (pattern : PatternGraph) (e : emap) err :
  _generate_protein_subgraph mapping host pattern e = Raise err →
  err = KeyError.
Proof.
  unfold _generate_protein_subgraph.
  intros [H|(keyed & _ & [H|(sg & _ & H)]%bind_Raise)]%bind_Raise.
  - revert H. apply (mapM_Raise (λ e, e = KeyError)). intros n e' _.
    by intros [H%getitem_Raise|(r & _ & [=])]%bind_Raise.
  - revert H. apply (foldlM_Raise (λ e, e = KeyError)). intros sg n e' _.
    intros [H%getitem_Raise|(h & _ & H)]%bind_Raise; [done|].
    by apply bind_Raise in H as [H%getitem_Raise|(r & _ & [=])].
  - revert H. apply (foldlM_Raise (λ e, e = KeyError)). intros sg' ed e' _.
    by intros [H%getitem_Raise|(a & _ & [=])]%bind_Raise.
Qed.

Lemma unique_subgraphs_Raise (e : emap) (pattern : PatternGraph) mappings err :
  unique_subgraphs e pattern mappings = Raise err → err = KeyError.
Proof.
  unfold unique_subgraphs. apply (foldlM_Raise (λ e, e = KeyError)).
  intros acc m e' _.
  intros [H%generate_protein_subgraph_Raise|(sg & _ & H)]%bind_Raise; [done|].
  by case_bool_decide.
Qed.

Section search_facts.
Variable size_weight : Occurrence → Q.
Variable subgraph_monomorphisms :
  HostGraph → PatternGraph → list (list (node * node)).
Variable subgraph_isomorphisms :
  Occurrence → Occurrence → list (list (node * node)).
Variable svd_rms : list coord → list coord → Q.

Lemma find_subgraph_in_pdb_eq pdb_id s :
  _find_subgraph_in_pdb subgraph_monomorphisms pdb_id s =
    match found_in_pdb subgraph_monomorphisms s pdb_id with
    | Ok sgs =>
        (Ok sgs,
         set_total_support (<[pdb_id := length sgs]> (total_support s)) s)
    | Raise e => (Raise e, s)
    end.
Proof.
  unfold _find_subgraph_in_pdb, found_in_pdb, mbind, M_bind, read, lift,
    modify, mret, M_ret. cbn.
  destruct (getitem (OD.get (support s) pdb_id)) as [e|]; [|done]. cbn.
  by destruct (unique_subgraphs _ _ _).
Qed.

(** The loop over the support, whatever its outcome: it writes nothing but
    [total_support], and there only the entries of the structures in the
    list; when it returns, it has pooled the subgraphs of every structure
    in order and recorded their numbers. *)
Lemma find_in_support_outcome pdb_ids acc s r s' :
  find_in_support subgraph_monomorphisms pdb_ids acc s = (r, s') →
  ∃ ts, s' = set_total_support ts s ∧
    (∀ q, q ∉ pdb_ids → ts !! q = total_support s !! q) ∧
    match r with
    | Ok all_graphs =>
        ∃ sgss,
          mapM (found_in_pdb subgraph_monomorphisms s) pdb_ids = Ok sgss ∧
          all_graphs = acc ++ concat sgss ∧
          ts = record_counts (total_support s)
                 (zip pdb_ids (length <$> sgss))
    | Raise e =>
        mapM (found_in_pdb subgraph_monomorphisms s) pdb_ids = Raise e
    end.
Proof.
  revert acc s. induction pdb_ids as [|pdb_id pdb_ids IH]; intros acc s H.
  - injection H as <- <-. exists (total_support s).
    split_and!; [by rewrite <-(pattern_eta s) at 1|done|].
    exists []. by rewrite app_nil_r.
  - cbn [find_in_support] in H. unfold mbind at 1, M_bind at 1 in H.
    rewrite find_subgraph_in_pdb_eq in H.
    destruct (found_in_pdb subgraph_monomorphisms s pdb_id) as [sgs|e] eqn:E.
    + apply IH in H as (ts & -> & Hq & Hr).
      exists ts. split_and!; [done| |].
      * intros q [Hq1 Hq2]%not_elem_of_cons. rewrite Hq by done.
        cbn. by rewrite lookup_insert_ne.
      * rewrite (mapM_ext _ (found_in_pdb subgraph_monomorphisms s)) in Hr
          by (intros; by apply found_in_pdb_ext).
        destruct r as [all_graphs|e].
        -- destruct Hr as (sgss & Hm & -> & ->). exists (sgs :: sgss).
           cbn. rewrite E, Hm. cbn. by rewrite <-app_assoc.
        -- cbn. by rewrite E, Hr.
    + injection H as <- <-. exists (total_support s).
      split_and!; [by rewrite <-(pattern_eta s) at 1|done|].
      cbn. by rewrite E.
Qed.

Lemma assign_ids_iff i gs s gs' s' :
  assign_ids i gs s = (Ok gs', s') ↔
  name_graphs i gs = Ok gs' ∧
  s' = set_protein_subgraphs (index_by_id (protein_subgraphs s) gs') s.
Proof.
  revert i s gs' s'. induction gs as [|g gs IH]; intros i s gs' s'.
  - cbn. split.
    + intros [= <- <-]. split; [done|]. by rewrite <-(pattern_eta s) at 1.
    + intros [[= <-] ->]. f_equal. by destruct s.
  - cbn [assign_ids name_graphs].
    unfold mbind at 1, M_bind at 1, lift.
    destruct (getitem (oi_pdb_id (graph_attr g))) as [pdb_id|]; cbn;
      [|split; [done|by intros [? _]]].
    set (g' := set_graph_id g _).
    unfold mbind at 1, M_bind at 1, modify.
    unfold mbind at 1, M_bind at 1.
    set (s1 := set_protein_subgraphs _ s).
    destruct (assign_ids (S i) gs s1) as [[rest|e] s2] eqn:E.
    + apply IH in E as [Hn ->]. rewrite Hn. cbn. split.
      * by intros [= <- <-].
      * by intros [[= <-] ->].
    + destruct (name_graphs (S i) gs) as [rest|e'] eqn:En.
      * assert (assign_ids (S i) gs s1 = (Ok rest, set_protein_subgraphs
                  (index_by_id (protein_subgraphs s1) rest) s1)) as E'
          by by apply IH.
        congruence.
      * cbn. split; [done|by intros [? _]].
Qed.

Lemma pool_subgraphs_iff s all_graphs sp :
  pool_subgraphs size_weight subgraph_monomorphisms s = (Ok all_graphs, sp) ↔
  ∃ sgss,
    mapM (found_in_pdb subgraph_monomorphisms s) (OD.keys (support s))
      = Ok sgss ∧
    name_graphs 0
      (stable_sort (λ x y : Occurrence,
                      negb (Qle_bool (size_weight y) (size_weight x)))
                   (concat sgss)) = Ok all_graphs ∧
    sp = set_protein_subgraphs (index_by_id ∅ all_graphs)
           (set_total_support
              (record_counts (total_support s)
                 (zip (OD.keys (support s)) (length <$> sgss)))
              (set_protein_subgraphs ∅ (set_groups ∅ s))).
Proof.
  unfold pool_subgraphs, mbind, M_bind, modify, read.
  change (support (set_protein_subgraphs ∅ (set_groups ∅ s)))
    with (support s).
  destruct (find_in_support subgraph_monomorphisms (OD.keys (support s)) []
              (set_protein_subgraphs ∅ (set_groups ∅ s))) as [r s2] eqn:E.
  apply find_in_support_outcome in E as (ts & -> & _ & Hr).
  rewrite (mapM_ext _ (found_in_pdb subgraph_monomorphisms s)) in Hr
    by (intros; by apply found_in_pdb_ext).
  destruct r as [all0|e].
  - destruct Hr as (sgss & Hm & -> & ->). cbn [app]. rewrite assign_ids_iff.
    split.
    + intros [Hn ->]. by exists sgss.
    + intros (sgss' & Hm' & Hn & ->). rewrite Hm in Hm'.
      by injection Hm' as <-.
  - split; [done|]. intros (sgss & Hm & _). congruence.
Qed.

Lemma host_of_ext (s t : SubgraphPattern) sg :
  support t = support s → host_of t sg = host_of s sg.
Proof. unfold host_of. by intros ->. Qed.

Lemma subgraph_rmsd_ext (s t : SubgraphPattern) sg1 sg2 mapping :
  support t = support s →
  _subgraph_rmsd svd_rms t sg1 sg2 mapping
  = _subgraph_rmsd svd_rms s sg1 sg2 mapping.
Proof. intros H. unfold _subgraph_rmsd. by rewrite !(host_of_ext s t). Qed.

Lemma pair_distances_ext (s t : SubgraphPattern) gi gj :
  support t = support s →
  pair_distances subgraph_isomorphisms svd_rms t gi gj
  = pair_distances subgraph_isomorphisms svd_rms s gi gj.
Proof.
  intros H. unfold pair_distances. f_equal. apply foldlM_ext.
  intros acc mapping _. by rewrite (subgraph_rmsd_ext s t).
Qed.

Lemma similarity_graphs_ext (s t : SubgraphPattern) all_graphs :
  support t = support s →
  similarity_graphs subgraph_isomorphisms svd_rms t all_graphs
  = similarity_graphs subgraph_isomorphisms svd_rms s all_graphs.
Proof.
  intros H. unfold similarity_graphs.
  destruct (getindex all_graphs 0); [|done]. cbn. apply foldlM_ext.
  intros gs ij _. unfold compare_pair.
  destruct (getindex all_graphs ij.1); [|done].
  destruct (getindex all_graphs ij.2); [|done]. cbn.
  by rewrite (pair_distances_ext s t).
Qed.

Lemma do_clustering_eq all_graphs s gs structural sequence :
  similarity_graphs subgraph_isomorphisms svd_rms s all_graphs = Ok gs →
  _gen_groups (sorted_by_len_desc (connected_components gs.2)) all_graphs
    = Ok structural →
  _gen_groups (sorted_by_len_desc (connected_components gs.1)) all_graphs
    = Ok sequence →
  _do_clustering subgraph_isomorphisms svd_rms all_graphs s
  = (Ok tt, set_sequence_groups sequence (set_structural_groups structural s)).
Proof.
  intros H1 H2 H3.
  unfold _do_clustering, mbind, M_bind, read, lift, modify.
  by rewrite H1, H2, H3.
Qed.

Lemma set_clustering_ext option (s t s' : SubgraphPattern) :
  _structural_groups t = _structural_groups s →
  _sequence_groups t = _sequence_groups s →
  set_clustering option s = (Ok tt, s') →
  ∃ g, s' = set_clustering_option option (set_groups g s) ∧
       set_clustering option t
       = (Ok tt, set_clustering_option option (set_groups g t)) ∧
       ((option = "structural" ∧ _structural_groups s = Some g) ∨
        (option = "sequence" ∧ _sequence_groups s = Some g)).
Proof.
  intros E1 E2.
  assert (∀ g, (option = "structural" ∧ _structural_groups s = Some g) ∨
               (option = "sequence" ∧ _sequence_groups s = Some g) →
          set_clustering option t
          = (Ok tt, set_clustering_option option (set_groups g t))) as Ht.
  { intros g Hg.
    unfold set_clustering, mbind, M_bind, getattr, raise, modify.
    destruct Hg as [[-> Hg]|[-> Hg]]; cbn; by rewrite ?E1, ?E2, Hg. }
  unfold set_clustering, mbind, M_bind, getattr, raise, modify.
  destruct (String.eqb option "structural") eqn:Ho.
  - apply String.eqb_eq in Ho as ->.
    destruct (_structural_groups s) as [g|] eqn:Eg; intros [=].
    exists g. split_and!; [done|apply Ht|]; auto.
  - destruct (String.eqb option "sequence") eqn:Ho'.
    + apply String.eqb_eq in Ho' as ->.
      destruct (_sequence_groups s) as [g|] eqn:Eg; intros [=].
      exists g. split_and!; [done|apply Ht|]; auto.
    + by intros [=].
Qed.

Lemma record_counts_snoc ts (counts : list (string * nat)) k c :
  record_counts ts (counts ++ [(k, c)]) = <[k := c]> (record_counts ts counts).
Proof. unfold record_counts. by rewrite foldl_app. Qed.

Lemma record_counts_agree ts ts' (counts : list (string * nat)) q :
  q ∈ counts.*1 → record_counts ts counts !! q = record_counts ts' counts !! q.
Proof.
  induction counts as [|[k c] counts IH] using rev_ind; [by intros ?%elem_of_nil|].
  rewrite fmap_app, elem_of_app, !record_counts_snoc. cbn. intros Hq.
  destruct (decide (q = k)) as [->|Hne]; [by rewrite !lookup_insert_eq|].
  rewrite !lookup_insert_ne by done. apply IH.
  destruct Hq as [Hq|Hq%list_elem_of_singleton]; [done|congruence].
Qed.

Lemma record_counts_idemp ts (counts : list (string * nat)) :
  record_counts (record_counts ts counts) counts = record_counts ts counts.
Proof.
  apply map_eq. intros q. destruct (decide (q ∈ counts.*1)).
  - by apply record_counts_agree.
  - by rewrite record_counts_other.
Qed.

(** The search reads the pattern graph and the support only: on an object
    with the same two it returns as well, stores the same subgraphs and
    groupings, and writes the same counts. *)
Lemma find_protein_subgraphs_determined option (s t s1 : SubgraphPattern) :
  G t = G s → support t = support s →
  find_protein_subgraphs size_weight subgraph_monomorphisms
    subgraph_isomorphisms svd_rms
    option s = (Ok tt, s1) →
  ∃ counts ps gr cs st sq,
    counts.*1 = OD.keys (support s) ∧
    s1 = mkSubgraphPattern (G s) (support s)
           (record_counts (total_support s) counts) ps
           (unsorted_graphs s) gr (res_to_num_label s) (edge_thresholds s)
           (support_number s) (pattern_id s) (_file_id s) cs st sq ∧
    find_protein_subgraphs size_weight subgraph_monomorphisms
      subgraph_isomorphisms
      svd_rms option t
    = (Ok tt,
       mkSubgraphPattern (G t) (support t)
         (record_counts (total_support t) counts) ps
         (unsorted_graphs t) gr (res_to_num_label t) (edge_thresholds t)
         (support_number t) (pattern_id t) (_file_id t) cs st sq).
Proof.
  intros HG Hsupp H. unfold find_protein_subgraphs in H |- *.
  apply M_bind_Ok in H as (all_graphs & sp & Hpool & H).
  pose proof Hpool as Hpool'.
  apply pool_subgraphs_iff in Hpool' as (sgss & Hm & Hn & Hsp).
  assert (pool_subgraphs size_weight subgraph_monomorphisms t
          = (Ok all_graphs,
             set_protein_subgraphs (index_by_id ∅ all_graphs)
               (set_total_support
                  (record_counts (total_support t)
                     (zip (OD.keys (support s)) (length <$> sgss)))
                  (set_protein_subgraphs ∅ (set_groups ∅ t))))) as Hpt.
  { apply pool_subgraphs_iff. exists sgss. rewrite Hsupp.
    split_and!; [|done..]. rewrite <-Hm. apply mapM_ext.
    intros. by apply found_in_pdb_ext. }
  exists (zip (OD.keys (support s)) (length <$> sgss)).
  assert ((zip (OD.keys (support s)) (length <$> sgss)).*1
          = OD.keys (support s)) as Hkeys.
  { apply fst_zip. apply mapM_Ok, Forall2_length in Hm.
    rewrite length_fmap. lia. }
  unfold mbind at 1, M_bind at 1. rewrite Hpt. clear Hpt Hpool.
  destruct (1 <? length all_graphs).
  - apply M_bind_Ok in H as ([] & sp2 & Hdo & Hset).
    apply do_clustering_Ok in Hdo as (gs & st & sq & Hsim & Hst & Hsq & ->).
    eapply (set_clustering_ext _ _
              (set_sequence_groups sq (set_structural_groups st
                 (set_protein_subgraphs (index_by_id ∅ all_graphs)
                    (set_total_support
                       (record_counts (total_support t)
                          (zip (OD.keys (support s)) (length <$> sgss)))
                       (set_protein_subgraphs ∅ (set_groups ∅ t)))))))
      in Hset as (g & -> & Ht & _); [|done..].
    exists (index_by_id ∅ all_graphs), g, (Some option), (Some st), (Some sq).
    split_and!; [done|by rewrite Hsp|].
    apply M_bind_Ok. eexists tt, _. split; [|exact Ht].
    apply (do_clustering_eq _ _ gs); [|done..].
    rewrite <-Hsim. apply similarity_graphs_ext. by rewrite Hsp.
  - apply M_bind_Ok in H as (ids & sp2 & Hids & H).
    unfold lift in Hids. apply pair_equal_spec in Hids as [Hids <-].
    unfold mbind, M_bind, modify in H. injection H as <-.
    exists (index_by_id ∅ all_graphs), (<[1 := ids]> ∅), (Some option),
      (Some (<[1 := ids]> ∅)), (Some (<[1 := ids]> ∅)).
    split_and!; [done|by rewrite Hsp|].
    unfold mbind, M_bind, lift, modify. by rewrite Hids.
Qed.

Lemma same_pattern_refl s : same_pattern s s.
Proof. by repeat split. Qed.

Lemma same_pattern_trans s t u :
  same_pattern s t → same_pattern t u → same_pattern s u.
Proof.
  unfold same_pattern.
  intros (?&?&?&?&?&?&?&?) (?&?&?&?&?&?&?&?). split_and!; congruence.
Qed.

Lemma keeps_pattern_bind {A B} (m : M A) (f : A → M B) :
  keeps_pattern m → (∀ a, keeps_pattern (f a)) → keeps_pattern (m ≫= f).
Proof.
  intros Hm Hf self r self' H. unfold mbind, M_bind in H.
  destruct (m self) as [[a|e] self1] eqn:E.
  - destruct (Hm _ _ _ E) as [E1 E2]. destruct (Hf a _ _ _ H) as [F1 F2].
    split; [by eapply same_pattern_trans|congruence].
  - injection H as <- <-. by eapply Hm.
Qed.

Lemma keeps_pattern_lift {A} (r : result A) : keeps_pattern (lift r).
Proof. intros self r' self' [= <- <-]. split; [apply same_pattern_refl|done]. Qed.

Lemma keeps_pattern_read {A} (f : SubgraphPattern → A) : keeps_pattern (read f).
Proof. intros self r' self' [= <- <-]. split; [apply same_pattern_refl|done]. Qed.

Lemma keeps_pattern_ret {A} (a : A) : keeps_pattern (mret a).
Proof. intros self r' self' [= <- <-]. split; [apply same_pattern_refl|done]. Qed.

Lemma keeps_pattern_raise {A} e : keeps_pattern (raise (A:=A) e).
Proof. intros self r' self' [= <- <-]. split; [apply same_pattern_refl|done]. Qed.

Lemma keeps_pattern_getattr {A} (f : SubgraphPattern → option A) :
  keeps_pattern (getattr f).
Proof.
  intros self r' self'. unfold getattr.
  destruct (f self); intros [= <- <-]; (split; [apply same_pattern_refl|done]).
Qed.

Lemma keeps_pattern_modify (f : SubgraphPattern → SubgraphPattern) :
  (∀ self, same_pattern self (f self) ∧
           total_support (f self) = total_support self) →
  keeps_pattern (modify f).
Proof. intros Hf self r' self' [= <- <-]. apply Hf. Qed.

Ltac keeps_pat :=
  repeat first
    [ apply keeps_pattern_bind; [|intros ?]
    | apply keeps_pattern_lift
    | apply keeps_pattern_read
    | apply keeps_pattern_ret
    | apply keeps_pattern_raise
    | apply keeps_pattern_getattr
    | apply keeps_pattern_modify; by intros ? ].

Lemma keeps_pattern_set_clustering option : keeps_pattern (set_clustering option).
Proof.
  unfold set_clustering.
  destruct (String.eqb option "structural"); [keeps_pat|].
  destruct (String.eqb option "sequence"); keeps_pat.
Qed.

Lemma keeps_pattern_do_clustering all_graphs :
  keeps_pattern (_do_clustering subgraph_isomorphisms svd_rms all_graphs).
Proof. unfold _do_clustering. keeps_pat. Qed.

Lemma keeps_pattern_assign_ids i all_graphs :
  keeps_pattern (assign_ids i all_graphs).
Proof.
  revert i. induction all_graphs as [|g gs IH]; intros i; simpl; keeps_pat.
  apply IH.
Qed.

Lemma M_bind_cases {A B} (m : M A) (f : A → M B) s r s' :
  (m ≫= f) s = (r, s') →
  (∃ a s1, m s = (Ok a, s1) ∧ f a s1 = (r, s')) ∨
  (∃ e, m s = (Raise e, s') ∧ r = Raise e).
Proof.
  unfold mbind, M_bind. destruct (m s) as [[a|e] s1].
  - intros H. left. by exists a, s1.
  - intros [= <- <-]. right. by exists e.
Qed.

Lemma modify_bind {B} (f : SubgraphPattern → SubgraphPattern) (k : unit → M B) s :
  (modify f ≫= k) s = k tt (f s).
Proof. done. Qed.

Lemma read_bind {A B} (f : SubgraphPattern → A) (k : A → M B) s :
  (read f ≫= k) s = k (f s) s.
Proof. done. Qed.

Lemma keeps_pattern_cluster option all_graphs :
  keeps_pattern
    (if 1 <? length all_graphs then
       _do_clustering subgraph_isomorphisms svd_rms all_graphs;;
       set_clustering option
     else
       ids ← lift (mapM graph_id all_graphs);
       modify (λ self, set_groups (<[1 := ids]> (groups self)) self);;
       modify (set_clustering_option option);;
       modify (λ self, set_structural_groups (groups self) self);;
       modify (λ self, set_sequence_groups (groups self) self)).
Proof.
  destruct (1 <? length all_graphs).
  - apply keeps_pattern_bind; [apply keeps_pattern_do_clustering|intros ?].
    apply keeps_pattern_set_clustering.
  - keeps_pat.
Qed.

Lemma pool_subgraphs_frame s r sp :
  pool_subgraphs size_weight subgraph_monomorphisms s = (r, sp) →
  same_pattern s sp ∧
  ∀ q, q ∉ OD.keys (support s) → total_support sp !! q = total_support s !! q.
Proof.
  unfold pool_subgraphs. rewrite !modify_bind, read_bind.
  change (support (set_protein_subgraphs ∅ (set_groups ∅ s)))
    with (support s).
  intros [(all0 & s2 & E1 & H)|(e & E1 & ->)]%M_bind_cases;
    apply find_in_support_outcome in E1 as (ts & -> & Hts & _).
  - apply keeps_pattern_assign_ids in H as [H1 H2]. split.
    + eapply same_pattern_trans; [|exact H1]. by repeat split.
    + intros q Hq. rewrite H2. by apply Hts.
  - split; [by repeat split|]. intros q Hq. by apply Hts.
Qed.

(** X6 (find_protein_subgraphs): whether the search returns or raises, it
    writes none of [G], [support], [unsorted_graphs], [res_to_num_label],
    [edge_thresholds], [support_number], [id] and [_file_id], and in
    [total_support] it writes only entries of structures of the support: an
    entry of any other structure, left there by an earlier search, stays. *)
Theorem find_protein_subgraphs_frame (option : string)
    (s s' : SubgraphPattern) (r : result unit) :
  find_protein_subgraphs size_weight subgraph_monomorphisms
    subgraph_isomorphisms svd_rms
    option s = (r, s') →
  same_pattern s s' ∧
  ∀ q, q ∉ OD.keys (support s) → total_support s' !! q = total_support s !! q.
Proof.
  unfold find_protein_subgraphs.
  intros [(all_graphs & sp & Hpool & H)|(e & Hpool & ->)]%M_bind_cases;
    apply pool_subgraphs_frame in Hpool as [P1 P2]; [|done].
  apply keeps_pattern_cluster in H as [H1 H2]. split.
  - by eapply same_pattern_trans.
  - intros q Hq. rewrite H2. by apply P2.
Qed.

(** X7 (find_protein_subgraphs): the search reads only the pattern graph
    and the support. On an object with the same two, whatever its other
    attributes hold, it returns as well and stores the same protein
    subgraphs, groups, clustering option and groupings, and the same count
    for every structure of the support. *)
Theorem find_protein_subgraphs_reads_pattern_and_support (option : string)
    (s t s1 : SubgraphPattern) :
  G t = G s → support t = support s →
  find_protein_subgraphs size_weight subgraph_monomorphisms
    subgraph_isomorphisms svd_rms
    option s = (Ok tt, s1) →
  ∃ t1,
    find_protein_subgraphs size_weight subgraph_monomorphisms
      subgraph_isomorphisms
      svd_rms option t = (Ok tt, t1) ∧
    protein_subgraphs t1 = protein_subgraphs s1 ∧
    groups t1 = groups s1 ∧
    clustering_option t1 = clustering_option s1 ∧
    _structural_groups t1 = _structural_groups s1 ∧
    _sequence_groups t1 = _sequence_groups s1 ∧
    ∀ pdb_id, pdb_id ∈ OD.keys (support s) →
      total_support t1 !! pdb_id = total_support s1 !! pdb_id.
Proof.
  intros HG Hsupp H.
  destruct (find_protein_subgraphs_determined option s t s1 HG Hsupp H)
    as (counts & ps & gr & cs & st & sq & Hk & -> & Ht).
  eexists. split; [exact Ht|]. cbn. split_and!; try done.
  intros pdb_id Hin. apply record_counts_agree. by rewrite Hk.
Qed.

(** X8 (find_protein_subgraphs): a search that returned can be run again:
    the second run returns as well and leaves the object exactly as the
    first run left it. *)
Theorem find_protein_subgraphs_twice (option : string)
    (s s1 : SubgraphPattern) :
  find_protein_subgraphs size_weight subgraph_monomorphisms
    subgraph_isomorphisms svd_rms
    option s = (Ok tt, s1) →
  find_protein_subgraphs size_weight subgraph_monomorphisms
    subgraph_isomorphisms svd_rms
    option s1 = (Ok tt, s1).
Proof.
  intros H.
  destruct (find_protein_subgraphs_determined option s s s1 eq_refl eq_refl H)
    as (counts & ps & gr & cs & st & sq & Hk & Hs1 & _).
  destruct (find_protein_subgraphs_determined option s s1 s1) as
    (counts' & ps' & gr' & cs' & st' & sq' & Hk' & Hs1' & Ht);
    [by rewrite Hs1..|done|].
  rewrite Ht. f_equal. etrans; [|symmetry; exact Hs1'].
  replace (total_support s1) with (record_counts (total_support s) counts')
    by (by rewrite Hs1').
  rewrite record_counts_idemp. f_equal; by rewrite Hs1'.
Qed.

(** X9 (_find_subgraph_in_pdb): the search in one structure fails only with
    [KeyError], it does so when the structure is not in the support, and a
    failed search leaves the object as it was; a search that returns has
    written one thing, the number of subgraphs it returns, under the name of
    the structure in [total_support]. *)
Theorem find_subgraph_in_pdb_outcome (pdb_id : string)
    (s s' : SubgraphPattern) (r : result (list Occurrence)) :
  _find_subgraph_in_pdb subgraph_monomorphisms pdb_id s = (r, s') →
  match r with
  | Ok sgs =>
      pdb_id ∈ OD.keys (support s) ∧
      s' = set_total_support (<[pdb_id := length sgs]> (total_support s)) s
  | Raise e => e = KeyError ∧ s' = s
  end ∧
  (pdb_id ∉ OD.keys (support s) → r = Raise KeyError).
Proof.
  rewrite find_subgraph_in_pdb_eq. unfold found_in_pdb.
  destruct (OD.get (support s) pdb_id) as [e|] eqn:Eg; cbn.
  - assert (pdb_id ∈ OD.keys (support s)) as Hin.
    { apply OD_get_is_Some. by rewrite Eg. }
    destruct (unique_subgraphs _ _ _) as [[sgs dds]|err] eqn:Eu; cbn;
      intros [= <- <-]; (split; [|done]); [done|].
    split; [|done]. by apply unique_subgraphs_Raise in Eu.
  - intros [= <- <-]. done.
Qed.

(** *** The pooled list *)

Lemma name_graphs_spec i gs gs' :
  name_graphs i gs = Ok gs' →
  length gs' = length gs ∧
  ∀ k g', gs' !! k = Some g' →
    ∃ g pdb_id, gs !! k = Some g ∧
      oi_pdb_id (graph_attr g) = Some pdb_id ∧
      g' = set_graph_id g (pdb_id +:+ "_" +:+ pretty (i + k + 1)).
Proof.
  revert i gs'. induction gs as [|g gs IH]; intros i gs' H; simpl in H.
  - injection H as <-. split; [done|]. by intros k g' ?.
  - inv_ok. subst. apply IH in Ha0 as [Hl Hk]. split; [by simpl; rewrite Hl|].
    intros [|k] g' Hg'; simpl in *.
    + injection Hg' as <-. exists g, a. by rewrite Nat.add_0_r.
    + destruct (Hk _ _ Hg') as (g0 & pdb & ? & ? & ->).
      exists g0, pdb. split_and!; try done.
      by replace (i + S k + 1) with (S i + k + 1) by lia.
Qed.

Lemma name_graphs_NoDup i gs gs' :
  name_graphs i gs = Ok gs' →
  NoDup ((λ g, oi_id (graph_attr g)) <$> gs').
Proof.
  intros [_ Hk]%name_graphs_spec. apply NoDup_alt. intros k1 k2 o H1 H2.
  rewrite list_lookup_fmap in H1, H2.
  apply fmap_Some in H1 as (g1 & E1 & ->).
  apply fmap_Some in H2 as (g2 & E2 & H2).
  destruct (Hk _ _ E1) as (? & p1 & _ & _ & ->).
  destruct (Hk _ _ E2) as (? & p2 & _ & _ & ->).
  simpl in H2. injection H2 as H2.
  apply occurrence_id_inj in H2 as [_ H2]. lia.
Qed.

Lemma index_by_id_snoc ps gs g :
  index_by_id ps (gs ++ [g]) =
    match oi_id (graph_attr g) with
    | Some id => <[id := g]> (index_by_id ps gs)
    | None => index_by_id ps gs
    end.
Proof. unfold index_by_id. by rewrite foldl_app. Qed.

Lemma index_by_id_lookup ps gs id g :
  NoDup ((λ g, oi_id (graph_attr g)) <$> gs) →
  index_by_id ps gs !! id = Some g ↔
  (g ∈ gs ∧ oi_id (graph_attr g) = Some id) ∨
  (ps !! id = Some g ∧ Some id ∉ (λ g, oi_id (graph_attr g)) <$> gs).
Proof.
  induction gs as [|x gs IH] using rev_ind; intros Hnd.
  - cbn. split; [intros H; right; split; [done|apply not_elem_of_nil]|].
    by intros [[?%elem_of_nil _]|[? _]].
  - rewrite fmap_app in Hnd. apply NoDup_app in Hnd as (Hnd & Hx & _).
    specialize (IH Hnd). rewrite index_by_id_snoc, fmap_app. cbn.
    setoid_rewrite elem_of_app. setoid_rewrite list_elem_of_singleton.
    destruct (oi_id (graph_attr x)) as [idx|] eqn:Ex.
    + destruct (decide (idx = id)) as [->|Hne].
      * rewrite lookup_insert_eq. split.
        -- intros [= <-]. left. auto.
        -- intros [[[Hg| ->] Hid]|[_ Hn]]; [|done|by destruct Hn; right].
           destruct (Hx (Some id)).
           ++ apply list_elem_of_fmap. exists g. by rewrite Hid.
           ++ cbn. rewrite Ex. by left.
      * rewrite lookup_insert_ne by done. rewrite IH. split.
        -- intros [[Hg Hid]|[Hp Hn]]; [left; auto|right].
           split; [done|]. intros [?|[=]]; [done|congruence].
        -- intros [[[Hg| ->] Hid]|[Hp Hn]]; [left; auto|congruence|right].
           split; [done|]. intros ?. apply Hn. by left.
    + rewrite IH. split.
      * intros [[Hg Hid]|[Hp Hn]]; [left; auto|right].
        split; [done|]. by intros [?|[=]].
      * intros [[[Hg| ->] Hid]|[Hp Hn]]; [left; auto|congruence|right].
        split; [done|]. intros ?. apply Hn. by left.
Qed.

Lemma insert_by_Sorted {A} (before : A → A → bool) (R : A → A → Prop) x l :
  (∀ x y, before y x = false → R x y) →
  (∀ x y, before y x = true → R y x) →
  Sorted R l → Sorted R (insert_by before x l).
Proof.
  intros H1 H2. induction l as [|y l IH]; intros Hs; simpl.
  - by repeat constructor.
  - destruct (before y x) eqn:E.
    + apply Sorted_inv in Hs as [Hs Hd]. constructor; [by apply IH|].
      destruct l as [|z l]; simpl.
      * constructor. by apply H2.
      * destruct (before z x); constructor; [by inversion Hd|by apply H2].
    + constructor; [done|]. constructor. by apply H1.
Qed.

Lemma stable_sort_Sorted {A} (before : A → A → bool) (R : A → A → Prop) l :
  (∀ x y, before y x = false → R x y) →
  (∀ x y, before y x = true → R y x) →
  Sorted R (stable_sort before l).
Proof.
  intros H1 H2. induction l as [|x l IH]; simpl; [constructor|].
  by apply insert_by_Sorted.
Qed.

Lemma StronglySorted_lookup {A} (R : A → A → Prop) l i j a b :
  StronglySorted R l → i < j → l !! i = Some a → l !! j = Some b → R a b.
Proof.
  intros Hs. revert i j. induction Hs as [|x l Hs IH Hx]; intros i j Hij Hi Hj;
    [done|].
  destruct j as [|j]; [lia|]. destruct i as [|i]; simpl in *.
  - injection Hi as <-. rewrite Forall_forall in Hx. apply Hx.
    by eapply list_elem_of_lookup_2.
  - eapply IH; [|done..]. lia.
Qed.

Lemma sorted_by_weight (l : list Occurrence) i j a b :
  stable_sort (λ x y : Occurrence,
                 negb (Qle_bool (size_weight y) (size_weight x))) l !! i
    = Some a →
  stable_sort (λ x y : Occurrence,
                 negb (Qle_bool (size_weight y) (size_weight x))) l !! j
    = Some b →
  i ≤ j → (size_weight a <= size_weight b)%Q.
Proof.
  intros Hi Hj Hij.
  destruct (decide (i = j)) as [->|Hne].
  { rewrite Hi in Hj. injection Hj as <-. apply Qle_refl. }
  eapply (StronglySorted_lookup
            (λ a b : Occurrence, (size_weight a <= size_weight b)%Q));
    [|shelve|exact Hi|exact Hj].
  apply Sorted_StronglySorted.
  { intros x y z. apply Qle_trans. }
  apply stable_sort_Sorted.
  - intros x y H%negb_false_iff. by apply Qle_bool_iff.
  - intros x y H%negb_true_iff. apply Qlt_le_weak, Qnot_le_lt.
    intros Hle%Qle_bool_iff. congruence.
  Unshelve. lia.
Qed.

Lemma sum_list_concat {A} (ls : list (list A)) :
  length (concat ls) = sum_list (length <$> ls).
Proof.
  induction ls as [|l ls IH]; simpl; [done|]. by rewrite length_app, IH.
Qed.

Lemma record_counts_lookups ts (ks : list string) (ls : list nat) :
  NoDup ks → length ks = length ls →
  (λ k, default 0 (record_counts ts (zip ks ls) !! k)) <$> ks = ls.
Proof.
  intros Hnd. revert ts ls. induction Hnd as [|k ks Hk Hnd IH];
    intros ts [|l ls] Hl; simpl in *; try done.
  injection Hl as Hl. f_equal.
  - change (record_counts ts ((k, l) :: zip ks ls))
      with (record_counts (<[k := l]> ts) (zip ks ls)).
    rewrite record_counts_other; [by rewrite lookup_insert_eq|].
    rewrite fst_zip by lia. done.
  - by apply IH.
Qed.

(** What a search that returns has stored. *)
Lemma find_protein_subgraphs_stored option s s1 :
  find_protein_subgraphs size_weight subgraph_monomorphisms
    subgraph_isomorphisms svd_rms
    option s = (Ok tt, s1) →
  ∃ sgss all_graphs,
    mapM (found_in_pdb subgraph_monomorphisms s) (OD.keys (support s))
      = Ok sgss ∧
    name_graphs 0
      (stable_sort (λ x y : Occurrence,
                      negb (Qle_bool (size_weight y) (size_weight x)))
                   (concat sgss)) = Ok all_graphs ∧
    protein_subgraphs s1 = index_by_id ∅ all_graphs ∧
    total_support s1 = record_counts (total_support s)
                         (zip (OD.keys (support s)) (length <$> sgss)) ∧
    size (protein_subgraphs s1) = length all_graphs.
Proof.
  intros H. unfold find_protein_subgraphs in H.
  apply M_bind_Ok in H as (all_graphs & sp & Hpool & H).
  pose proof Hpool as (sgss & Hm & Hn & Hsp)%pool_subgraphs_iff.
  exists sgss, all_graphs. split; [done|]. split; [done|].
  assert (protein_subgraphs s1 = protein_subgraphs sp ∧
          total_support s1 = total_support sp) as [-> ->].
  { destruct (1 <? length all_graphs).
    - apply M_bind_Ok in H as ([] & sp2 & Hdo & Hset).
      apply do_clustering_Ok in Hdo as (? & ? & ? & _ & _ & _ & ->).
      by apply set_clustering_Ok in Hset as (g & ->).
    - apply M_bind_Ok in H as (ids & sp2 & Hids & H).
      unfold lift in Hids. apply pair_equal_spec in Hids as [Hids <-].
      unfold mbind, M_bind, modify in H. by injection H as <-. }
  rewrite Hsp. cbn. split_and!; [done..|].
  apply (pool_subgraphs_Ok size_weight subgraph_monomorphisms) in Hpool
    as (ids & _ & Hl & Hnd & Hdom & _).
  rewrite Hsp in Hdom. cbn in Hdom.
  rewrite <-size_dom, Hdom, size_list_to_set by done. done.
Qed.

Lemma find_subgraph_in_pdb_fst pdb_id s :
  (_find_subgraph_in_pdb subgraph_monomorphisms pdb_id s).1
  = found_in_pdb subgraph_monomorphisms s pdb_id.
Proof.
  rewrite find_subgraph_in_pdb_eq. by destruct (found_in_pdb _ _ _).
Qed.

(** X10 (find_protein_subgraphs): when the search returns,
    [protein_subgraphs] holds the subgraphs found in the structures of the
    support and nothing else. A subgraph stored under an identifier has this
    identifier as its [id]; the identifier is the [pdb_id] of the subgraph,
    an underscore and a rank between 1 and the number of stored subgraphs;
    apart from its [id] the subgraph is one that [_find_subgraph_in_pdb]
    returns for a structure of the support. Every subgraph so returned is
    stored under some identifier. *)
Theorem protein_subgraphs_by_id (option : string) (s s1 : SubgraphPattern) :
  find_protein_subgraphs size_weight subgraph_monomorphisms
    subgraph_isomorphisms svd_rms
    option s = (Ok tt, s1) →
  (∀ id g, protein_subgraphs s1 !! id = Some g →
     oi_id (graph_attr g) = Some id ∧
     ∃ pdb_id sgs sg p k,
       pdb_id ∈ OD.keys (support s) ∧
       (_find_subgraph_in_pdb subgraph_monomorphisms pdb_id s).1 = Ok sgs ∧
       sg ∈ sgs ∧ oi_pdb_id (graph_attr sg) = Some p ∧
       id = p +:+ "_" +:+ pretty k ∧
       1 ≤ k ≤ size (protein_subgraphs s1) ∧
       g = set_graph_id sg id) ∧
  (∀ pdb_id sgs sg,
     pdb_id ∈ OD.keys (support s) →
     (_find_subgraph_in_pdb subgraph_monomorphisms pdb_id s).1 = Ok sgs →
     sg ∈ sgs →
     ∃ id, protein_subgraphs s1 !! id = Some (set_graph_id sg id)).
Proof.
  intros (sgss & all_graphs & Hm & Hn & Hps & _ & Hsize)
    %find_protein_subgraphs_stored.
  pose proof (name_graphs_NoDup _ _ _ Hn) as Hnd.
  pose proof (name_graphs_spec _ _ _ Hn) as [Hlen Hk].
  apply mapM_Ok in Hm. rewrite Hsize, Hps. split.
  - intros id g [[Hg Hid]|[[=] _]]%index_by_id_lookup; [|done].
    split; [done|].
    apply list_elem_of_lookup in Hg as [k Hg].
    destruct (Hk _ _ Hg) as (g0 & p & Hg0 & Hp & ->).
    cbn in Hid. injection Hid as <-.
    assert (g0 ∈ concat sgss) as (sgs & Hin & Hsgs)%elem_of_concat.
    { rewrite <-(stable_sort_Permutation
                   (λ x y : Occurrence,
                      negb (Qle_bool (size_weight y) (size_weight x)))).
      by eapply list_elem_of_lookup_2. }
    apply list_elem_of_lookup in Hsgs as [j Hj].
    destruct (Forall2_lookup_r _ _ _ _ _ Hm Hj) as (pdb_id & Hpdb & Hf).
    apply lookup_lt_Some in Hg.
    exists pdb_id, sgs, g0, p, (k + 1).
    split_and!; [by eapply list_elem_of_lookup_2
                |by rewrite find_subgraph_in_pdb_fst
                |done|done|done|lia|rewrite Nat.add_1_r; exact Hg|done].
  - intros pdb_id sgs sg [j Hj]%list_elem_of_lookup Hf Hsg.
    rewrite find_subgraph_in_pdb_fst in Hf.
    destruct (Forall2_lookup_l _ _ _ _ _ Hm Hj) as (sgs' & Hsgs & Hf').
    rewrite Hf in Hf'. injection Hf' as <-.
    assert (sg ∈ stable_sort
                   (λ x y : Occurrence,
                      negb (Qle_bool (size_weight y) (size_weight x)))
                   (concat sgss)) as [k Hsk]%list_elem_of_lookup.
    { rewrite stable_sort_Permutation. apply elem_of_concat.
      exists sgs. split; [done|]. by eapply list_elem_of_lookup_2. }
    destruct (lookup_lt_is_Some_2 all_graphs k) as [g' Hg'].
    { rewrite Hlen. by eapply lookup_lt_Some. }
    destruct (Hk _ _ Hg') as (g0 & p & Hg0 & Hp & ->).
    pose proof (eq_trans (eq_sym Hsk) Hg0) as [= <-].
    eexists. apply index_by_id_lookup; [done|]. left.
    split; [by eapply list_elem_of_lookup_2|done].
Qed.

(** X11 (find_protein_subgraphs): when the search returns, the number of
    stored protein subgraphs is the sum, over the structures of the support,
    of their entries in [total_support]. The support is a dictionary: its
    keys are distinct. *)
Theorem protein_subgraphs_count (option : string) (s s1 : SubgraphPattern) :
  NoDup (OD.keys (support s)) →
  find_protein_subgraphs size_weight subgraph_monomorphisms
    subgraph_isomorphisms svd_rms
    option s = (Ok tt, s1) →
  size (protein_subgraphs s1)
  = sum_list ((λ pdb_id, default 0 (total_support s1 !! pdb_id))
                <$> OD.keys (support s)).
Proof.
  intros Hnd (sgss & all_graphs & Hm & Hn & _ & Hts & Hsize)
    %find_protein_subgraphs_stored.
  rewrite Hsize, Hts, record_counts_lookups; [|done|].
  - apply name_graphs_spec in Hn as [-> _].
    by rewrite (stable_sort_Permutation _ (concat sgss)), sum_list_concat.
  - apply mapM_Ok, Forall2_length in Hm. by rewrite length_fmap.
Qed.

(** X12 (find_protein_subgraphs): the rank in an identifier is the position
    in the order of [size(weight="weight")], the sort key of the pooled
    list: of two stored subgraphs, the one with the lower rank has the
    lower or the same size. The size of a graph is the float that networkx
    returns for it, which does not depend on the identifier that the graph
    receives after the sort. *)
Theorem protein_subgraphs_ranked_by_weight (option : string)
    (s s1 : SubgraphPattern) (p1 p2 : string) (k1 k2 : nat)
    (g1 g2 : Occurrence) :
  (∀ g id, size_weight (set_graph_id g id) = size_weight g) →
  find_protein_subgraphs size_weight subgraph_monomorphisms
    subgraph_isomorphisms svd_rms
    option s = (Ok tt, s1) →
  protein_subgraphs s1 !! (p1 +:+ "_" +:+ pretty k1) = Some g1 →
  protein_subgraphs s1 !! (p2 +:+ "_" +:+ pretty k2) = Some g2 →
  k1 ≤ k2 →
  (size_weight g1 <= size_weight g2)%Q.
Proof.
  intros size_weight_set_graph_id
    (sgss & all_graphs & Hm & Hn & Hps & _)
    %find_protein_subgraphs_stored H1 H2 Hle.
  pose proof (name_graphs_NoDup _ _ _ Hn) as Hnd.
  pose proof (name_graphs_spec _ _ _ Hn) as [Hlen Hk].
  rewrite Hps in H1, H2.
  apply index_by_id_lookup in H1 as [[Hg1 Hid1]|[[=] _]]; [|done].
  apply index_by_id_lookup in H2 as [[Hg2 Hid2]|[[=] _]]; [|done].
  apply list_elem_of_lookup in Hg1 as [j1 Hj1].
  apply list_elem_of_lookup in Hg2 as [j2 Hj2].
  destruct (Hk _ _ Hj1) as (a & q1 & Ha & _ & ->).
  destruct (Hk _ _ Hj2) as (b & q2 & Hb & _ & ->).
  cbn in Hid1, Hid2. injection Hid1 as Hid1. injection Hid2 as Hid2.
  apply occurrence_id_inj in Hid1 as [_ Hid1].
  apply occurrence_id_inj in Hid2 as [_ Hid2].
  rewrite !size_weight_set_graph_id.
  eapply sorted_by_weight; [exact Ha|exact Hb|lia].
Qed.

(** ** Groups *)

Lemma gen_block_Ok (all_graphs : list Occurrence) (c : list nat) b :
  (graph_list ← mapM (getindex all_graphs) c; mapM graph_id graph_list) = Ok b ↔
  Forall2 (has_id all_graphs) c b.
Proof.
  split.
  - intros (gl & Hgl & Hb)%bind_Ok. apply mapM_Ok in Hgl, Hb.
    revert b Hb. induction Hgl as [|idx g c gl Hg Hgl IH]; intros b Hb.
    + inversion Hb. constructor.
    + inversion Hb as [|? id ? b' Hid Hb']; subst. constructor; [|by apply IH].
      exists g. split; [by apply getindex_Ok|by apply getitem_Ok].
  - intros H. apply bind_Ok.
    induction H as [|idx id c b (g & Hg & Hid) H (gl & Hgl & Hb)].
    + by exists [].
    + exists (g :: gl). split; apply mapM_Ok; constructor.
      * by apply getindex_Ok.
      * by apply mapM_Ok.
      * unfold graph_id. by rewrite Hid.
      * by apply mapM_Ok.
Qed.

Lemma gen_block_Raise (all_graphs : list Occurrence) (c : list nat) e :
  (graph_list ← mapM (getindex all_graphs) c; mapM graph_id graph_list)
    = Raise e →
  (e = IndexError ∧ ∃ idx, idx ∈ c ∧ length all_graphs ≤ idx) ∨
  (e = KeyError ∧ ∃ idx g, idx ∈ c ∧ all_graphs !! idx = Some g ∧
                           oi_id (graph_attr g) = None).
Proof.
  intros [H|(gl & Hgl & H)]%bind_Raise.
  - left. revert H.
    apply (mapM_Raise (λ e, e = IndexError ∧
                            ∃ idx, idx ∈ c ∧ length all_graphs ≤ idx)).
    intros idx e' Hin. unfold getindex.
    destruct (all_graphs !! idx) eqn:E; intros [= <-]. split; [done|].
    exists idx. split; [done|]. by apply lookup_ge_None.
  - right. apply mapM_Ok in Hgl. revert H.
    apply (mapM_Raise (λ e, e = KeyError ∧
             ∃ idx g, idx ∈ c ∧ all_graphs !! idx = Some g ∧
                      oi_id (graph_attr g) = None)).
    intros g e' [k Hk]%list_elem_of_lookup. unfold graph_id.
    destruct (oi_id (graph_attr g)) eqn:E; intros [= <-]. split; [done|].
    destruct (Forall2_lookup_r _ _ _ _ _ Hgl Hk) as (idx & Hidx & Hg).
    exists idx, g. split_and!; [by eapply list_elem_of_lookup_2| |done].
    by apply getindex_Ok.
Qed.

Lemma gen_groups_loop_outcome (all_graphs : list Occurrence)
    (cc : list (list nat)) (off : nat) (acc : gmap nat (list string)) :
  match foldlM (λ (groups : gmap nat (list string)) (ig : nat * list nat),
          let '(group_idx, group) := ig in
          graph_list ← mapM (getindex all_graphs) group;
          ids ← mapM graph_id graph_list;
          mret (<[group_idx + 1 := ids]> groups))
        acc (imap (λ i c, (off + i, c)) cc) with
  | Ok gs =>
      ∃ blocks,
        Forall2 (Forall2 (has_id all_graphs)) cc blocks ∧
        ∀ k, gs !! k = if decide (off < k ≤ off + length cc)
                       then blocks !! (k - off - 1) else acc !! k
  | Raise e =>
      (e = IndexError ∧
       ∃ c idx, c ∈ cc ∧ idx ∈ c ∧ length all_graphs ≤ idx) ∨
      (e = KeyError ∧
       ∃ c idx g, c ∈ cc ∧ idx ∈ c ∧ all_graphs !! idx = Some g ∧
                  oi_id (graph_attr g) = None)
  end.
Proof.
  revert off acc. induction cc as [|c cc IH]; intros off acc.
  - cbn. exists []. split; [constructor|].
    intros k. case_decide; [simpl in *; lia|done].
  - rewrite imap_cons. cbn [foldlM].
    destruct (graph_list ← mapM (getindex all_graphs) c;
              mapM graph_id graph_list) as [b|e] eqn:Eb.
    + apply bind_Ok in Eb as (gl & Hgl & Hb). rewrite Hgl. cbn. rewrite Hb. cbn.
      assert (Forall2 (has_id all_graphs) c b) as Hc.
      { apply gen_block_Ok. by rewrite Hgl. }
      rewrite (imap_ext _ (λ i c, (S off + i, c)))
        by (intros; simpl; f_equal; lia).
      specialize (IH (S off) (<[off + 0 + 1 := b]> acc)).
      destruct (foldlM _ _ _) as [gs|e].
      * destruct IH as (blocks & HF & Hk). exists (b :: blocks).
        split; [by constructor|].
        intros k. rewrite Hk. cbn [length].
        destruct (decide (S off < k ≤ S off + length cc)) as [Hin|Hout];
          destruct (decide (off < k ≤ off + S (length cc))) as [Hin'|Hout'];
          try lia.
        -- by replace (k - off - 1) with (S (k - S off - 1)) by lia.
        -- assert (k = off + 0 + 1) as -> by lia. rewrite lookup_insert_eq.
           by replace (off + 0 + 1 - off - 1) with 0 by lia.
        -- by rewrite lookup_insert_ne by lia.
      * destruct IH
          as [(-> & c' & idx & ? & ? & ?)|(-> & c' & idx & g & ? & ? & ? & ?)].
        -- left. split; [done|]. exists c', idx. split_and!; try done. by right.
        -- right. split; [done|]. exists c', idx, g.
           split_and!; try done. by right.
    + assert ((graph_list ← mapM (getindex all_graphs) c;
               ids ← mapM graph_id graph_list;
               mret (<[off + 0 + 1 := ids]> acc)) = Raise e) as ->.
      { apply bind_Raise in Eb as [Eb|(gl & Hgl & Eb)].
        - by rewrite Eb.
        - rewrite Hgl. cbn. by rewrite Eb. }
      cbn.
      destruct (gen_block_Raise _ _ _ Eb)
        as [(-> & idx & ? & ?)|(-> & idx & g & ? & ? & ?)].
      * left. split; [done|]. exists c, idx. split_and!; try done. by left.
      * right. split; [done|]. exists c, idx, g.
        split_and!; try done. by left.
Qed.

Lemma gen_groups_blocks (cc : list (list nat)) (all_graphs : list Occurrence) gs :
  _gen_groups cc all_graphs = Ok gs →
  ∃ blocks,
    Forall2 (Forall2 (has_id all_graphs)) cc blocks ∧
    ∀ k, gs !! k = match k with 0 => None | S i => blocks !! i end.
Proof.
  unfold _gen_groups. intros H.
  pose proof (gen_groups_loop_outcome all_graphs cc 0 ∅) as Ho.
  rewrite (imap_ext _ (λ i c, (i, c))) in Ho by done.
  rewrite H in Ho. destruct Ho as (blocks & HF & Hk).
  exists blocks. split; [done|].
  intros k. rewrite Hk. destruct k as [|i].
  - by rewrite decide_False by lia.
  - case_decide as Hi.
    + by replace (S i - 0 - 1) with i by lia.
    + rewrite lookup_empty. symmetry. apply lookup_ge_None.
      rewrite <- (Forall2_length _ _ _ HF). lia.
Qed.

Lemma gen_groups_Raise (cc : list (list nat)) (all_graphs : list Occurrence) e :
  _gen_groups cc all_graphs = Raise e →
  (e = IndexError ∧
   ∃ c idx, c ∈ cc ∧ idx ∈ c ∧ length all_graphs ≤ idx) ∨
  (e = KeyError ∧
   ∃ c idx g, c ∈ cc ∧ idx ∈ c ∧ all_graphs !! idx = Some g ∧
              oi_id (graph_attr g) = None).
Proof.
  unfold _gen_groups. intros H.
  pose proof (gen_groups_loop_outcome all_graphs cc 0 ∅) as Ho.
  rewrite (imap_ext _ (λ i c, (i, c))) in Ho by done.
  by rewrite H in Ho.
Qed.

(** X13 (_gen_groups): the groups of a list of components. When
    [_gen_groups] returns, group [k] (from 1) holds the identifiers of the
    graphs whose indices are in the [k]-th component, in the order of the
    component, and there is no group 0 and none after the last component.
    It raises [IndexError] for an index that is not a position of the list
    of graphs, [KeyError] for a graph without identifier, and nothing
    else. *)
Theorem gen_groups_outcome (cc : list (list nat))
    (all_graphs : list Occurrence) :
  match _gen_groups cc all_graphs with
  | Ok gs =>
      ∃ blocks,
        Forall2 (Forall2 (has_id all_graphs)) cc blocks ∧
        ∀ k, gs !! k = match k with 0 => None | S i => blocks !! i end
  | Raise e =>
      (e = IndexError ∧
       ∃ c idx, c ∈ cc ∧ idx ∈ c ∧ length all_graphs ≤ idx) ∨
      (e = KeyError ∧
       ∃ c idx g, c ∈ cc ∧ idx ∈ c ∧ all_graphs !! idx = Some g ∧
                  oi_id (graph_attr g) = None)
  end.
Proof.
  destruct (_gen_groups cc all_graphs) as [gs|e] eqn:E.
  - by apply gen_groups_blocks.
  - by apply gen_groups_Raise.
Qed.

Lemma gen_groups_Ok_ids cc (all_graphs : list Occurrence) gs c idx :
  _gen_groups cc all_graphs = Ok gs → c ∈ cc → idx ∈ c →
  ∃ id, has_id all_graphs idx id.
Proof.
  intros H Hc Hidx. destruct (gen_groups_blocks _ _ _ H) as (blocks & HF & _).
  apply list_elem_of_lookup in Hc as [k Hk].
  destruct (Forall2_lookup_l _ _ _ _ _ HF Hk) as (b & _ & Hb).
  apply list_elem_of_lookup in Hidx as [j Hj].
  destruct (Forall2_lookup_l _ _ _ _ _ Hb Hj) as (id & _ & Hid).
  by exists id.
Qed.

Lemma gen_groups_total cc (all_graphs : list Occurrence) :
  (∀ c idx, c ∈ cc → idx ∈ c → ∃ id, has_id all_graphs idx id) →
  ∃ gs, _gen_groups cc all_graphs = Ok gs.
Proof.
  intros H.
  destruct (_gen_groups cc all_graphs) as [gs|e] eqn:E; [by exists gs|].
  destruct (gen_groups_Raise _ _ _ E) as [(_ & c & idx & Hc & Hidx & Hlen)
                 |(_ & c & idx & g & Hc & Hidx & Hg & Hnone)];
    destruct (H c idx Hc Hidx) as (id & g' & Hg' & Hid).
  - apply lookup_ge_None_2 in Hlen.
    by pose proof (eq_trans (eq_sym Hlen) Hg').
  - pose proof (eq_trans (eq_sym Hg) Hg') as [= ->]. congruence.
Qed.

Lemma elem_of_sorted_by_len_desc c cc :
  c ∈ sorted_by_len_desc cc ↔ c ∈ cc.
Proof. unfold sorted_by_len_desc. by rewrite stable_sort_Permutation. Qed.

Lemma components_cover g i :
  edges_in_nodes g → NoDup (ig_nodes g) →
  i ∈ ig_nodes g ↔ ∃ c, c ∈ connected_components g ∧ i ∈ c.
Proof.
  intros Hwf Hnd. rewrite <-(connected_components_partition g Hwf Hnd).
  rewrite elem_of_concat. split; intros (c & ? & ?); by exists c.
Qed.

(** X14 (_do_clustering): the clustering stores both groupings or none.
    When it returns, [_structural_groups] and [_sequence_groups] have been
    assigned and nothing else has changed; when it raises, the object is as
    it was: the second grouping cannot fail once the first has been
    built. *)
Theorem do_clustering_all_or_nothing (all_graphs : list Occurrence)
    (s : SubgraphPattern) :
  match _do_clustering subgraph_isomorphisms svd_rms all_graphs s with
  | (Ok _, s') =>
      ∃ structural sequence,
        s' = set_sequence_groups sequence (set_structural_groups structural s)
  | (Raise _, s') => s' = s
  end.
Proof.
  unfold _do_clustering, mbind, M_bind, read, lift, modify.
  destruct (similarity_graphs _ _ s all_graphs) as [gs|e] eqn:Es; [|done].
  apply (similarity_graphs_wf subgraph_isomorphisms svd_rms) in Es
    as [[Hn1 Hw1] [Hn2 Hw2]].
  destruct (_gen_groups (sorted_by_len_desc (connected_components gs.2)) _)
    as [st|e] eqn:E2; [|done].
  destruct (gen_groups_total
              (sorted_by_len_desc (connected_components gs.1)) all_graphs)
    as [sq ->]; [|exists st, sq; done].
  intros c idx Hc Hidx. apply (proj1 (elem_of_sorted_by_len_desc _ _)) in Hc.
  assert (NoDup (ig_nodes gs.1)) as Hnd1 by (rewrite Hn1; apply NoDup_seq).
  assert (NoDup (ig_nodes gs.2)) as Hnd2 by (rewrite Hn2; apply NoDup_seq).
  assert (idx ∈ ig_nodes gs.2) as Hin.
  { rewrite Hn2, <-Hn1. apply (proj2 (components_cover gs.1 idx Hw1 Hnd1)).
    exists c. by split. }
  apply (proj1 (components_cover gs.2 idx Hw2 Hnd2)) in Hin
    as (c2 & Hc2 & Hidx2).
  eapply gen_groups_Ok_ids; [exact E2| |exact Hidx2].
  by apply elem_of_sorted_by_len_desc.
Qed.

Lemma cc_scan_components g (vs : list nat) (st : list nat * list (list nat)) c :
  c ∈ (foldl (cc_step g) st vs).2 →
  c ∈ st.2 ∨ ∃ v, v ∈ vs ∧ c = _plain_bfs g v.
Proof.
  revert st. induction vs as [|v vs IH]; intros [seen ccs]; simpl; [by left|].
  intros [H|(w & Hw & ->)]%IH.
  - destruct (decide (v ∈ seen)) as [Hv|Hv].
    + rewrite cc_step_seen in H by done. by left.
    + rewrite cc_step_new in H by done. simpl in H.
      apply elem_of_app in H as [H| ->%list_elem_of_singleton]; [by left|].
      right. exists v. split; [by left|done].
  - right. exists w. split; [by right|done].
Qed.

(** The components are the classes of connectivity. *)
Lemma components_are_classes g i j :
  edges_in_nodes g → NoDup (ig_nodes g) → i ∈ ig_nodes g →
  (∃ c, c ∈ connected_components g ∧ i ∈ c ∧ j ∈ c) ↔ connected g i j.
Proof.
  intros Hwf Hnd Hi.
  assert (∀ c, c ∈ connected_components g →
            ∃ v, v ∈ ig_nodes g ∧ ∀ u, u ∈ c ↔ connected g v u) as Hbfs.
  { intros c [[]%elem_of_nil|(v & Hv & ->)]%cc_scan_components.
    exists v. split; [done|]. by apply plain_bfs_spec. }
  split.
  - intros (c & Hc & Hic & Hjc). destruct (Hbfs c Hc) as (v & _ & Hv).
    apply Hv in Hic, Hjc. unfold connected in *.
    etrans; [|exact Hjc]. by apply connected_sym.
  - intros Hij. apply components_cover in Hi as (c & Hc & Hic); [|done..].
    exists c. split_and!; [done..|].
    destruct (Hbfs c Hc) as (v & _ & Hv). apply Hv. apply Hv in Hic.
    unfold connected in *. by etrans.
Qed.

Lemma has_id_lookup (all_graphs : list Occurrence) ids idx id :
  mapM graph_id all_graphs = Ok ids →
  has_id all_graphs idx id ↔ ids !! idx = Some id.
Proof.
  intros Hids%mapM_Ok. split.
  - intros (g & Hg & Hid).
    destruct (Forall2_lookup_l _ _ _ _ _ Hids Hg) as (id' & Hl & Hid').
    unfold graph_id in Hid'. rewrite Hid in Hid'. by injection Hid' as <-.
  - intros Hl. destruct (Forall2_lookup_r _ _ _ _ _ Hids Hl) as (g & Hg & Hid).
    exists g. split; [done|]. by apply getitem_Ok.
Qed.

(** The groups of the components of a similarity graph are its classes of
    connectivity, read on the identifiers. *)
Lemma groups_are_classes g (all_graphs : list Occurrence) ids gs i j idi idj :
  edges_in_nodes g → ig_nodes g = seq 0 (length all_graphs) →
  mapM graph_id all_graphs = Ok ids → NoDup ids →
  _gen_groups (sorted_by_len_desc (connected_components g)) all_graphs = Ok gs →
  ids !! i = Some idi → ids !! j = Some idj →
  same_group gs idi idj ↔ connected g i j.
Proof.
  intros Hwf Hn Hids Hnd Hgs Hi Hj.
  destruct (gen_groups_blocks _ _ _ Hgs) as (blocks & HF & Hk).
  assert (length ids = length all_graphs) as Hlen.
  { apply mapM_Ok, Forall2_length in Hids. lia. }
  assert (i ∈ ig_nodes g) as Hin.
  { rewrite Hn, elem_of_seq. apply lookup_lt_Some in Hi. lia. }
  assert (NoDup (ig_nodes g)) as Hndn by (rewrite Hn; apply NoDup_seq).
  assert (∀ c b idx id, Forall2 (has_id all_graphs) c b →
            ids !! idx = Some id → (id ∈ b ↔ idx ∈ c)) as Hmem.
  { intros c b idx id Hcb Hidx. split.
    - intros [k Hkb]%list_elem_of_lookup.
      destruct (Forall2_lookup_r _ _ _ _ _ Hcb Hkb) as (idx' & Hc & Hid).
      apply (has_id_lookup _ ids) in Hid; [|done].
      rewrite (NoDup_lookup ids idx idx' id); [|done..].
      by eapply list_elem_of_lookup_2.
    - intros [k Hkc]%list_elem_of_lookup.
      destruct (Forall2_lookup_l _ _ _ _ _ Hcb Hkc) as (id' & Hb & Hid).
      apply (has_id_lookup _ ids) in Hid; [|done].
      assert (id' = id) as -> by congruence.
      by eapply list_elem_of_lookup_2. }
  rewrite <-(components_are_classes g i j) by done. split.
  - intros (k & b & Hb & Hib & Hjb). rewrite Hk in Hb.
    destruct k as [|k]; [done|].
    destruct (Forall2_lookup_r _ _ _ _ _ HF Hb) as (c & Hc & Hcb).
    exists c. split_and!.
    + apply elem_of_sorted_by_len_desc. by eapply list_elem_of_lookup_2.
    + by apply (Hmem c b i idi).
    + by apply (Hmem c b j idj).
  - intros (c & Hc & Hic & Hjc).
    apply (proj2 (elem_of_sorted_by_len_desc _ _)) in Hc.
    apply list_elem_of_lookup in Hc as [k Hc].
    destruct (Forall2_lookup_l _ _ _ _ _ HF Hc) as (b & Hb & Hcb).
    exists (S k), b. rewrite Hk. split_and!; [done|..].
    + by apply (Hmem c b i idi).
    + by apply (Hmem c b j idj).
Qed.

(** X15 (_do_clustering): the two groupings are the classes of connectivity
    of the two similarity graphs. Two pooled subgraphs are in one structural
    group exactly when a chain of pairs, each adjacent in [G_struct], leads
    from one to the other, and in one sequence group exactly when such a
    chain exists in [G_seq]. The identifiers of the pooled graphs are
    distinct, as those that [find_protein_subgraphs] assigns are. *)
Theorem groupings_are_connectivity_classes (all_graphs : list Occurrence)
    (s s' : SubgraphPattern) (gs : IndexGraph * IndexGraph)
    (ids : list string) :
  similarity_graphs subgraph_isomorphisms svd_rms s all_graphs = Ok gs →
  mapM graph_id all_graphs = Ok ids → NoDup ids →
  _do_clustering subgraph_isomorphisms svd_rms all_graphs s = (Ok tt, s') →
  ∃ structural sequence,
    _structural_groups s' = Some structural ∧
    _sequence_groups s' = Some sequence ∧
    ∀ i j idi idj, ids !! i = Some idi → ids !! j = Some idj →
      (same_group structural idi idj ↔ connected gs.2 i j) ∧
      (same_group sequence idi idj ↔ connected gs.1 i j).
Proof.
  intros Hsim Hids Hnd Hdo.
  apply (do_clustering_Ok subgraph_isomorphisms svd_rms) in Hdo
    as (gs' & st & sq & Hsim' & Hst & Hsq & ->).
  rewrite Hsim in Hsim'. injection Hsim' as <-.
  apply (similarity_graphs_wf subgraph_isomorphisms svd_rms) in Hsim
    as [[Hn1 Hw1] [Hn2 Hw2]].
  exists st, sq. split_and!; [done..|].
  intros i j idi idj Hi Hj. split.
  - by apply (groups_are_classes gs.2 all_graphs ids).
  - by apply (groups_are_classes gs.1 all_graphs ids).
Qed.

(** What a search that returned with more than one subgraph went through. *)
Lemma find_protein_subgraphs_clustered option s s1 :
  find_protein_subgraphs size_weight subgraph_monomorphisms
    subgraph_isomorphisms svd_rms
    option s = (Ok tt, s1) →
  1 < size (protein_subgraphs s1) →
  ∃ all_graphs sp structural sequence g,
    pool_subgraphs size_weight subgraph_monomorphisms s = (Ok all_graphs, sp) ∧
    (1 <? length all_graphs) = true ∧
    _do_clustering subgraph_isomorphisms svd_rms all_graphs sp
    = (Ok tt, set_sequence_groups sequence
                (set_structural_groups structural sp)) ∧
    s1 = set_clustering_option option
           (set_groups g (set_sequence_groups sequence
                            (set_structural_groups structural sp))).
Proof.
  intros H Hsize.
  pose proof (find_protein_subgraphs_stored _ _ _ H)
    as (sgss & all' & Hm & Hn & _ & _ & Hlen).
  unfold find_protein_subgraphs in H.
  apply M_bind_Ok in H as (all_graphs & sp & Hpool & H).
  pose proof Hpool as (sgss' & Hm' & Hn' & _)%pool_subgraphs_iff.
  rewrite Hm in Hm'. injection Hm' as <-.
  pose proof (eq_trans (eq_sym Hn) Hn') as [= ->].
  assert ((1 <? length all_graphs) = true) as Hlt.
  { apply Nat.ltb_lt. by rewrite <-Hlen. }
  rewrite Hlt in H.
  apply M_bind_Ok in H as ([] & sc & Hdo & Hset).
  pose proof Hdo as Hdo'.
  apply (do_clustering_Ok subgraph_isomorphisms svd_rms) in Hdo'
    as (gs & st & sq & _ & _ & _ & ->).
  apply set_clustering_Ok in Hset as (g & ->).
  by exists all_graphs, sp, st, sq, g.
Qed.

(** X16 (find_protein_subgraphs): an option that is neither ["structural"]
    nor ["sequence"] is rejected only at the end. On a pattern for which the
    search finds more than one subgraph, the search with such an option
    raises the exception of [set_clustering] after it has stored the
    subgraphs, the counts and both groupings: these are as after a search
    with a valid option, [groups] is empty and [clustering_option] is what
    it was before the call. *)
Theorem find_protein_subgraphs_rejects_option_late (valid option : string)
    (s s1 : SubgraphPattern) :
  find_protein_subgraphs size_weight subgraph_monomorphisms
    subgraph_isomorphisms svd_rms
    valid s = (Ok tt, s1) →
  1 < size (protein_subgraphs s1) →
  option ≠ "structural" → option ≠ "sequence" →
  ∃ s',
    find_protein_subgraphs size_weight subgraph_monomorphisms
      subgraph_isomorphisms
      svd_rms option s
    = (Raise (Exception "Either structural or sequence."), s') ∧
    protein_subgraphs s' = protein_subgraphs s1 ∧
    total_support s' = total_support s1 ∧
    _structural_groups s' = _structural_groups s1 ∧
    _sequence_groups s' = _sequence_groups s1 ∧
    groups s' = ∅ ∧
    clustering_option s' = clustering_option s.
Proof.
  intros H Hsize Ho1 Ho2.
  destruct (find_protein_subgraphs_clustered _ _ _ H Hsize)
    as (all_graphs & sp & st & sq & g & Hpool & Hlt & Hdo & ->).
  eexists. split.
  - unfold find_protein_subgraphs, mbind at 1, M_bind at 1.
    rewrite Hpool, Hlt. unfold mbind at 1, M_bind at 1. rewrite Hdo.
    unfold set_clustering, mbind, M_bind, raise.
    apply String.eqb_neq in Ho1, Ho2. by rewrite Ho1, Ho2.
  - apply (pool_subgraphs_Ok size_weight subgraph_monomorphisms) in Hpool
      as (ids & _ & _ & _ & _ & Hg & Hc & _).
    by split_and!.
Qed.

(** X17 (set_clustering after find_protein_subgraphs): once a search has
    returned, [set_clustering] returns for both valid options: it makes the
    stored grouping of that kind the current [groups] and records the
    option, and leaves the rest of the object alone. Selecting the option
    the search was run with changes nothing when the search had a valid
    option. *)
Theorem set_clustering_after_find (option choice : string)
    (s s1 : SubgraphPattern) :
  find_protein_subgraphs size_weight subgraph_monomorphisms
    subgraph_isomorphisms svd_rms
    option s = (Ok tt, s1) →
  choice = "structural" ∨ choice = "sequence" →
  ∃ g,
    (if String.eqb choice "structural" then _structural_groups s1
     else _sequence_groups s1) = Some g ∧
    set_clustering choice s1
    = (Ok tt, set_clustering_option choice (set_groups g s1)) ∧
    (choice = option → set_clustering choice s1 = (Ok tt, s1)).
Proof.
  intros H Hchoice.
  assert (∃ st sq, _structural_groups s1 = Some st ∧
                   _sequence_groups s1 = Some sq ∧
                   clustering_option s1 = Some option ∧
                   ((option = "structural" ∧ groups s1 = st) ∨
                    (option = "sequence" ∧ groups s1 = sq) ∨
                    (groups s1 = st ∧ groups s1 = sq))) as
    (st & sq & Hst & Hsq & Hco & Hgr).
  { unfold find_protein_subgraphs in H.
    apply M_bind_Ok in H as (all_graphs & sp & Hpool & H).
    destruct (1 <? length all_graphs).
    - apply M_bind_Ok in H as ([] & sc & Hdo & Hset).
      apply (do_clustering_Ok subgraph_isomorphisms svd_rms) in Hdo
        as (gs & st & sq & _ & _ & _ & ->).
      eapply (set_clustering_ext _ _ _) in Hset
        as (g & -> & _ & Hg); [|done..].
      exists st, sq. split_and!; [done..|]. cbn in *.
      destruct Hg as [[-> [= <-]]|[-> [= <-]]]; auto.
    - apply M_bind_Ok in H as (ids & sp2 & Hids & H).
      unfold lift in Hids. apply pair_equal_spec in Hids as [Hids <-].
      unfold mbind, M_bind, modify in H. injection H as <-.
      eexists _, _. split_and!; [done..|]. right. right. done. }
  assert (∀ g, groups s1 = g → set_clustering_option option (set_groups g s1) = s1)
    as Hnoop.
  { intros g <-. rewrite <-(pattern_eta s1) at 3. unfold set_clustering_option,
      set_groups. cbn. by rewrite Hco. }
  unfold set_clustering, mbind, M_bind, getattr, modify.
  destruct Hchoice as [-> | ->]; cbn; rewrite ?Hst, ?Hsq.
  - exists st. split_and!; [done..|]. intros <-. f_equal. apply Hnoop.
    destruct Hgr as [[_ ?]|[[[=] _]|[? _]]]; done.
  - exists sq. split_and!; [done..|]. intros <-. f_equal. apply Hnoop.
    destruct Hgr as [[[=] _]|[[_ ?]|[_ ?]]]; done.
Qed.

(** X18 (find_protein_subgraphs): with an empty support the search returns
    whatever the option is, valid or not: it stores no subgraph, leaves
    [total_support] as it is, records the option, and makes the one group 1,
    which is empty, the current grouping and both stored groupings. *)
Theorem find_protein_subgraphs_empty_support (option : string)
    (s : SubgraphPattern) :
  support s = [] →
  ∃ s1,
    find_protein_subgraphs size_weight subgraph_monomorphisms
      subgraph_isomorphisms
      svd_rms option s = (Ok tt, s1) ∧
    protein_subgraphs s1 = ∅ ∧ total_support s1 = total_support s ∧
    groups s1 = {[1 := []]} ∧ clustering_option s1 = Some option ∧
    _structural_groups s1 = Some {[1 := []]} ∧
    _sequence_groups s1 = Some {[1 := []]}.
Proof.
  intros Hs. eexists. split.
  - unfold find_protein_subgraphs, pool_subgraphs, mbind, M_bind, modify, read.
    cbn. rewrite Hs. cbn. reflexivity.
  - cbn. by rewrite insert_empty.
Qed.

End search_facts.

(** ** Building one protein subgraph: nodes, order, attributes *)

Lemma elem_of_keys_set {V} (d : list (node * V)) k (x : V) u :
  u ∈ (OD.set d k x).*1 ↔ u ∈ d.*1 ∨ u = k.
Proof.
  split; [apply keys_set_subset|].
  induction d as [|[k' x'] d IH]; simpl.
  - intros [[]%elem_of_nil| ->]. by left.
  - destruct (decide (k' = k)) as [->|Hne]; simpl.
    + intros [[->|Hu]%elem_of_cons| ->]; [by left|by right|by left].
    + intros [[->|Hu]%elem_of_cons| ->]; [by left|right; auto|right; auto].
Qed.

Lemma NoDup_keys_set {V} (d : list (node * V)) k (x : V) :
  NoDup d.*1 → NoDup (OD.set d k x).*1.
Proof.
  induction d as [|[k' x'] d IH]; simpl; intros Hnd.
  - apply NoDup_singleton.
  - apply NoDup_cons in Hnd as [Hk' Hnd].
    destruct (decide (k' = k)) as [->|Hne]; simpl.
    + by apply NoDup_cons.
    + apply NoDup_cons. split; [|by apply IH].
      intros [?|?]%elem_of_keys_set; done.
Qed.

Lemma nodes_relabel_nodes_spec {GA NA EA} (g : Graph GA NA EA) mapping :
  NoDup (nodes (relabel_nodes g mapping)) ∧
  ∀ u, u ∈ nodes (relabel_nodes g mapping) ↔
       ∃ a, a ∈ nodes g ∧ default a (OD.get mapping a) = u.
Proof.
  set (f := λ n, default n (OD.get mapping n)).
  assert (nodes (relabel_nodes g mapping)
          = nodes (foldl (λ (h : Graph GA NA EA) na, add_node h (f na.1) na.2)
                         (mkGraph (graph_attr g) [] []) (node_list g))) as ->.
  { unfold relabel_nodes, nodes.
    by rewrite (node_list_foldl_add_edge (λ n, default n (OD.get mapping n))). }
  assert (∀ (ns : list (node * NA)) (h : Graph GA NA EA),
            NoDup (nodes h) →
            NoDup (nodes (foldl (λ h na, add_node h (f na.1) na.2) h ns)) ∧
            ∀ u, u ∈ nodes (foldl (λ h na, add_node h (f na.1) na.2) h ns) ↔
                 u ∈ nodes h ∨ ∃ a, a ∈ ns.*1 ∧ f a = u) as Hloop.
  { induction ns as [|[n a] ns IH]; intros h Hnd; simpl.
    - split; [done|]. intros u. split; [by left|].
      by intros [?|(a & []%elem_of_nil & _)].
    - destruct (IH (add_node h (f n) a)) as [IH1 IH2].
      { by apply NoDup_keys_set. }
      split; [done|]. intros u. rewrite IH2. unfold nodes at 1, add_node.
      simpl. rewrite elem_of_keys_set. split.
      + intros [[?| ->]|(b & Hb & <-)]; [by left|right..].
        * exists n. split; [by left|done].
        * exists b. split; [by right|done].
      + intros [?|(b & [->|Hb]%elem_of_cons & <-)]; [by left; left|by left; right|].
        right. by exists b. }
  destruct (Hloop (node_list g) (mkGraph (graph_attr g) [] [])) as [H1 H2].
  { apply NoDup_nil_2. }
  split; [done|]. intros u. rewrite (H2 u). split.
  - by intros [[]%elem_of_nil|?].
  - by right.
Qed.

Lemma OD_get_Some_elem {V} (d : list (node * V)) k v :
  OD.get d k = Some v → (k, v) ∈ d.
Proof.
  induction d as [|[k' v'] d IH]; simpl; [done|].
  case_decide as Hk; [intros [= <-]; subst; by left|].
  intros H. right. by apply IH.
Qed.

Lemma OD_get_app_fresh {V} (d : list (node * V)) k v :
  k ∉ d.*1 → OD.set d k v = d ++ [(k, v)].
Proof.
  induction d as [|[k' v'] d IH]; simpl; intros Hk; [done|].
  apply not_elem_of_cons in Hk as [Hne Hk].
  destruct (decide (k' = k)); [congruence|]. by rewrite IH.
Qed.

(** The node loop: each node enters with the attributes read from the host
    graph and the residue. *)
Lemma node_loop_data (host : HostGraph) (e : emap) order sg0 sg :
  foldlM (λ (sg : Occurrence) n,
      h ← getitem (node_attr host n);
      r ← getitem (residues e !! n);
      let a := {| on_shape := hn_shape h;
                  on_label := n;
                  on_num_label := hn_num_label h;
                  on_aligned_resnum := aligned_residue_number r;
                  on_resnum := res_seq r |} in
      let sg := add_node sg n a in
      mret (mkGraph (mkOccInfo (Some (graph_attr host))
                               (oi_id (graph_attr sg)))
                    (node_list sg) (edge_list sg))) sg0 order = Ok sg →
  NoDup (nodes sg0 ++ order) →
  oi_id (graph_attr sg) = oi_id (graph_attr sg0) ∧
  ∃ l, node_list sg = node_list sg0 ++ l ∧
    Forall2 (λ n na, na.1 = n ∧ ∃ h r,
               node_attr host n = Some h ∧ residues e !! n = Some r ∧
               na.2 = mkOccNode (hn_shape h) n (hn_num_label h)
                        (aligned_residue_number r) (res_seq r)) order l.
Proof.
  revert sg0. induction order as [|n order IH]; intros sg0 H Hnd; simpl in H.
  - injection H as <-. split; [done|]. exists []. by rewrite app_nil_r.
  - inv_ok. subst.
    assert (n ∉ nodes sg0) as Hn.
    { apply NoDup_app in Hnd as (_ & Hd & _). intros Hin.
      apply (Hd _ Hin). by left. }
    apply IH in H as [Hid (l & Hl & HF)]; cbn in *.
    + split; [done|]. rewrite OD_get_app_fresh in Hl by done.
      eexists (_ :: l). rewrite <-app_assoc in Hl. split; [exact Hl|].
      constructor; [|done]. split; [done|]. by eexists _, _.
    + unfold nodes. cbn. rewrite OD_get_app_fresh by done.
      rewrite fmap_app. cbn. by rewrite <-app_assoc.
Qed.

Lemma edge_loop_frame (host : HostGraph) (es : list (node * node * PatEdge))
    (sg0 sg : Occurrence) :
  foldlM (λ (sg : Occurrence) e,
      a ← getitem (edge_attr host e.1.1 e.1.2);
      mret (add_edge sg e.1.1 e.1.2 a)) sg0 es = Ok sg →
  node_list sg = node_list sg0 ∧ graph_attr sg = graph_attr sg0.
Proof.
  revert sg0. induction es as [|ed es IH]; intros sg0 H; simpl in H.
  - by injection H as <-.
  - inv_ok. subst. destruct (IH _ H) as [-> ->].
    split; [apply node_list_add_edge|].
    unfold add_edge. by destruct (has_edge sg0 ed.1.1 ed.1.2).
Qed.

Lemma sorted_by_key (keyed : list (Z * node)) i j x y :
  stable_sort (λ x y : Z * node, (x.1 <? y.1)%Z) keyed !! i = Some x →
  stable_sort (λ x y : Z * node, (x.1 <? y.1)%Z) keyed !! j = Some y →
  i ≤ j → (x.1 ≤ y.1)%Z.
Proof.
  intros Hi Hj Hij.
  destruct (decide (i = j)) as [->|Hne].
  { rewrite Hi in Hj. by injection Hj as <-. }
  eapply (StronglySorted_lookup (λ a b : Z * node, (a.1 ≤ b.1)%Z));
    [|shelve|exact Hi|exact Hj].
  apply Sorted_StronglySorted.
  { intros a b c. apply Z.le_trans. }
  apply stable_sort_Sorted.
  - intros a b H%Z.ltb_ge. done.
  - intros a b H%Z.ltb_lt. lia.
  Unshelve. lia.
Qed.

(** X19 (_generate_protein_subgraph): the nodes of a protein subgraph. They
    are distinct and are the residues that the mapping assigns to the nodes
    of the pattern; each carries its own name as [label], the residue number
    and the aligned residue number of its residue, and the [shape] and
    [num_label] of its node in the graph of the structure; they are listed
    by ascending residue number; the subgraph has no [id] yet. *)
Theorem generate_protein_subgraph_node_data (mapping : list (node * node))
    (host : HostGraph) (pattern : PatternGraph) (e : emap) (sg : Occurrence) :
  _generate_protein_subgraph mapping host pattern e = Ok sg →
  NoDup (nodes sg) ∧
  (∀ u, u ∈ nodes sg ↔ ∃ a, a ∈ nodes pattern ∧ image_of mapping a = u) ∧
  (∀ u a, node_attr sg u = Some a →
     ∃ h r, node_attr host u = Some h ∧ residues e !! u = Some r ∧
            a = mkOccNode (hn_shape h) u (hn_num_label h)
                  (aligned_residue_number r) (res_seq r)) ∧
  (∀ i j na nb, i ≤ j →
     node_list sg !! i = Some na → node_list sg !! j = Some nb →
     (on_resnum na.2 ≤ on_resnum nb.2)%Z) ∧
  oi_id (graph_attr sg) = None.
Proof.
  intros H. unfold _generate_protein_subgraph in H.
  apply bind_Ok in H as (keyed & Hkeyed & H).
  apply bind_Ok in H as (sg0 & Hnodes & Hedges).
  apply edge_loop_frame in Hedges as [Hnl Hga].
  set (inv := OD.of_pairs (map (λ kv : node * node, (kv.2, kv.1)) mapping)) in *.
  destruct (nodes_relabel_nodes_spec pattern inv) as [Hnd Hmem].
  pose proof (mapM_Ok_keys _ _ _ Hkeyed) as Hk2.
  set (sorted := stable_sort (λ x y : Z * node, (x.1 <? y.1)%Z) keyed) in *.
  assert (sorted.*2 ≡ₚ nodes (relabel_nodes pattern inv)) as Hperm.
  { subst sorted. by rewrite stable_sort_Permutation, Hk2. }
  apply node_loop_data in Hnodes as [Hid (l & Hl & HF)];
    [|cbn; by rewrite Hperm].
  cbn in Hl, Hid. unfold nodes at 1 2, node_attr. rewrite Hnl, Hga, Hl.
  assert (l.*1 = sorted.*2) as Hl1.
  { clear -HF. induction HF as [|n na order l [Hn _] HF IH]; [done|].
    cbn. by rewrite Hn, IH. }
  split_and!.
  - by rewrite Hl1, Hperm.
  - intros u. by rewrite Hl1, Hperm, Hmem.
  - intros u a Ha%OD_get_Some_elem.
    apply list_elem_of_lookup in Ha as [k Hk].
    destruct (Forall2_lookup_r _ _ _ _ _ HF Hk) as (n & _ & Hn & h & r & ? & ? & Ha).
    cbn in Hn, Ha. subst n. by exists h, r.
  - intros i j na nb Hij Hi Hj.
    destruct (Forall2_lookup_r _ _ _ _ _ HF Hi)
      as (ni & Hni & <- & hi & ri & _ & Hri & ->).
    destruct (Forall2_lookup_r _ _ _ _ _ HF Hj)
      as (nj & Hnj & <- & hj & rj & _ & Hrj & ->).
    cbn. rewrite list_lookup_fmap in Hni, Hnj.
    apply fmap_Some in Hni as ([ki ni] & Hsi & Hni').
    apply fmap_Some in Hnj as ([kj nj] & Hsj & Hnj').
    cbn in Hni', Hnj'.
    assert (∀ kn, kn ∈ keyed → ∃ r, residues e !! kn.2 = Some r ∧
                                    kn.1 = res_seq r) as Hkey.
    { apply mapM_Ok in Hkeyed. intros kn [k Hk]%list_elem_of_lookup.
      destruct (Forall2_lookup_r _ _ _ _ _ Hkeyed Hk) as (n & _ & Hn).
      inv_ok. subst. by exists a. }
    destruct (Hkey (ki, ni)) as (ri' & Hri' & Hki).
    { rewrite <-(stable_sort_Permutation
                   (λ x y : Z * node, (x.1 <? y.1)%Z) keyed).
      by eapply list_elem_of_lookup_2. }
    destruct (Hkey (kj, nj)) as (rj' & Hrj' & Hkj).
    { rewrite <-(stable_sort_Permutation
                   (λ x y : Z * node, (x.1 <? y.1)%Z) keyed).
      by eapply list_elem_of_lookup_2. }
    cbn in *. subst.
    assert (ri' = ri) as -> by congruence.
    assert (rj' = rj) as -> by congruence.
    exact (sorted_by_key keyed i j _ _ Hsi Hsj Hij).
  - done.
Qed.



Lemma mapM_total {A B} (f : A → result B) (l : list A) :
  (∀ x, x ∈ l → ∃ y, f x = Ok y) → ∃ k, mapM f l = Ok k.
Proof.
  induction l as [|x l IH]; intros H; simpl; [by exists []|].
  destruct (H x) as [y Hy]; [by left|]. destruct IH as [k Hk].
  { intros z Hz. apply H. by right. }
  exists (y :: k). by rewrite Hy, Hk.
Qed.

Lemma foldlM_total {A B} (f : A → B → result A) (a : A) (l : list B) :
  (∀ a x, x ∈ l → ∃ a', f a x = Ok a') → ∃ r, foldlM f a l = Ok r.
Proof.
  revert a. induction l as [|x l IH]; intros a H; simpl; [by exists a|].
  destruct (H a x) as [a' Ha']; [by left|]. rewrite Ha'. simpl.
  apply IH. intros a0 z Hz. apply H. by right.
Qed.

Lemma joins_has_edge {GA NA EA} (g : Graph GA NA EA) u v a b :
  joins u v a b = true → has_edge g u v = has_edge g a b.
Proof.
  intros [[-> ->]|[-> ->]]%joins_spec; [done|apply has_edge_comm].
Qed.

Lemma has_edge_relabel_image {GA NA EA} (g : Graph GA NA EA) mapping u v :
  has_edge (relabel_nodes g mapping) u v = true ↔
  ∃ a b, has_edge g a b = true ∧
         default a (OD.get mapping a) = u ∧ default b (OD.get mapping b) = v.
Proof.
  rewrite has_edge_relabel_nodes, existsb_exists. split.
  - intros (ed & Hin & Hj). apply list_elem_of_In in Hin.
    apply joins_spec in Hj as [[<- <-]|[<- <-]].
    + exists ed.1.1, ed.1.2. split; [|done].
      apply has_edge_spec. exists ed. split; [done|].
      apply joins_spec. by left.
    + exists ed.1.2, ed.1.1. split; [|done].
      apply has_edge_spec. exists ed. split; [done|].
      apply joins_spec. by right.
  - intros (a & b & Hab & <- & <-).
    apply has_edge_spec in Hab as (ed & Hin & Hj).
    exists ed. split; [by apply list_elem_of_In|].
    apply joins_spec in Hj as [[-> ->]|[-> ->]]; apply joins_spec; auto.
Qed.

Lemma node_loop_reads (host : HostGraph) (e : emap) order sg0 sg :
  foldlM (λ (sg : Occurrence) n,
      h ← getitem (node_attr host n);
      r ← getitem (residues e !! n);
      let a := {| on_shape := hn_shape h;
                  on_label := n;
                  on_num_label := hn_num_label h;
                  on_aligned_resnum := aligned_residue_number r;
                  on_resnum := res_seq r |} in
      let sg := add_node sg n a in
      mret (mkGraph (mkOccInfo (Some (graph_attr host))
                               (oi_id (graph_attr sg)))
                    (node_list sg) (edge_list sg))) sg0 order = Ok sg →
  ∀ n, n ∈ order →
    is_Some (residues e !! n) ∧ is_Some (node_attr host n).
Proof.
  revert sg0. induction order as [|n order IH]; intros sg0 H n' Hn';
    simpl in H.
  - by apply elem_of_nil in Hn'.
  - inv_ok. apply elem_of_cons in Hn' as [->|Hn'].
    + split; by eexists.
    + by eapply IH.
Qed.

(** X20 (_generate_protein_subgraph): when the subgraph can be built. The
    function returns exactly when every node of the pattern is mapped to a
    residue of the structure that is a node of its graph, and every edge of
    the pattern to a pair of residues that the graph of the structure joins;
    in every other case it raises [KeyError]. *)
Theorem generate_protein_subgraph_returns_iff (mapping : list (node * node))
    (host : HostGraph) (pattern : PatternGraph) (e : emap) :
  ((∃ sg, _generate_protein_subgraph mapping host pattern e = Ok sg) ↔
   (∀ a, a ∈ nodes pattern →
      is_Some (residues e !! image_of mapping a) ∧
      is_Some (node_attr host (image_of mapping a))) ∧
   (∀ a b, has_edge pattern a b = true →
      has_edge host (image_of mapping a) (image_of mapping b) = true)) ∧
  (∀ err, _generate_protein_subgraph mapping host pattern e = Raise err →
          err = KeyError).
Proof.
  split; [|intros err; apply generate_protein_subgraph_Raise]. split.
  - intros [sg H]. unfold _generate_protein_subgraph in H.
    apply bind_Ok in H as (keyed & Hkeyed & H).
    apply bind_Ok in H as (sg0 & Hnodes & Hedges).
    split.
    + intros a Ha.
      set (inv := OD.of_pairs (map (λ kv : node * node, (kv.2, kv.1)) mapping))
        in *.
      assert (image_of mapping a
              ∈ (stable_sort (λ x y : Z * node, (x.1 <? y.1)%Z) keyed).*2)
        as Hin.
      { rewrite stable_sort_Permutation, (mapM_Ok_keys _ _ _ Hkeyed).
        apply (proj2 (nodes_relabel_nodes_spec pattern inv)). by exists a. }
      by apply (node_loop_reads _ _ _ _ _ Hnodes).
    + intros a b Hab.
      assert (has_edge (relabel_nodes pattern
                (OD.of_pairs (map (λ kv : node * node, (kv.2, kv.1)) mapping)))
                (image_of mapping a) (image_of mapping b) = true) as Hr.
      { apply has_edge_relabel_image. by exists a, b. }
      apply has_edge_spec in Hr as (ed & Hed & Hj).
      rewrite (joins_has_edge _ _ _ _ _ Hj).
      by apply (host_edges_edge_loop _ _ _ _ Hedges).
  - intros [Hnodes Hedges]. unfold _generate_protein_subgraph.
    set (inv := OD.of_pairs (map (λ kv : node * node, (kv.2, kv.1)) mapping)).
    destruct (nodes_relabel_nodes_spec pattern inv) as [_ Hmem].
    assert (∀ n, n ∈ nodes (relabel_nodes pattern inv) →
              is_Some (residues e !! n) ∧ is_Some (node_attr host n)) as Hn.
    { intros n (a & Ha & <-)%Hmem. by apply Hnodes. }
    destruct (mapM_total
                (λ n, r ← getitem (residues e !! n); mret (res_seq r, n))
                (nodes (relabel_nodes pattern inv))) as [keyed Hk].
    { intros n [[r Hr] _]%Hn. exists (res_seq r, n). by rewrite Hr. }
    rewrite Hk. cbn.
    pose proof (mapM_Ok_keys _ _ _ Hk) as Hk2.
    match goal with
    | |- ∃ sg, foldlM ?f ?a ?l ≫= _ = _ =>
        destruct (foldlM_total f a l) as [sg0 Hsg0]
    end.
    { intros sg n Hin.
      assert (n ∈ nodes (relabel_nodes pattern inv)) as [[r Hr] [h Hh]]%Hn.
      { rewrite <-Hk2.
        by rewrite <-(stable_sort_Permutation
                        (λ x y : Z * node, (x.1 <? y.1)%Z) keyed). }
      rewrite Hh. simpl. eexists. apply bind_Ok. exists r.
      split; [by apply getitem_Ok|reflexivity]. }
    rewrite Hsg0. cbn. apply foldlM_total. intros sg ed Hed.
    assert (has_edge host ed.1.1 ed.1.2 = true) as [x Hx]%edge_attr_is_Some.
    { assert (has_edge (relabel_nodes pattern inv) ed.1.1 ed.1.2 = true)
        as (a & b & Hab & <- & <-)%has_edge_relabel_image.
      { apply has_edge_spec. exists ed. split; [done|].
        apply joins_spec. by left. }
      by apply Hedges. }
    rewrite Hx. cbn. by eexists.
Qed.

Lemma joins_congr u v a b x y :
  joins u v a b = true → joins u v x y = joins a b x y.
Proof.
  intros H. apply Bool.eq_iff_eq_true. apply joins_spec in H.
  rewrite !joins_spec. intuition congruence.
Qed.

Lemma edge_attr_joins {GA NA EA} (g : Graph GA NA EA) u v a b :
  joins u v a b = true → edge_attr g u v = edge_attr g a b.
Proof.
  intros H. unfold edge_attr. f_equal. apply list_find_ext.
  intros e. by rewrite (joins_congr u v a b).
Qed.

(** Every edge that the edge loop writes carries the attributes of the edge
    of the host between its endpoints. *)
Lemma edge_loop_host_attrs (host : HostGraph)
    (es : list (node * node * PatEdge)) (sg0 sg : Occurrence) :
  foldlM (λ (sg : Occurrence) e,
      a ← getitem (edge_attr host e.1.1 e.1.2);
      mret (add_edge sg e.1.1 e.1.2 a)) sg0 es = Ok sg →
  (∀ ed, ed ∈ edge_list sg0 → edge_attr host ed.1.1 ed.1.2 = Some ed.2) →
  ∀ ed, ed ∈ edge_list sg → edge_attr host ed.1.1 ed.1.2 = Some ed.2.
Proof.
  revert sg0. induction es as [|e es IH]; intros sg0 H H0; simpl in H.
  - by injection H as <-.
  - inv_ok. subst. eapply IH; [exact H|]. intros ed. unfold add_edge.
    destruct (has_edge sg0 e.1.1 e.1.2); cbn.
    + intros (e0 & -> & He0)%list_elem_of_fmap.
      destruct (joins e.1.1 e.1.2 e0.1.1 e0.1.2) eqn:Hj; [|by apply H0].
      cbn. rewrite <-Ha0. apply edge_attr_joins.
      apply joins_spec in Hj. apply joins_spec. intuition congruence.
    + intros [?| ->%list_elem_of_singleton]%elem_of_app; [by apply H0|done].
Qed.

(** X21 (_generate_protein_subgraph): the edges of a protein subgraph carry
    the attributes of the structure: between two residues that the subgraph
    joins, the attributes of its edge are those of the edge that the graph
    of the structure has between them. *)
Theorem generate_protein_subgraph_edge_data (mapping : list (node * node))
    (host : HostGraph) (pattern : PatternGraph) (e : emap) (sg : Occurrence)
    (u v : node) :
  _generate_protein_subgraph mapping host pattern e = Ok sg →
  has_edge sg u v = true →
  ∃ x, edge_attr sg u v = Some x ∧ edge_attr host u v = Some x.
Proof.
  intros H Huv. unfold _generate_protein_subgraph in H.
  apply bind_Ok in H as (keyed & _ & H).
  apply bind_Ok in H as (sg0 & Hnodes & Hedges).
  apply node_loop_spec in Hnodes as [He0 _]. cbn in He0.
  pose proof (edge_loop_host_attrs _ _ _ _ Hedges) as Hinv.
  apply edge_attr_is_Some in Huv as [x Hx]. exists x. split; [done|].
  unfold edge_attr in Hx. apply fmap_Some in Hx as ([i ed] & Hf & ->).
  apply list_find_Some in Hf as (Hi & Hj & _). cbn.
  rewrite (edge_attr_joins host u v ed.1.1 ed.1.2) by done.
  apply Hinv; [|by eapply list_elem_of_lookup_2].
  rewrite He0. by intros ? ?%elem_of_nil.
Qed.

(** ** The sequence distance *)

Lemma seq_dist_loop (sg1 sg2 : Occurrence) (mapping : list (node * node))
    (acc : Z) :
  match foldlM (λ (total_dist : Z) (kv : node * node),
          a1 ← getitem (node_attr sg1 kv.1);
          match on_aligned_resnum a1 with
          | None => mret total_dist
          | Some r1 =>
              a2 ← getitem (node_attr sg2 kv.2);
              match on_aligned_resnum a2 with
              | None => Raise TypeError
              | Some r2 => mret (total_dist + Z.abs (r1 - r2))%Z
              end
          end) acc mapping with
  | Ok d =>
      (acc ≤ d)%Z ∧
      (d = acc ↔
       ∀ kv a1 r1, kv ∈ mapping → node_attr sg1 kv.1 = Some a1 →
         on_aligned_resnum a1 = Some r1 →
         ∃ a2, node_attr sg2 kv.2 = Some a2 ∧ on_aligned_resnum a2 = Some r1)
  | Raise e =>
      (e = KeyError ∧
       ∃ kv, kv ∈ mapping ∧
         (node_attr sg1 kv.1 = None ∨
          ∃ a1 r1, node_attr sg1 kv.1 = Some a1 ∧
                   on_aligned_resnum a1 = Some r1 ∧
                   node_attr sg2 kv.2 = None)) ∨
      (e = TypeError ∧
       ∃ kv a1 r1 a2, kv ∈ mapping ∧ node_attr sg1 kv.1 = Some a1 ∧
         on_aligned_resnum a1 = Some r1 ∧ node_attr sg2 kv.2 = Some a2 ∧
         on_aligned_resnum a2 = None)
  end.
Proof.
  revert acc. induction mapping as [|kv mapping IH]; intros acc.
  - cbn. split; [lia|]. split; [|done]. by intros _ ? ? ? ?%elem_of_nil.
  - cbn [foldlM].
    destruct (node_attr sg1 kv.1) as [a1|] eqn:E1; cbn; cycle 1.
    { left. split; [done|]. exists kv. split; [by left|by left]. }
    destruct (on_aligned_resnum a1) as [r1|] eqn:Er1; cbn.
    + destruct (node_attr sg2 kv.2) as [a2|] eqn:E2; cbn; cycle 1.
      { left. split; [done|]. exists kv. split; [by left|]. right.
        by exists a1, r1. }
      destruct (on_aligned_resnum a2) as [r2|] eqn:Er2; cbn; cycle 1.
      { right. split; [done|]. exists kv, a1, r1, a2. split; [by left|done]. }
      specialize (IH (acc + Z.abs (r1 - r2))%Z).
      destruct (foldlM _ _ mapping) as [d|e].
      * destruct IH as [Hle Hiff]. split; [lia|]. split.
        -- intros ->. assert (r1 = r2) as -> by lia.
           intros kv' a1' r1' [->|Hin]%elem_of_cons Ha1 Hr1.
           ++ exists a2. split; [done|]. congruence.
           ++ by apply (proj1 Hiff ltac:(lia) kv' a1' r1').
        -- intros Hall.
           destruct (Hall kv a1 r1) as (a2' & Ha2' & Hr2'); [by left|done..|].
           assert (r1 = r2) as -> by congruence.
           rewrite (proj2 Hiff); [lia|].
           intros kv' ? ? Hin. apply Hall. by right.
      * destruct IH as [(-> & kv' & Hin & H)|(-> & kv' & ? & ? & ? & Hin & H)].
        -- left. split; [done|]. exists kv'. split; [by right|done].
        -- right. split; [done|]. eexists kv', _, _, _. split; [by right|done].
    + specialize (IH acc).
      destruct (foldlM _ _ mapping) as [d|e].
      * destruct IH as [Hle Hiff]. split; [done|]. rewrite Hiff. split.
        -- intros Hall kv' a1' r1' [->|Hin]%elem_of_cons Ha1 Hr1;
             [congruence|by eapply Hall].
        -- intros Hall kv' ? ? Hin. apply Hall. by right.
      * destruct IH as [(-> & kv' & Hin & H)|(-> & kv' & ? & ? & ? & Hin & H)].
        -- left. split; [done|]. exists kv'. split; [by right|done].
        -- right. split; [done|]. eexists kv', _, _, _. split; [by right|done].
Qed.

(** X22 (_subgraph_seq_dist): the sequence distance is never negative, and
    it is 0 exactly when every pair of the mapping whose first residue is
    aligned has the same aligned number on both sides. A pair whose first
    residue is not aligned is skipped without a look at the second residue;
    a pair whose first residue is aligned and whose second is not raises
    [TypeError]; a residue that is not a node of its subgraph raises
    [KeyError]; nothing else is raised. *)
Theorem subgraph_seq_dist_outcome (sg1 sg2 : Occurrence)
    (mapping : list (node * node)) :
  match _subgraph_seq_dist sg1 sg2 mapping with
  | Ok d =>
      (0 ≤ d)%Z ∧
      (d = 0%Z ↔
       ∀ kv a1 r1, kv ∈ mapping → node_attr sg1 kv.1 = Some a1 →
         on_aligned_resnum a1 = Some r1 →
         ∃ a2, node_attr sg2 kv.2 = Some a2 ∧ on_aligned_resnum a2 = Some r1)
  | Raise e =>
      (e = KeyError ∧
       ∃ kv, kv ∈ mapping ∧
         (node_attr sg1 kv.1 = None ∨
          ∃ a1 r1, node_attr sg1 kv.1 = Some a1 ∧
                   on_aligned_resnum a1 = Some r1 ∧
                   node_attr sg2 kv.2 = None)) ∨
      (e = TypeError ∧
       ∃ kv a1 r1 a2, kv ∈ mapping ∧ node_attr sg1 kv.1 = Some a1 ∧
         on_aligned_resnum a1 = Some r1 ∧ node_attr sg2 kv.2 = Some a2 ∧
         on_aligned_resnum a2 = None)
  end.
Proof. apply (seq_dist_loop sg1 sg2 mapping 0). Qed.

(** X23 (_subgraph_seq_dist): between two subgraphs whose mapped residues
    are all aligned the distance is symmetric: it returns, and returns the
    same value for the two subgraphs exchanged and the mapping reversed. *)
Theorem subgraph_seq_dist_symmetric (sg1 sg2 : Occurrence)
    (mapping : list (node * node)) :
  (∀ kv, kv ∈ mapping →
     ∃ a1 a2 r1 r2,
       node_attr sg1 kv.1 = Some a1 ∧ on_aligned_resnum a1 = Some r1 ∧
       node_attr sg2 kv.2 = Some a2 ∧ on_aligned_resnum a2 = Some r2) →
  ∃ d, _subgraph_seq_dist sg1 sg2 mapping = Ok d ∧
       _subgraph_seq_dist sg2 sg1 ((λ kv, (kv.2, kv.1)) <$> mapping) = Ok d.
Proof.
  unfold _subgraph_seq_dist. generalize 0%Z.
  induction mapping as [|kv mapping IH]; intros acc Hall; [by exists acc|].
  destruct (Hall kv) as (a1 & a2 & r1 & r2 & H1 & Hr1 & H2 & Hr2); [by left|].
  cbn. repeat (first [rewrite H1|rewrite H2|rewrite Hr1|rewrite Hr2]; cbn).
  replace (acc + Z.abs (r2 - r1))%Z with (acc + Z.abs (r1 - r2))%Z by lia.
  apply IH. intros kv' Hin. apply Hall. by right.
Qed.

(** ** Groups are not empty *)

Lemma components_nonempty g c :
  edges_in_nodes g → c ∈ connected_components g → c ≠ [].
Proof.
  intros Hwf [[]%elem_of_nil|(v & Hv & ->)]%cc_scan_components.
  destruct (plain_bfs_spec g v Hwf Hv) as (_ & Hmem & _).
  intros Hnil. assert (v ∈ _plain_bfs g v) as Hin by by apply Hmem.
  rewrite Hnil in Hin. by apply elem_of_nil in Hin.
Qed.

Lemma gen_groups_nonempty cc (all_graphs : list Occurrence) gs k l :
  _gen_groups cc all_graphs = Ok gs → (∀ c, c ∈ cc → c ≠ []) →
  gs !! k = Some l → l ≠ [].
Proof.
  intros H Hne Hk. destruct (gen_groups_blocks _ _ _ H) as (blocks & HF & Hlook).
  rewrite Hlook in Hk. destruct k as [|i]; [done|].
  destruct (Forall2_lookup_r _ _ _ _ _ HF Hk) as (c & Hc & Hcl).
  intros ->. apply Forall2_length in Hcl. apply (Hne c).
  - by eapply list_elem_of_lookup_2.
  - by apply length_zero_iff_nil.
Qed.

Section group_facts.
Variable size_weight : Occurrence → Q.
Variable subgraph_monomorphisms :
  HostGraph → PatternGraph → list (list (node * node)).
Variable subgraph_isomorphisms :
  Occurrence → Occurrence → list (list (node * node)).
Variable svd_rms : list coord → list coord → Q.

(** X24 (find_protein_subgraphs): when the search returns and has stored at
    least one protein subgraph, no group is empty, in [groups] and in both
    stored groupings: every group has a first member. (With no subgraph at
    all the one group is empty.) *)
Theorem groups_are_not_empty (option : string) (s s1 : SubgraphPattern)
    (gs : gmap nat (list string)) (k : nat) (members : list string) :
  find_protein_subgraphs size_weight subgraph_monomorphisms
    subgraph_isomorphisms svd_rms
    option s = (Ok tt, s1) →
  protein_subgraphs s1 ≠ ∅ →
  gs = groups s1 ∨ _structural_groups s1 = Some gs ∨
    _sequence_groups s1 = Some gs →
  gs !! k = Some members →
  members ≠ [].
Proof.
  intros H Hps Hgs Hk. unfold find_protein_subgraphs in H.
  apply M_bind_Ok in H as (all_graphs & sp & Hpool & H).
  apply (pool_subgraphs_Ok size_weight subgraph_monomorphisms) in Hpool
    as (ids & Hids & Hlen & _ & Hdom & Hgr & _).
  destruct (1 <? length all_graphs).
  - apply M_bind_Ok in H as ([] & sc & Hdo & Hset).
    apply (do_clustering_Ok subgraph_isomorphisms svd_rms) in Hdo
      as (sim & st & sq & Hsim & Hst & Hsq & ->).
    apply (similarity_graphs_wf subgraph_isomorphisms svd_rms) in Hsim
      as [[_ Hw1] [_ Hw2]].
    eapply (set_clustering_ext _ _ _) in Hset as (g & -> & _ & Hg);
      [|done..].
    cbn in Hgs, Hg.
    assert (∀ c, c ∈ sorted_by_len_desc (connected_components sim.2) → c ≠ [])
      as Hne2.
    { intros c Hc. apply (proj1 (elem_of_sorted_by_len_desc _ _)) in Hc.
      exact (components_nonempty _ _ Hw2 Hc). }
    assert (∀ c, c ∈ sorted_by_len_desc (connected_components sim.1) → c ≠ [])
      as Hne1.
    { intros c Hc. apply (proj1 (elem_of_sorted_by_len_desc _ _)) in Hc.
      exact (components_nonempty _ _ Hw1 Hc). }
    assert (gs = st ∨ gs = sq) as [-> | ->].
    { destruct Hgs as [->|[[= ->]|[= ->]]]; [|by left|by right].
      destruct Hg as [[_ [= ->]]|[_ [= ->]]]; auto. }
    + exact (gen_groups_nonempty _ _ _ _ _ Hst Hne2 Hk).
    + exact (gen_groups_nonempty _ _ _ _ _ Hsq Hne1 Hk).
  - apply M_bind_Ok in H as (ids' & sp2 & Hids' & H).
    unfold lift in Hids'. apply pair_equal_spec in Hids' as [Hids' <-].
    rewrite Hids in Hids'. injection Hids' as <-.
    unfold mbind, M_bind, modify in H. injection H as <-.
    cbn in Hps, Hgs.
    assert (gs = <[1 := ids]> (groups sp)) as ->.
    { by destruct Hgs as [->|[[= ->]|[= ->]]]. }
    intros ->. apply Hps. apply dom_empty_inv_L. rewrite Hdom.
    destruct (decide (k = 1)) as [->|Hne].
    + rewrite lookup_insert_eq in Hk. by injection Hk as ->.
    + by rewrite lookup_insert_ne, Hgr in Hk.
Qed.

End group_facts.

(** ** The pooled subgraphs of a pattern are isomorphic

    The reference matcher enumerates the one-to-one assignments of nodes
    that keep the numeric labels. Every pooled graph is the pattern,
    relabelled along such an assignment and carrying the labels of the
    structure, which the assignment made equal to the pattern's: between
    two pooled graphs there is always a mapping. *)

Section assignment_facts.
Context {NA1 NA2 : Type}.
Variable node_match : NA1 → NA2 → bool.

Lemma assignments_sound (ps : list (node * NA2)) (hs : list (node * NA1)) m :
  m ∈ assignments node_match ps hs →
  m.*2 = ps.*1 ∧ NoDup m.*1 ∧
  Forall2 (λ (kv : node * node) p, kv.2 = p.1 ∧
             ∃ ha, (kv.1, ha) ∈ hs ∧ node_match ha p.2 = true) m ps.
Proof.
  revert hs m. induction ps as [|p ps IH]; intros hs m; simpl.
  - intros ->%list_elem_of_singleton. split_and!; [done|constructor|constructor].
  - intros Hin. apply list_elem_of_In, in_flat_map in Hin as (h & Hh & Hin).
    apply list_elem_of_In in Hh.
    destruct (node_match h.2 p.2) eqn:Hm; [|by destruct Hin].
    apply in_map_iff in Hin as (m' & <- & Hm').
    apply list_elem_of_In, IH in Hm' as (H2 & Hnd & Hall).
    rewrite !fmap_cons. cbn [fst snd]. split_and!.
    + by rewrite H2.
    + constructor; [|done].
      intros Hin. apply list_elem_of_fmap in Hin as (kv & Hk & Hin).
      apply list_elem_of_lookup in Hin as [i Hi].
      destruct (Forall2_lookup_l _ _ _ _ _ Hall Hi)
        as (q & _ & _ & ha & Hha & _).
      apply list_elem_of_filter in Hha as [Hne _]. cbn in Hne. congruence.
    + constructor.
      * split; [done|]. exists h.2. by destruct h.
      * eapply Forall2_impl; [exact Hall|].
        intros kv q (? & ha & Hha & ?). split; [done|]. exists ha.
        by apply list_elem_of_filter in Hha as [_ ?].
Qed.

Lemma assignments_complete (ps : list (node * NA2)) (hs chosen : list (node * NA1)) :
  Forall2 (λ p h, h ∈ hs ∧ node_match h.2 p.2 = true) ps chosen →
  NoDup chosen.*1 →
  zip chosen.*1 ps.*1 ∈ assignments node_match ps hs.
Proof.
  revert hs chosen. induction ps as [|p ps IH]; intros hs chosen Hall Hnd.
  - apply Forall2_nil_inv_l in Hall as ->. simpl. apply list_elem_of_here.
  - apply Forall2_cons_inv_l in Hall as (h & chosen' & [Hh Hm] & Hall & ->).
    rewrite fmap_cons in Hnd. apply NoDup_cons in Hnd as [Hnot Hnd].
    simpl. apply list_elem_of_In, in_flat_map. exists h.
    split; [by apply list_elem_of_In|]. rewrite Hm.
    apply in_map_iff. exists (zip chosen'.*1 ps.*1). split; [done|].
    apply list_elem_of_In, IH; [|done].
    apply Forall2_same_length_lookup. split; [by eapply Forall2_length|].
    intros i q k Hq Hk.
    destruct (proj1 (Forall2_same_length_lookup _ _ _) Hall) as [_ Hl].
    destruct (Hl i q k Hq Hk) as [Hkin Hkm]. split; [|done].
    apply list_elem_of_filter. split; [|done]. cbn.
    intros Heq. apply Hnot. rewrite <- Heq.
    apply list_elem_of_fmap. exists k. split; [done|].
    by eapply list_elem_of_lookup_2.
Qed.
End assignment_facts.

(** What the matching of two protein subgraphs reads of a subgraph built by
    [_generate_protein_subgraph]. *)
Lemma generated_subgraph_shape (mapping : list (node * node))
    (host : HostGraph) (pattern : PatternGraph) (e : emap) (sg : Occurrence) :
  _generate_protein_subgraph mapping host pattern e = Ok sg →
  NoDup (nodes sg) ∧
  (∀ u, u ∈ nodes sg ↔ ∃ a, a ∈ nodes pattern ∧ image_of mapping a = u) ∧
  (∀ na, na ∈ node_list sg →
     ∃ h, node_attr host na.1 = Some h ∧ on_num_label na.2 = hn_num_label h) ∧
  (∀ u v, has_edge sg u v = true ↔
     ∃ a b, has_edge pattern a b = true ∧
            image_of mapping a = u ∧ image_of mapping b = v) ∧
  (∀ ed, ed ∈ edge_list sg → edge_attr host ed.1.1 ed.1.2 = Some ed.2).
Proof.
  intros H. unfold _generate_protein_subgraph in H.
  apply bind_Ok in H as (keyed & Hkeyed & H).
  apply bind_Ok in H as (sg0 & Hnodes & Hedges).
  pose proof (edge_loop_frame _ _ _ _ Hedges) as [Hnl Hga].
  pose proof (node_loop_spec _ _ _ _ _ Hnodes) as [He0 _]. cbn in He0.
  set (inv := OD.of_pairs (map (λ kv : node * node, (kv.2, kv.1)) mapping)) in *.
  destruct (nodes_relabel_nodes_spec pattern inv) as [Hnd Hmem].
  pose proof (mapM_Ok_keys _ _ _ Hkeyed) as Hk2.
  set (sorted := stable_sort (λ x y : Z * node, (x.1 <? y.1)%Z) keyed) in *.
  assert (sorted.*2 ≡ₚ nodes (relabel_nodes pattern inv)) as Hperm.
  { subst sorted. by rewrite stable_sort_Permutation, Hk2. }
  apply node_loop_data in Hnodes as [Hid (l & Hl & HF)];
    [|cbn; by rewrite Hperm].
  cbn in Hl, Hid. unfold nodes at 1 2. rewrite Hnl, Hl.
  assert (l.*1 = sorted.*2) as Hl1.
  { clear -HF. induction HF as [|n na order l [Hn _] HF IH]; [done|].
    cbn. by rewrite Hn, IH. }
  split_and!.
  - by rewrite Hl1, Hperm.
  - intros u. by rewrite Hl1, Hperm, Hmem.
  - intros na [k Hk]%list_elem_of_lookup.
    destruct (Forall2_lookup_r _ _ _ _ _ HF Hk)
      as (n & _ & Hn & h & r & Hh & _ & Ha).
    exists h. rewrite Hn, Ha. by split.
  - intros u v. rewrite (has_edge_edge_loop _ _ _ _ u v Hedges).
    unfold has_edge at 1. rewrite He0. simpl.
    change (existsb _ (edge_list (relabel_nodes pattern inv)))
      with (has_edge (relabel_nodes pattern inv) u v).
    apply has_edge_relabel_image.
  - apply (edge_loop_host_attrs _ _ _ _ Hedges).
    rewrite He0. by intros ? ?%elem_of_nil.
Qed.

Lemma OD_get_elem_NoDup {V} (d : list (node * V)) k v :
  NoDup d.*1 → (k, v) ∈ d → OD.get d k = Some v.
Proof.
  induction d as [|[k' v'] d IH]; simpl; [by intros _ ?%elem_of_nil|].
  intros [Hk Hnd]%NoDup_cons [[= -> ->]|Hin]%elem_of_cons.
  - by rewrite decide_True.
  - case_decide as Heq; [|by apply IH]. subst k'.
    destruct Hk. apply list_elem_of_fmap. by exists (k, v).
Qed.

Lemma of_pairs_NoDup {V} (l : list (node * V)) :
  NoDup l.*1 → OD.of_pairs l = l.
Proof.
  unfold OD.of_pairs.
  assert (∀ acc : list (node * V), NoDup (acc ++ l).*1 →
            foldl (λ d kv, OD.set d kv.1 kv.2) acc l = acc ++ l) as Hgen.
  { induction l as [|[k v] l IH]; intros acc Hnd; simpl.
    - by rewrite app_nil_r.
    - rewrite fmap_app, fmap_cons in Hnd. cbn in Hnd.
      apply NoDup_app in Hnd as (Hacc & Hdisj & Hl).
      rewrite OD_get_app_fresh.
      + rewrite IH; [by rewrite <- app_assoc|].
        rewrite <- app_assoc. cbn [app]. rewrite fmap_app, fmap_cons. cbn.
        apply NoDup_app. split_and!; done.
      + intros Hk. apply (Hdisj _ Hk). by left. }
  intros Hnd. by apply (Hgen []).
Qed.

Lemma preimage_elem (m : list (node * node)) p u :
  preimage m p = Some u → (u, p) ∈ m.
Proof.
  unfold preimage. intros ([i [u' p']] & Hf & ->)%fmap_Some.
  apply list_find_Some in Hf as (Hi & Hp & _). cbn in Hp. subst p'.
  by eapply list_elem_of_lookup_2.
Qed.

Lemma elem_preimage (m : list (node * node)) p u :
  NoDup m.*2 → (u, p) ∈ m → preimage m p = Some u.
Proof.
  intros Hnd Hin. unfold preimage.
  destruct (list_find (λ kv : node * node, kv.2 = p) m) as [[i [u' p']]|] eqn:E.
  - apply list_find_Some in E as (Hi & Hp & _). cbn in Hp. subst p'. cbn.
    apply list_elem_of_lookup in Hin as [j Hj].
    assert (i = j) as ->.
    { eapply (NoDup_lookup m.*2); [done| |];
        rewrite list_lookup_fmap; [by rewrite Hi|by rewrite Hj]. }
    congruence.
  - apply list_find_None in E. rewrite Forall_forall in E.
    by destruct (E _ Hin).
Qed.

Lemma image_of_elem (m : list (node * node)) a u :
  NoDup m.*2 → (u, a) ∈ m → image_of m a = u.
Proof.
  intros Hnd Hin. unfold image_of.
  assert ((map (λ kv : node * node, (kv.2, kv.1)) m).*1 = m.*2) as Hk.
  { clear. induction m as [|kv m IH]; [done|]. cbn. by rewrite IH. }
  rewrite of_pairs_NoDup by by rewrite Hk.
  rewrite (OD_get_elem_NoDup _ a u); [done|by rewrite Hk|].
  apply list_elem_of_fmap. by exists (u, a).
Qed.

(** A monomorphism of the reference matcher: a one-to-one assignment of
    nodes of the structure to all the nodes of the pattern that keeps the
    numeric labels of nodes and edges. *)
Lemma host_monomorphisms_sound (host : HostGraph) (pattern : PatternGraph) m :
  NoDup (nodes host) →
  m ∈ host_monomorphisms host pattern →
  m.*2 = nodes pattern ∧ NoDup m.*1 ∧
  (∀ u a, (u, a) ∈ m →
     ∃ h pa, node_attr host u = Some h ∧ (a, pa) ∈ node_list pattern ∧
             hn_num_label h = pn_num_label pa) ∧
  (∀ ed, ed ∈ edge_list pattern →
     ∃ u v ha, (u, ed.1.1) ∈ m ∧ (v, ed.1.2) ∈ m ∧
               edge_attr host u v = Some ha ∧
               he_num_label ha = pe_num_label ed.2).
Proof.
  intros Hndh Hm. unfold host_monomorphisms, search_monomorphisms in Hm.
  apply list_elem_of_filter in Hm as [Hedges Hm].
  apply assignments_sound in Hm as (H2 & Hnd & Hall).
  split_and!; [done|done| |].
  - intros u a [i Hi]%list_elem_of_lookup.
    destruct (Forall2_lookup_l _ _ _ _ _ Hall Hi)
      as ([a' pa] & Hp & Ha & h & Hh & Hl).
    cbn in Ha, Hh, Hl. subst a'. exists h, pa. split_and!.
    + by apply OD_get_elem_NoDup.
    + by eapply list_elem_of_lookup_2.
    + by apply Z.eqb_eq.
  - intros ed Hed. unfold edges_preserved in Hedges.
    rewrite forallb_forall in Hedges.
    specialize (Hedges ed (proj1 (list_elem_of_In _ _) Hed)).
    destruct (preimage m ed.1.1) as [u|] eqn:Eu; [|done].
    destruct (preimage m ed.1.2) as [v|] eqn:Ev; [|done].
    destruct (edge_attr host u v) as [ha|] eqn:Ea; [|done].
    exists u, v, ha. split_and!; [by apply preimage_elem..|done|].
    by apply Z.eqb_eq.
Qed.

(** The same, by the images of the nodes of a well-formed pattern. *)
Lemma host_monomorphisms_image (host : HostGraph) (pattern : PatternGraph) m :
  NoDup (nodes host) → NoDup (nodes pattern) →
  m ∈ host_monomorphisms host pattern →
  (∀ a, a ∈ nodes pattern → OD.get m (image_of m a) = Some a) ∧
  (∀ a, a ∈ nodes pattern →
     ∃ h pa, node_attr host (image_of m a) = Some h ∧
             node_attr pattern a = Some pa ∧
             hn_num_label h = pn_num_label pa) ∧
  (∀ ed, ed ∈ edge_list pattern →
     ed.1.1 ∈ nodes pattern ∧ ed.1.2 ∈ nodes pattern ∧
     ∃ ha, edge_attr host (image_of m ed.1.1) (image_of m ed.1.2) = Some ha ∧
           he_num_label ha = pe_num_label ed.2).
Proof.
  intros Hndh Hndp Hm.
  destruct (host_monomorphisms_sound _ _ _ Hndh Hm) as (H2 & Hnd1 & Hn & He).
  assert (Hnd2 : NoDup m.*2) by by rewrite H2.
  assert (Himg : ∀ a, a ∈ nodes pattern → (image_of m a, a) ∈ m).
  { intros a Ha. rewrite <- H2 in Ha.
    apply list_elem_of_fmap in Ha as ([u a'] & -> & Hin). cbn.
    by rewrite (image_of_elem m a' u). }
  split_and!.
  - intros a Ha. apply OD_get_elem_NoDup; [done|by apply Himg].
  - intros a Ha. destruct (Hn _ _ (Himg a Ha)) as (h & pa & Hh & Hpa & Hl).
    exists h, pa. split_and!; [done| |done].
    by apply OD_get_elem_NoDup.
  - intros ed Hed. destruct (He ed Hed) as (u & v & ha & Hu & Hv & Ha & Hl).
    assert (ed.1.1 ∈ nodes pattern) as H1.
    { rewrite <- H2. apply list_elem_of_fmap. by exists (u, ed.1.1). }
    assert (ed.1.2 ∈ nodes pattern) as H3.
    { rewrite <- H2. apply list_elem_of_fmap. by exists (v, ed.1.2). }
    split_and!; [done..|]. exists ha.
    by rewrite (image_of_elem m _ u), (image_of_elem m _ v).
Qed.

(** Two protein subgraphs of one pattern are isomorphic: sending each
    residue of the second to the residue that the first has for the same
    node of the pattern is one of the mappings that the reference matcher
    enumerates. *)
Lemma generated_subgraphs_isomorphic (pattern : PatternGraph)
    (host1 host2 : HostGraph) (e1 e2 : emap) (m1 m2 : list (node * node))
    (sg1 sg2 : Occurrence) :
  NoDup (nodes pattern) → NoDup (nodes host1) → NoDup (nodes host2) →
  m1 ∈ host_monomorphisms host1 pattern →
  m2 ∈ host_monomorphisms host2 pattern →
  _generate_protein_subgraph m1 host1 pattern e1 = Ok sg1 →
  _generate_protein_subgraph m2 host2 pattern e2 = Ok sg2 →
  map (λ q, (image_of m1 (default q (OD.get m2 q)), q)) (nodes sg2)
    ∈ occurrence_isomorphisms sg1 sg2.
Proof.
  intros Hndp Hnd1 Hnd2 Hm1 Hm2 Hsg1 Hsg2.
  destruct (host_monomorphisms_image _ _ _ Hnd1 Hndp Hm1) as (Hg1 & Hl1 & He1).
  destruct (host_monomorphisms_image _ _ _ Hnd2 Hndp Hm2) as (Hg2 & Hl2 & He2).
  destruct (generated_subgraph_shape _ _ _ _ _ Hsg1)
    as (Hn1 & Hin1 & Ha1 & Hed1 & Hat1).
  destruct (generated_subgraph_shape _ _ _ _ _ Hsg2)
    as (Hn2 & Hin2 & Ha2 & Hed2 & Hat2).
  set (f := λ q, image_of m1 (default q (OD.get m2 q))).
  assert (Hf : ∀ a, a ∈ nodes pattern → f (image_of m2 a) = image_of m1 a).
  { intros a Ha. unfold f. by rewrite (Hg2 a Ha). }
  assert (Hinj1 : ∀ a b, a ∈ nodes pattern → b ∈ nodes pattern →
                         image_of m1 a = image_of m1 b → a = b).
  { intros a b Ha Hb Hab. pose proof (Hg1 a Ha) as Hx.
    rewrite Hab, (Hg1 b Hb) in Hx. congruence. }
  assert (Hends : ∀ a b, has_edge pattern a b = true →
                         a ∈ nodes pattern ∧ b ∈ nodes pattern).
  { intros a b (ed & Hed & Hj)%has_edge_spec.
    destruct (He1 ed Hed) as (? & ? & _).
    apply joins_spec in Hj as [[<- <-]|[<- <-]]; done. }
  assert (Hlab : ∀ (m : list (node * node)) (host : HostGraph) (sg : Occurrence),
    (∀ ed, ed ∈ edge_list pattern →
       ed.1.1 ∈ nodes pattern ∧ ed.1.2 ∈ nodes pattern ∧
       ∃ ha, edge_attr host (image_of m ed.1.1) (image_of m ed.1.2) = Some ha ∧
             he_num_label ha = pe_num_label ed.2) →
    (∀ ed, ed ∈ edge_list sg → edge_attr host ed.1.1 ed.1.2 = Some ed.2) →
    ∀ ed a b x, ed ∈ edge_list pattern → joins a b ed.1.1 ed.1.2 = true →
      x ∈ edge_list sg →
      joins (image_of m a) (image_of m b) x.1.1 x.1.2 = true →
      he_num_label x.2 = pe_num_label ed.2).
  { intros m host sg He Hat ed a b x Hed Hj Hx Hjx.
    destruct (He ed Hed) as (_ & _ & ha & Hha & <-).
    pose proof (Hat x Hx) as Hxa.
    rewrite <- (edge_attr_joins host _ _ _ _ Hjx) in Hxa.
    assert (joins (image_of m a) (image_of m b)
                  (image_of m ed.1.1) (image_of m ed.1.2) = true) as Hji.
    { apply joins_spec in Hj as [[<- <-]|[<- <-]]; apply joins_spec; auto. }
    rewrite (edge_attr_joins host _ _ _ _ Hji) in Hxa. congruence. }
  set (M := map (λ q, (f q, q)) (nodes sg2)).
  change (map (λ q, (image_of m1 (default q (OD.get m2 q)), q)) (nodes sg2))
    with M.
  assert (HM2 : M.*2 = nodes sg2).
  { subst M. clear. induction (nodes sg2) as [|q l IH]; [done|].
    cbn. by rewrite IH. }
  assert (HM1 : M.*1 = f <$> nodes sg2).
  { subst M. clear. induction (nodes sg2) as [|q l IH]; [done|].
    cbn. by rewrite IH. }
  assert (HMin : ∀ a, a ∈ nodes pattern →
                      (image_of m1 a, image_of m2 a) ∈ M).
  { intros a Ha. subst M. apply list_elem_of_fmap. exists (image_of m2 a).
    split; [by rewrite Hf|]. apply Hin2. by exists a. }
  assert (HMnd : NoDup M.*1).
  { rewrite HM1. apply NoDup_fmap_2_strong; [|done].
    intros x y (a & Ha & <-)%Hin2 (b & Hb & <-)%Hin2.
    rewrite !Hf by done. intros Hab. by rewrite (Hinj1 a b). }
  unfold occurrence_isomorphisms, search_isomorphisms.
  apply list_elem_of_filter. split; [split|].
  - unfold edges_preserved. apply forallb_forall. intros ed Hed.
    apply list_elem_of_In in Hed.
    assert (has_edge sg2 ed.1.1 ed.1.2 = true) as Hhas.
    { apply has_edge_spec. exists ed. split; [done|].
      apply joins_spec. by left. }
    apply Hed2 in Hhas as (a & b & Hab & Hia & Hib).
    destruct (Hends a b Hab) as [Ha Hb].
    rewrite (elem_preimage M ed.1.1 (image_of m1 a)), 
            (elem_preimage M ed.1.2 (image_of m1 b));
      [|by rewrite HM2|by rewrite <- Hib; apply HMin
       |by rewrite HM2|by rewrite <- Hia; apply HMin].
    assert (has_edge sg1 (image_of m1 a) (image_of m1 b) = true) as Hhas1.
    { apply Hed1. by exists a, b. }
    apply edge_attr_is_Some in Hhas1 as [x1 Hx1]. rewrite Hx1.
    unfold edge_attr in Hx1. apply fmap_Some in Hx1 as ([i ed1] & Hfind & ->).
    apply list_find_Some in Hfind as (Hi & Hj1 & _). cbn.
    apply has_edge_spec in Hab as (edp & Hedp & Hjp).
    apply Z.eqb_eq.
    rewrite (Hlab m1 host1 sg1 He1 Hat1 edp a b ed1 Hedp Hjp);
      [|by eapply list_elem_of_lookup_2|done].
    rewrite (Hlab m2 host2 sg2 He2 Hat2 edp a b ed Hedp Hjp); [done..|].
    apply joins_spec. by left.
  - unfold edges_reflected. apply forallb_forall. intros ed Hed.
    apply list_elem_of_In in Hed.
    assert (has_edge sg1 ed.1.1 ed.1.2 = true) as Hhas.
    { apply has_edge_spec. exists ed. split; [done|].
      apply joins_spec. by left. }
    apply Hed1 in Hhas as (a & b & Hab & Hia & Hib).
    destruct (Hends a b Hab) as [Ha Hb].
    rewrite (OD_get_elem_NoDup M ed.1.1 (image_of m2 a)),
            (OD_get_elem_NoDup M ed.1.2 (image_of m2 b));
      [|done|by rewrite <- Hib; apply HMin|done|by rewrite <- Hia; apply HMin].
    apply Hed2. by exists a, b.
  - set (chosen := map (λ p : node * OccNode,
                          (f p.1, default p.2 (node_attr sg1 (f p.1))))
                       (node_list sg2)).
    assert (M = zip chosen.*1 (node_list sg2).*1) as HMz.
    { subst M chosen. unfold nodes. clear.
      induction (node_list sg2) as [|p l IH]; [done|]. cbn. by rewrite IH. }
    rewrite HMz. apply assignments_complete.
    + subst chosen. apply Forall2_fmap_r, Forall_Forall2_diag, Forall_forall.
      intros [q qa] Hq. cbn.
      assert (q ∈ nodes sg2) as Hqn.
      { apply list_elem_of_fmap. by exists (q, qa). }
      apply Hin2 in Hqn as (a & Ha & <-). rewrite Hf by done.
      assert (is_Some (node_attr sg1 (image_of m1 a))) as [x Hx].
      { apply OD_get_is_Some, Hin1. by exists a. }
      rewrite Hx. cbn.
      apply OD_get_Some_elem in Hx. split; [done|].
      destruct (Ha1 _ Hx) as (h1 & Hh1 & Hx1).
      destruct (Ha2 _ Hq) as (h2 & Hh2 & Hq1). cbn in Hh1, Hh2, Hx1, Hq1.
      destruct (Hl1 a Ha) as (h1' & pa1 & Hh1' & Hpa1 & Hlab1).
      destruct (Hl2 a Ha) as (h2' & pa2 & Hh2' & Hpa2 & Hlab2).
      apply Z.eqb_eq. congruence.
    + replace chosen.*1 with M.*1; [done|].
      rewrite HM1. subst chosen. unfold nodes. clear.
      induction (node_list sg2) as [|p l IH]; [done|]. cbn. by rewrite IH.
Qed.

(** Every pooled graph is the protein subgraph of a monomorphism in a
    structure of the support, with an identifier. *)
Lemma pooled_subgraph_origin (size_weight : Occurrence → Q)
    (subgraph_monomorphisms :
       HostGraph → PatternGraph → list (list (node * node)))
    (self self1 : SubgraphPattern) (all_graphs : list Occurrence) g :
  pool_subgraphs size_weight subgraph_monomorphisms self
    = (Ok all_graphs, self1) →
  g ∈ all_graphs →
  ∃ pdb_id e m sg id,
    (pdb_id, e) ∈ support self ∧
    m ∈ subgraph_monomorphisms (init_graph e) (G self) ∧
    _generate_protein_subgraph m (init_graph e) (G self) e = Ok sg ∧
    g = set_graph_id sg id.
Proof.
  intros (sgss & Hm & Hn & _)%pool_subgraphs_iff [k Hk]%list_elem_of_lookup.
  destruct (name_graphs_spec _ _ _ Hn) as [_ Hname].
  destruct (Hname _ _ Hk) as (sg & p & Hsg & _ & ->).
  apply list_elem_of_lookup_2 in Hsg.
  rewrite stable_sort_Permutation in Hsg.
  apply elem_of_concat in Hsg as (sgs & Hin & Hsgs).
  apply mapM_Ok in Hm.
  apply list_elem_of_lookup in Hsgs as [n Hn'].
  destruct (Forall2_lookup_r _ _ _ _ _ Hm Hn') as (pdb_id & Hpdb & Hfound).
  unfold found_in_pdb in Hfound.
  apply bind_Ok in Hfound as (e & He & Hfound).
  apply bind_Ok in Hfound as (r & Hr & Hfound).
  injection Hfound as <-.
  apply getitem_Ok, OD_get_Some_elem in He.
  destruct (unique_subgraphs_spec _ _ _ _ _ Hr eq_refl (NoDup_nil_2))
    as (_ & _ & _ & _ & _ & Horigin).
  destruct (Horigin sg Hin) as [[]%elem_of_nil|(m & Hmin & Hgen)].
  by exists pdb_id, e, m, sg, (p +:+ "_" +:+ pretty (0 + k + 1)).
Qed.

Lemma search_isomorphisms_set_graph_id (sg1 sg2 : Occurrence) id1 id2 :
  occurrence_isomorphisms (set_graph_id sg1 id1) (set_graph_id sg2 id2)
  = occurrence_isomorphisms sg1 sg2.
Proof. reflexivity. Qed.

Lemma subgraph_seq_dist_Raise (sg1 sg2 : Occurrence)
    (mapping : list (node * node)) e :
  _subgraph_seq_dist sg1 sg2 mapping = Raise e → e = KeyError ∨ e = TypeError.
Proof.
  intros H. pose proof (seq_dist_loop sg1 sg2 mapping 0) as Hloop.
  unfold _subgraph_seq_dist in H. rewrite H in Hloop.
  destruct Hloop as [[-> _]|[-> _]]; auto.
Qed.

Lemma collect_atoms_Raise (emap1 emap2 : emap) (mapping : list (node * node))
    (atoms1 atoms2 : list coord) e :
  collect_atoms emap1 emap2 mapping atoms1 atoms2 = Raise e → e = KeyError.
Proof.
  revert atoms1 atoms2.
  induction mapping as [|[key val] mapping IH]; intros atoms1 atoms2;
    simpl; [done|].
  intros [H|(res1 & _ & [H|(res2 & _ & H)]%bind_Raise)]%bind_Raise;
    [by eapply getitem_Raise..|].
  destruct (has_atom res1 "CA" && has_atom res2 "CA").
  - apply bind_Raise in H as [H|(c1 & _ & [H|(c2 & _ & H)]%bind_Raise)];
      [by eapply getitem_Raise..|by eapply IH].
  - destruct (first_shared_atom res1 res2); [|done].
    apply bind_Raise in H as [H|(c1 & _ & [H|(c2 & _ & H)]%bind_Raise)];
      [by eapply getitem_Raise..|by eapply IH].
Qed.

Lemma subgraph_rmsd_Raise (svd_rms : list coord → list coord → Q)
    (self : SubgraphPattern) (sg1 sg2 : Occurrence)
    (mapping : list (node * node)) e :
  _subgraph_rmsd svd_rms self sg1 sg2 mapping = Raise e → e = KeyError.
Proof.
  assert (Hhost : ∀ sg, host_of self sg = Raise e → e = KeyError).
  { intros sg [H|(p & _ & H)]%bind_Raise; by eapply getitem_Raise. }
  unfold _subgraph_rmsd.
  intros [H|(emap1 & _ & [H|(emap2 & _ & H)]%bind_Raise)]%bind_Raise;
    [by eapply Hhost..|].
  apply bind_Raise in H as [H|(r & _ & H)]; [by eapply collect_atoms_Raise|].
  destruct r as [[atoms1 atoms2]|]; [|done].
  by destruct ((2 <=? length atoms1) && (length atoms1 =? length atoms2)).
Qed.

(** With a mapping to measure, the reduction of [_do_clustering] to the
    least distances has something to reduce: [np.min] does not raise. *)
Lemma pair_distances_not_ValueError
    (subgraph_isomorphisms :
       Occurrence → Occurrence → list (list (node * node)))
    (svd_rms : list coord → list coord → Q)
    (self : SubgraphPattern) (gi gj : Occurrence) :
  subgraph_isomorphisms gi gj ≠ [] →
  pair_distances subgraph_isomorphisms svd_rms self gi gj ≠ Raise ValueError.
Proof.
  intros Hne. unfold pair_distances.
  intros [H|(acc & Hacc & H)]%bind_Raise.
  - apply (foldlM_Raise (λ e, e ≠ ValueError)) in H; [done|].
    intros acc m e _ [H'|(d & _ & [H'|(r & _ & H')]%bind_Raise)]%bind_Raise.
    + apply subgraph_seq_dist_Raise in H' as [-> | ->]; done.
    + by apply subgraph_rmsd_Raise in H' as ->.
    + done.
  - apply distances_loop_spec in Hacc as (ds & rs & -> & Hd & Hr).
    apply Forall2_length in Hd, Hr. cbn in H.
    destruct (subgraph_isomorphisms gi gj); [done|].
    destruct ds; [done|]. destruct rs; done.
Qed.

(** X25 (find_protein_subgraphs, _do_clustering): the graphs that the search
    pools are isomorphic to one another. With the matcher that compares the
    numeric labels for equality, for a pattern and structure graphs whose
    nodes are distinct, the enumeration of the isomorphisms between any two
    pooled graphs is not empty, so the reduction of [_do_clustering] to the
    least distances never raises the [ValueError] of [np.min] on an empty
    list. *)
Theorem pooled_subgraphs_are_isomorphic (size_weight : Occurrence → Q)
    (self self1 : SubgraphPattern) (all_graphs : list Occurrence)
    (i j : nat) (gi gj : Occurrence) :
  NoDup (nodes (G self)) →
  Forall (λ pe : string * emap, NoDup (nodes (init_graph pe.2)))
         (support self) →
  pool_subgraphs size_weight host_monomorphisms self
    = (Ok all_graphs, self1) →
  all_graphs !! i = Some gi → all_graphs !! j = Some gj →
  occurrence_isomorphisms gi gj ≠ [] ∧
  ∀ svd_rms s,
    pair_distances occurrence_isomorphisms svd_rms s gi gj ≠ Raise ValueError.
Proof.
  intros Hndp Hndh Hpool Hi%list_elem_of_lookup_2 Hj%list_elem_of_lookup_2.
  rewrite Forall_forall in Hndh.
  destruct (pooled_subgraph_origin _ _ _ _ _ _ Hpool Hi)
    as (p1 & e1 & m1 & sg1 & id1 & He1 & Hm1 & Hsg1 & ->).
  destruct (pooled_subgraph_origin _ _ _ _ _ _ Hpool Hj)
    as (p2 & e2 & m2 & sg2 & id2 & He2 & Hm2 & Hsg2 & ->).
  assert (occurrence_isomorphisms (set_graph_id sg1 id1) (set_graph_id sg2 id2)
          ≠ []) as Hne.
  { rewrite search_isomorphisms_set_graph_id.
    pose proof (generated_subgraphs_isomorphic (G self) _ _ e1 e2 m1 m2
                  sg1 sg2 Hndp (Hndh _ He1) (Hndh _ He2) Hm1 Hm2 Hsg1 Hsg2)
      as Hin.
    intros Hnil. rewrite Hnil in Hin. by apply elem_of_nil in Hin. }
  split; [done|]. intros svd_rms s. by apply pair_distances_not_ValueError.
Qed.

(** ** The properties on the worked examples *)

Lemma update_id_without_underscore_witness :
  _update_id 3 pattern_unnumbered = (Raise ValueError, pattern_unnumbered).
Proof. apply (update_id_without_underscore 3 pattern_unnumbered). reflexivity. Defined.

Lemma update_id_last_wins_witness :
  (∃ p rest, pattern_id pattern_1abc = p +:+ "_" +:+ rest ∧
             contains_char "_" p = false ∧
             pattern_id (_update_id 4 pattern_1abc).2
             = pretty (4 + 1)%Z +:+ "_" +:+ rest) ∧
  (_update_id 4 pattern_1abc).2
  = set_file_id (_file_id (_update_id 4 pattern_1abc).2)
      (set_pattern_id (pattern_id (_update_id 4 pattern_1abc).2) pattern_1abc) ∧
  contains_char "#" (_file_id (_update_id 4 pattern_1abc).2) = false ∧
  ∀ m, _update_id m (_update_id 4 pattern_1abc).2 = _update_id m pattern_1abc.
Proof.
  apply (update_id_last_wins 4 pattern_1abc (_update_id 4 pattern_1abc).2).
  vm_compute. reflexivity.
Defined.

Lemma find_protein_subgraphs_frame_witness :
  same_pattern pattern_two run_two.2 ∧
  ∀ q, q ∉ OD.keys (support pattern_two) →
       total_support run_two.2 !! q = total_support pattern_two !! q.
Proof.
  apply (find_protein_subgraphs_frame sum_of_weights host_monomorphisms
           occurrence_isomorphisms rms_same_or_one "structural"
           pattern_two run_two.2 run_two.1).
  vm_compute. reflexivity.
Defined.

Lemma find_protein_subgraphs_reads_pattern_and_support_witness :
  ∃ t1,
    find_protein_subgraphs sum_of_weights host_monomorphisms
      occurrence_isomorphisms
      rms_same_or_one "structural" pattern_two_stale = (Ok tt, t1) ∧
    protein_subgraphs t1 = protein_subgraphs run_two.2 ∧
    groups t1 = groups run_two.2 ∧
    clustering_option t1 = clustering_option run_two.2 ∧
    _structural_groups t1 = _structural_groups run_two.2 ∧
    _sequence_groups t1 = _sequence_groups run_two.2 ∧
    ∀ pdb_id, pdb_id ∈ OD.keys (support pattern_two) →
      total_support t1 !! pdb_id = total_support run_two.2 !! pdb_id.
Proof.
  apply (find_protein_subgraphs_reads_pattern_and_support sum_of_weights host_monomorphisms
           occurrence_isomorphisms rms_same_or_one "structural"
           pattern_two pattern_two_stale run_two.2).
  - reflexivity.
  - reflexivity.
  - vm_compute. reflexivity.
Defined.

Lemma find_protein_subgraphs_twice_witness :
  find_protein_subgraphs sum_of_weights host_monomorphisms
    occurrence_isomorphisms
    rms_same_or_one "structural" run_two.2 = (Ok tt, run_two.2).
Proof.
  apply (find_protein_subgraphs_twice sum_of_weights host_monomorphisms
           occurrence_isomorphisms rms_same_or_one "structural"
           pattern_two run_two.2).
  vm_compute. reflexivity.
Defined.

Lemma find_subgraph_in_pdb_outcome_witness :
  match (_find_subgraph_in_pdb host_monomorphisms "3unk" pattern_1abc).1 with
  | Ok sgs =>
      "3unk" ∈ OD.keys (support pattern_1abc) ∧
      (_find_subgraph_in_pdb host_monomorphisms "3unk" pattern_1abc).2
      = set_total_support (<["3unk" := length sgs]> (total_support pattern_1abc))
          pattern_1abc
  | Raise e =>
      e = KeyError ∧
      (_find_subgraph_in_pdb host_monomorphisms "3unk" pattern_1abc).2
      = pattern_1abc
  end ∧
  ("3unk" ∉ OD.keys (support pattern_1abc) →
   (_find_subgraph_in_pdb host_monomorphisms "3unk" pattern_1abc).1
   = Raise KeyError).
Proof.
  apply (find_subgraph_in_pdb_outcome host_monomorphisms "3unk" pattern_1abc).
  vm_compute. reflexivity.
Defined.

Lemma protein_subgraphs_by_id_witness :
  (∀ id g, protein_subgraphs run_two.2 !! id = Some g →
     oi_id (graph_attr g) = Some id ∧
     ∃ pdb_id sgs sg p k,
       pdb_id ∈ OD.keys (support pattern_two) ∧
       (_find_subgraph_in_pdb host_monomorphisms pdb_id pattern_two).1
       = Ok sgs ∧
       sg ∈ sgs ∧ oi_pdb_id (graph_attr sg) = Some p ∧
       id = p +:+ "_" +:+ pretty k ∧
       1 ≤ k ≤ size (protein_subgraphs run_two.2) ∧
       g = set_graph_id sg id) ∧
  (∀ pdb_id sgs sg,
     pdb_id ∈ OD.keys (support pattern_two) →
     (_find_subgraph_in_pdb host_monomorphisms pdb_id pattern_two).1
     = Ok sgs →
     sg ∈ sgs →
     ∃ id, protein_subgraphs run_two.2 !! id = Some (set_graph_id sg id)).
Proof.
  apply (protein_subgraphs_by_id sum_of_weights host_monomorphisms occurrence_isomorphisms
           rms_same_or_one "structural" pattern_two run_two.2).
  vm_compute. reflexivity.
Defined.

Lemma protein_subgraphs_count_witness :
  size (protein_subgraphs run_two.2)
  = sum_list ((λ pdb_id, default 0 (total_support run_two.2 !! pdb_id))
                <$> OD.keys (support pattern_two)).
Proof.
  apply (protein_subgraphs_count sum_of_weights host_monomorphisms occurrence_isomorphisms
           rms_same_or_one "structural" pattern_two run_two.2).
  - apply (bool_decide_unpack _). vm_compute. exact I.
  - vm_compute. reflexivity.
Defined.

Lemma protein_subgraphs_ranked_by_weight_witness :
  (sum_of_weights occ_1abc_1 <= sum_of_weights occ_2xyz_4)%Q.
Proof.
  apply (protein_subgraphs_ranked_by_weight sum_of_weights host_monomorphisms
           occurrence_isomorphisms rms_same_or_one "structural"
           pattern_two run_two.2 "1abc" "2xyz" 1 4 occ_1abc_1 occ_2xyz_4).
  - intros g id. reflexivity.
  - vm_compute. reflexivity.
  - vm_compute. reflexivity.
  - vm_compute. reflexivity.
  - lia.
Defined.

Lemma groupings_are_connectivity_classes_witness :
  ∃ structural sequence,
    _structural_groups
      (_do_clustering occurrence_isomorphisms rms_same_or_one pooled_two
         self_two).2 = Some structural ∧
    _sequence_groups
      (_do_clustering occurrence_isomorphisms rms_same_or_one pooled_two
         self_two).2 = Some sequence ∧
    ∀ i j idi idj, ids_two !! i = Some idi → ids_two !! j = Some idj →
      (same_group structural idi idj ↔ connected pairs_graph i j) ∧
      (same_group sequence idi idj ↔ connected pairs_graph i j).
Proof.
  apply (groupings_are_connectivity_classes occurrence_isomorphisms
           rms_same_or_one pooled_two self_two
           (_do_clustering occurrence_isomorphisms rms_same_or_one pooled_two
              self_two).2 (pairs_graph, pairs_graph) ids_two).
  - vm_compute. reflexivity.
  - vm_compute. reflexivity.
  - apply (bool_decide_unpack _). vm_compute. exact I.
  - vm_compute. reflexivity.
Defined.

Lemma find_protein_subgraphs_rejects_option_late_witness :
  ∃ s',
    find_protein_subgraphs sum_of_weights host_monomorphisms
      occurrence_isomorphisms
      rms_same_or_one "structure" pattern_two
    = (Raise (Exception "Either structural or sequence."), s') ∧
    protein_subgraphs s' = protein_subgraphs run_two.2 ∧
    total_support s' = total_support run_two.2 ∧
    _structural_groups s' = _structural_groups run_two.2 ∧
    _sequence_groups s' = _sequence_groups run_two.2 ∧
    groups s' = ∅ ∧
    clustering_option s' = clustering_option pattern_two.
Proof.
  apply (find_protein_subgraphs_rejects_option_late sum_of_weights host_monomorphisms
           occurrence_isomorphisms rms_same_or_one "structural" "structure"
           pattern_two run_two.2).
  - vm_compute. reflexivity.
  - vm_compute. lia.
  - discriminate.
  - discriminate.
Defined.

Lemma set_clustering_after_find_witness :
  ∃ g,
    (if String.eqb "sequence" "structural" then _structural_groups run_two.2
     else _sequence_groups run_two.2) = Some g ∧
    set_clustering "sequence" run_two.2
    = (Ok tt, set_clustering_option "sequence" (set_groups g run_two.2)) ∧
    ("sequence" = "structural" →
     set_clustering "sequence" run_two.2 = (Ok tt, run_two.2)).
Proof.
  apply (set_clustering_after_find sum_of_weights host_monomorphisms occurrence_isomorphisms
           rms_same_or_one "structural" "sequence" pattern_two run_two.2).
  - vm_compute. reflexivity.
  - right. reflexivity.
Defined.

Lemma find_protein_subgraphs_empty_support_witness :
  ∃ s1,
    find_protein_subgraphs sum_of_weights host_monomorphisms
      occurrence_isomorphisms
      rms_same_or_one "anything" pattern_unsupported = (Ok tt, s1) ∧
    protein_subgraphs s1 = ∅ ∧
    total_support s1 = total_support pattern_unsupported ∧
    groups s1 = {[1 := []]} ∧ clustering_option s1 = Some "anything" ∧
    _structural_groups s1 = Some {[1 := []]} ∧
    _sequence_groups s1 = Some {[1 := []]}.
Proof.
  apply (find_protein_subgraphs_empty_support sum_of_weights host_monomorphisms
           occurrence_isomorphisms rms_same_or_one "anything"
           pattern_unsupported).
  reflexivity.
Defined.

Lemma generate_protein_subgraph_node_data_witness :
  NoDup (nodes occ_in_order) ∧
  (∀ u, u ∈ nodes occ_in_order ↔
        ∃ a, a ∈ nodes path3 ∧ image_of in_order a = u) ∧
  (∀ u a, node_attr occ_in_order u = Some a →
     ∃ h r, node_attr triangle u = Some h ∧
            residues emap_1abc !! u = Some r ∧
            a = mkOccNode (hn_shape h) u (hn_num_label h)
                  (aligned_residue_number r) (res_seq r)) ∧
  (∀ i j na nb, i ≤ j →
     node_list occ_in_order !! i = Some na →
     node_list occ_in_order !! j = Some nb →
     (on_resnum na.2 ≤ on_resnum nb.2)%Z) ∧
  oi_id (graph_attr occ_in_order) = None.
Proof.
  apply (generate_protein_subgraph_node_data in_order triangle path3
           emap_1abc occ_in_order).
  vm_compute. reflexivity.
Defined.

Lemma generate_protein_subgraph_edge_data_witness :
  ∃ x, edge_attr occ_in_order "W10(A)" "W20(A)" = Some x ∧
       edge_attr triangle "W10(A)" "W20(A)" = Some x.
Proof.
  apply (generate_protein_subgraph_edge_data in_order triangle path3
           emap_1abc occ_in_order "W10(A)" "W20(A)").
  - vm_compute. reflexivity.
  - vm_compute. reflexivity.
Defined.

Lemma subgraph_seq_dist_symmetric_witness :
  ∃ d, _subgraph_seq_dist occ_1abc_1 occ_2xyz_2 namesakes = Ok d ∧
       _subgraph_seq_dist occ_2xyz_2 occ_1abc_1
         ((λ kv, (kv.2, kv.1)) <$> namesakes) = Ok d.
Proof.
  apply (subgraph_seq_dist_symmetric occ_1abc_1 occ_2xyz_2 namesakes).
  apply Forall_forall.
  repeat constructor; eexists _, _, _, _; vm_compute; repeat split; reflexivity.
Defined.

Lemma groups_are_not_empty_witness : first_group_two ≠ [].
Proof.
  apply (groups_are_not_empty sum_of_weights host_monomorphisms occurrence_isomorphisms
           rms_same_or_one "structural" pattern_two run_two.2
           (groups run_two.2) 1 first_group_two).
  - vm_compute. reflexivity.
  - intros H%(f_equal size). vm_compute in H. discriminate H.
  - left. reflexivity.
  - vm_compute. reflexivity.
Defined.

Lemma pooled_subgraphs_are_isomorphic_witness :
  occurrence_isomorphisms occ_1abc_1 occ_2xyz_4 ≠ [] ∧
  ∀ svd_rms s,
    pair_distances occurrence_isomorphisms svd_rms s occ_1abc_1 occ_2xyz_4
    ≠ Raise ValueError.
Proof.
  apply (pooled_subgraphs_are_isomorphic sum_of_weights pattern_two self_two
           pooled_two 0 3).
  - apply (bool_decide_unpack _). vm_compute. exact I.
  - apply (bool_decide_unpack _). vm_compute. exact I.
  - vm_compute. reflexivity.
  - vm_compute. reflexivity.
  - vm_compute. reflexivity.
Defined.
